(** * MySmartCart: price-catalog ingestion pipeline

    A shallow embedding of the TypeScript sources of the repository:
    the filename grammar resolvers ([extractStoreIdFromFilename]), the
    canonical name normalizer ([normalizeCanonical]), the three
    collectors, the raw-file ledger, the catalog decoder
    ([parse_yohananof.ts]) and the daily aggregation query
    ([aggregate_daily.ts]).

    JavaScript strings are sequences of UTF-16 code units ([list N]);
    regular expressions are embedded as syntax trees run by a
    backtracking matcher that follows the ECMAScript order of
    alternatives (greedy quantifiers, leftmost match).

    The services around the code are explicit: the tables and the
    storage bucket are state that the functions pass along, and what the
    network, the XML parser, the hash and the clock return is given by
    the variables of a section.  A database call whose error the source
    does not inspect is taken to succeed; console output is left out. *)

From Stdlib Require Import Ascii String DecimalString.
From Stdlib Require Import List Permutation NArith ZArith QArith Qround Qabs.
From Stdlib Require Import Bool Lia Lqa.
Import ListNotations.

Set Implicit Arguments.
Local Open Scope nat_scope.

(* ================================================================== *)
(** * JavaScript strings *)
(* ================================================================== *)

Module JS.

Definition jsstring := list N.

(** The code units of an ASCII literal. *)
Definition js (s : string) : jsstring :=
  List.map N_of_ascii (list_ascii_of_string s).
Arguments js s%_string.

Definition str_eqb (a b : jsstring) : bool :=
  if list_eq_dec N.eq_dec a b then true else false.

(** [!s] for a string: only the empty string is falsy. *)
Definition truthy (s : jsstring) : bool :=
  match s with [] => false | _ :: _ => true end.

(** [x ?? y] *)
Definition orElse (A : Type) (x y : option A) : option A :=
  match x with Some _ => x | None => y end.

(** A nullable string used as a condition: [None] unless it is a
    non-empty string. *)
Definition nonEmpty (s : option jsstring) : option jsstring :=
  match s with
  | Some x => if truthy x then Some x else None
  | None => None
  end.

(** [\d] and [[0-9]]. *)
Definition is_digit (c : N) : bool := ((48 <=? c) && (c <=? 57))%N.

(** [\s]: WhiteSpace and LineTerminator of ECMAScript; the same set is
    stripped by [String.prototype.trim]. *)
Definition is_space (c : N) : bool :=
  (((9 <=? c) && (c <=? 13)) || (c =? 32) || (c =? 160) || (c =? 5760)
   || ((8192 <=? c) && (c <=? 8202)) || (c =? 8232) || (c =? 8233)
   || (c =? 8239) || (c =? 8287) || (c =? 12288) || (c =? 65279))%N.

(** [.] without the [s] flag: anything but a line terminator. *)
Definition is_dot (c : N) : bool :=
  negb ((c =? 10) || (c =? 13) || (c =? 8232) || (c =? 8233))%N.

(** Canonicalize of a case-insensitive, non-unicode regular expression.
    Only the ASCII letters are folded: no code unit above 127 folds onto
    an ASCII character, and the only non-ASCII literals of the patterns
    below are Hebrew letters, which have no case. *)
Definition canon (c : N) : N :=
  if ((97 <=? c) && (c <=? 122))%N then (c - 32)%N else c.

(** [s.padStart(target, filler)]. *)
Definition padStart (target : nat) (filler s : jsstring) : jsstring :=
  let k := target - length s in
  match filler with
  | [] => s
  | _ :: _ => firstn k (concat (repeat filler k)) ++ s
  end.

Fixpoint trimStart (s : jsstring) : jsstring :=
  match s with
  | [] => []
  | c :: s' => if is_space c then trimStart s' else s
  end.

Definition trimEnd (s : jsstring) : jsstring := rev (trimStart (rev s)).

(** [s.trim()]. *)
Definition trim (s : jsstring) : jsstring := trimEnd (trimStart s).

(** [String(n)] for a non-negative integer. *)
Definition nat_to_string (n : nat) : jsstring :=
  js (NilZero.string_of_uint (Nat.to_uint n)).

Definition N_to_string (n : N) : jsstring :=
  js (NilZero.string_of_uint (N.to_uint n)).

End JS.
Import JS.

(* ================================================================== *)
(** * Regular expressions *)
(* ================================================================== *)

Module Regex.

(** The fragment of the ECMAScript pattern syntax that the sources use.
    Every quantified atom of the sources is a single-character class,
    except the optional groups, which are [ROpt]. *)
Inductive regex : Type :=
| REps
| RChar (c : N)                                   (* a literal *)
| RClass (p : N -> bool)                          (* \d \s [..] . *)
| RCat (r1 r2 : regex)
| RAlt (r1 r2 : regex)                            (* r1|r2 *)
| ROpt (r : regex)                                (* r? *)
| RRep (p : N -> bool) (lo : nat) (hi : option nat) (* p{lo,hi}, greedy *)
| RGroup (i : nat) (r : regex)                    (* i-th capture group *)
| REnd.                                           (* $ *)

Definition captures := list (nat * jsstring).

Fixpoint capture (i : nat) (c : captures) : option jsstring :=
  match c with
  | [] => None
  | (j, s) :: c' => if Nat.eqb i j then Some s else capture i c'
  end.

Definition rseq (l : list regex) : regex := fold_right RCat REps l.

Definition rlit (s : jsstring) : regex := rseq (List.map RChar s).

Definition ralt (l : list regex) : regex :=
  match l with
  | [] => RClass (fun _ => false)
  | r :: l' => fold_left RAlt l' r
  end.

Definition hi_open (hi : option nat) : bool :=
  match hi with Some O => false | _ => true end.

Section Matcher.
Variable icase : bool.      (* the [i] flag *)
Variable A : Type.

Definition char_eq (x y : N) : bool :=
    if icase then (canon x =? canon y)%N else (x =? y)%N.

  (** Greedy repetition of a class: the longest run first, then shorter
      ones on backtracking. *)
Fixpoint rep (p : N -> bool) (lo : nat) (hi : option nat)
           (s : jsstring) (k : jsstring -> option A) : option A :=
    let stop := match lo with O => k s | S _ => None end in
    match s with
    | [] => stop
    | c :: s' =>
        if p c && hi_open hi then
          match rep p (pred lo) (option_map pred hi) s' k with
          | Some a => Some a
          | None => stop
          end
        else stop
    end.

  (** The matcher in continuation-passing style: [k] receives the rest
      of the input and the captures; [None] makes the matcher backtrack. *)
Fixpoint rmatch (r : regex) (s : jsstring) (c : captures)
           (k : jsstring -> captures -> option A) : option A :=
    match r with
    | REps => k s c
    | RChar x =>
        match s with
        | y :: s' => if char_eq x y then k s' c else None
        | [] => None
        end
    | RClass p =>
        match s with
        | y :: s' => if p y then k s' c else None
        | [] => None
        end
    | RCat r1 r2 => rmatch r1 s c (fun s1 c1 => rmatch r2 s1 c1 k)
    | RAlt r1 r2 =>
        match rmatch r1 s c k with
        | Some a => Some a
        | None => rmatch r2 s c k
        end
    | ROpt r1 =>
        match rmatch r1 s c k with
        | Some a => Some a
        | None => k s c
        end
    | RRep p lo hi => rep p lo hi s (fun s' => k s' c)
    | RGroup i r1 =>
        rmatch r1 s c
          (fun s1 c1 => k s1 ((i, firstn (length s - length s1) s) :: c1))
    | REnd => match s with [] => k s c | _ :: _ => None end
    end.
End Matcher.

(** A match attempt at the current position: the captures and the rest
    of the input after the match. *)
Definition match_here (icase : bool) (r : regex) (s : jsstring)
  : option (captures * jsstring) :=
  rmatch icase r s [] (fun s' c => Some (c, s')).

(** [s.match(r)] / [r.exec(s)] without the [g] flag: the leftmost match. *)
Fixpoint search (icase : bool) (r : regex) (s : jsstring)
  : option captures :=
  match match_here icase r s with
  | Some (c, _) => Some c
  | None =>
      match s with
      | [] => None
      | _ :: s' => search icase r s'
      end
  end.

(** [r.test(s)] for an unanchored pattern. *)
Definition test (icase : bool) (r : regex) (s : jsstring) : bool :=
  match search icase r s with Some _ => true | None => false end.

(** [s.match(r)] for a pattern that starts with [^]: index 0 only. *)
Definition match_start (icase : bool) (r : regex) (s : jsstring)
  : option captures :=
  match match_here icase r s with
  | Some (c, _) => Some c
  | None => None
  end.

(** [s.replace(r, by)] with the [g] flag.  [skip] counts the code units
    of the current match that are still to be dropped.  After an empty
    match the scan advances by one code unit, as [lastIndex] does. *)
Fixpoint replace_from (icase : bool) (r : regex) (by_ : jsstring)
         (skip : nat) (s : jsstring) : jsstring :=
  match s with
  | [] =>
      match skip, match_here icase r [] with
      | O, Some _ => by_
      | _, _ => []
      end
  | c :: s' =>
      match skip with
      | S n => replace_from icase r by_ n s'
      | O =>
          match match_here icase r s with
          | Some (_, rest) =>
              match length s - length rest with
              | O => by_ ++ c :: replace_from icase r by_ 0 s'
              | S n => by_ ++ replace_from icase r by_ n s'
              end
          | None => c :: replace_from icase r by_ 0 s'
          end
      end
  end.

Definition replace_all (icase : bool) (r : regex) (by_ s : jsstring)
  : jsstring := replace_from icase r by_ 0 s.

End Regex.
Import Regex.

(* ================================================================== *)
(** * Filename grammar resolvers *)
(* ================================================================== *)

Definition digits1 : regex := RRep is_digit 1 None.             (* \d+ *)
Definition digitsN (n : nat) : regex := RRep is_digit n (Some n). (* \d{n} *)
Definition store_group : regex :=
  RGroup 1 (RRep is_digit 1 (Some 4)).                      (* ([0-9]{1,4}) *)
Definition dash : regex := RChar 45.
Definition dot_gz : regex := rlit (js ".gz").                   (* \.gz *)

(** [m[1].padStart(3, "0")] *)
Definition pad_store (c : captures) : option jsstring :=
  match capture 1 c with
  | Some d => Some (padStart 3 (js "0") d)
  | None => None
  end.

(** Tries the grammars in order; the first that matches decides. *)
Fixpoint first_grammar (gs : list regex) (nameOrUrl : jsstring)
  : option jsstring :=
  match gs with
  | [] => None
  | g :: gs' =>
      match search true g nameOrUrl with
      | Some c => pad_store c
      | None => first_grammar gs' nameOrUrl
      end
  end.

Module Yohananof.

  (** [/PriceFull\d+-\d+-([0-9]{1,4})-\d{12}\.gz/i] *)
Definition g_sub_store : regex :=
    rseq [rlit (js "PriceFull"); digits1; dash; digits1; dash; store_group;
          dash; digitsN 12; dot_gz].

  (** [/PriceFull\d+-([0-9]{1,4})-\d{12}\.gz/i] *)
Definition g_store : regex :=
    rseq [rlit (js "PriceFull"); digits1; dash; store_group; dash;
          digitsN 12; dot_gz].

Definition grammars : list regex := [g_sub_store; g_store].

Definition extractStoreIdFromFilename (nameOrUrl : jsstring)
    : option jsstring := first_grammar grammars nameOrUrl.

End Yohananof.

Module Shufersal.

  (** [/Price\d+-\d+-([0-9]{1,4})-\d{8}-\d{6}\.gz/i] *)
Definition g_price_long : regex :=
    rseq [rlit (js "Price"); digits1; dash; digits1; dash; store_group;
          dash; digitsN 8; dash; digitsN 6; dot_gz].

  (** [/Price\d+-([0-9]{1,4})-\d{12}\.gz/i] *)
Definition g_price_short : regex :=
    rseq [rlit (js "Price"); digits1; dash; store_group; dash;
          digitsN 12; dot_gz].

  (** [/PriceFull\d+-\d+-([0-9]{1,4})-\d{8}-\d{6}\.gz/i] *)
Definition g_full_long : regex :=
    rseq [rlit (js "PriceFull"); digits1; dash; digits1; dash; store_group;
          dash; digitsN 8; dash; digitsN 6; dot_gz].

  (** [/PriceFull\d+-([0-9]{1,4})-\d{12}\.gz/i] *)
Definition g_full_short : regex :=
    rseq [rlit (js "PriceFull"); digits1; dash; store_group; dash;
          digitsN 12; dot_gz].

Definition grammars : list regex :=
    [g_price_long; g_price_short; g_full_long; g_full_short].

Definition extractStoreIdFromFilename (nameOrUrl : jsstring)
    : option jsstring := first_grammar grammars nameOrUrl.

End Shufersal.


(* ================================================================== *)
(** * Canonical name normalizer (parse_yohananof.ts) *)
(* ================================================================== *)

Module Normalizer.

(** The unit vocabulary of the first pattern, in the order of the
    alternation.  The Hebrew words are given by their code units. *)
Definition units : list jsstring :=
  [ [1490; 1512; 1501]%N;                     (* gimel resh mem-sofit *)
    [1490; 1512]%N;                           (* gimel resh *)
    [1490]%N;                                 (* gimel *)
    [1502; 34; 1500]%N;                       (* mem, quote, lamed *)
    [1502; 1500]%N;                           (* mem lamed *)
    [1500; 1497; 1496; 1512]%N;               (* lamed yod tet resh *)
    [1500]%N;                                 (* lamed *)
    [1511; 34; 1490]%N;                       (* qof, quote, gimel *)
    [1511; 1490]%N;                           (* qof gimel *)
    [1497; 1495; 39]%N;                       (* yod, het, apostrophe *)
    [1497; 1495; 1497; 1491; 1492]%N;         (* yod het yod dalet he *)
    [1497; 1495; 1497; 1491; 1493; 1514]%N;   (* yod het yod dalet vav tav *)
    [1502; 34; 1490]%N;                       (* mem, quote, gimel *)
    [1502; 1490]%N;                           (* mem gimel *)
    js "ml"; js "gr"; js "kg"; js "l"; js "g" ].

Definition spaces0 : regex := RRep is_space 0 None.             (* \s* *)

(** [/\d+(\.\d+)?\s*(<units>)/gi] *)
Definition re_quantity : regex :=
  rseq [digits1; ROpt (RGroup 1 (rseq [RChar 46; digits1])); spaces0;
        RGroup 2 (ralt (List.map rlit units))].

(** [[xX×]] *)
Definition is_times (c : N) : bool :=
  ((c =? 120) || (c =? 88) || (c =? 215))%N.

(** [/\s*[xX×]\s*\d+/g] *)
Definition re_multiplier : regex :=
  rseq [spaces0; RClass is_times; spaces0; digits1].

(** [/\d+%/g] *)
Definition re_percent : regex := rseq [digits1; RChar 37].

(** [[()[\]{}]] *)
Definition is_bracket (c : N) : bool :=
  ((c =? 40) || (c =? 41) || (c =? 91) || (c =? 93) || (c =? 123)
   || (c =? 125))%N.

(** [/[()[\]{}]/g] *)
Definition re_bracket : regex := RClass is_bracket.

(** [/\s+/g] *)
Definition re_spaces : regex := RRep is_space 1 None.

Definition normalizeCanonical (name : jsstring) : jsstring :=
  trim
    (replace_all false re_spaces (js " ")
       (replace_all false re_bracket []
          (replace_all false re_percent []
             (replace_all false re_multiplier []
                (replace_all true re_quantity [] name))))).

End Normalizer.
Import Normalizer.

(* ================================================================== *)
(** * Raw-file ledger: the [raw_files] table *)
(* ================================================================== *)

Module Ledger.

Inductive Status : Type := downloaded | failed | skipped | parsed.

Definition status_eqb (a b : Status) : bool :=
  match a, b with
  | downloaded, downloaded | failed, failed
  | skipped, skipped | parsed, parsed => true
  | _, _ => false
  end.

(** A row of [raw_files].  [rf_id] and, for a plain insert, [rf_fetched_at]
    are assigned by the database. *)
Record RawFile : Type := mkRawFile {
  rf_id : nat;
  rf_chain : jsstring;
  rf_store_id : option jsstring;
  rf_file_url : jsstring;
  rf_storage_path : option jsstring;
  rf_sha256 : option jsstring;
  rf_fetched_at : N;
  rf_status : Status;
  rf_error : option jsstring
}.

(** The columns a collector sends: [RawFileInsert], and the argument of
    [upsertRawFile], which also sends [fetched_at]. *)
Record RawFileInsert : Type := mkInsert {
  chain : jsstring;
  store_id : option jsstring;
  file_url : jsstring;
  storage_path : option jsstring;
  sha256 : option jsstring;
  fetched_at : option N;
  status : Status;
  error : option jsstring
}.

Record Table : Type := mkTable {
  rows : list RawFile;
  next_id : nat
}.

Definition same_key (c u : jsstring) (r : RawFile) : bool :=
  str_eqb (rf_chain r) c && str_eqb (rf_file_url r) u.

(** [.select("id").eq("chain", c).eq("file_url", u).limit(1)] *)
Definition select_existing (c u : jsstring) (t : Table) : list nat :=
  firstn 1 (List.map rf_id (filter (same_key c u) (rows t))).

Definition new_row (i : nat) (now : N) (row : RawFileInsert) : RawFile :=
  {| rf_id := i;
     rf_chain := chain row;
     rf_store_id := store_id row;
     rf_file_url := file_url row;
     rf_storage_path := storage_path row;
     rf_sha256 := sha256 row;
     rf_fetched_at := match fetched_at row with Some t => t | None => now end;
     rf_status := status row;
     rf_error := error row |}.

(** Modelled from the spec: the schema of [raw_files] is not part of the
    sources; the spec declares (chain, file_url) unique, and the conflict
    target of [upsertRawFile] relies on that constraint.  A plain insert
    of a present key is therefore refused and changes nothing. *)
Definition insert (now : N) (row : RawFileInsert) (t : Table)
  : Table * option jsstring :=
  if existsb (same_key (chain row) (file_url row)) (rows t)
  then (t, Some (js "duplicate key value violates unique constraint"))
  else ({| rows := rows t ++ [new_row (next_id t) now row];
           next_id := S (next_id t) |}, None).

(** [.upsert(row, { onConflict: "chain,file_url" })]: the row with the
    same key keeps its id and takes every column that was sent. *)
Definition upsert (now : N) (row : RawFileInsert) (t : Table) : Table :=
  if existsb (same_key (chain row) (file_url row)) (rows t)
  then {| rows := List.map (fun r =>
                    if same_key (chain row) (file_url row) r
                    then new_row (rf_id r) now row else r) (rows t);
          next_id := next_id t |}
  else {| rows := rows t ++ [new_row (next_id t) now row];
          next_id := S (next_id t) |}.

(** [.update(f).eq("id", i)] *)
Definition update (i : nat) (f : RawFile -> RawFile) (t : Table) : Table :=
  {| rows := List.map (fun r => if Nat.eqb (rf_id r) i then f r else r)
                      (rows t);
     next_id := next_id t |}.

Definition set_status (s : Status) (e : option jsstring) (r : RawFile)
  : RawFile :=
  {| rf_id := rf_id r; rf_chain := rf_chain r; rf_store_id := rf_store_id r;
     rf_file_url := rf_file_url r; rf_storage_path := rf_storage_path r;
     rf_sha256 := rf_sha256 r; rf_fetched_at := rf_fetched_at r;
     rf_status := s; rf_error := e |}.

Definition set_store_id (sid : option jsstring) (r : RawFile) : RawFile :=
  {| rf_id := rf_id r; rf_chain := rf_chain r; rf_store_id := sid;
     rf_file_url := rf_file_url r; rf_storage_path := rf_storage_path r;
     rf_sha256 := rf_sha256 r; rf_fetched_at := rf_fetched_at r;
     rf_status := rf_status r; rf_error := rf_error r |}.

Definition find_id (i : nat) (t : Table) : option RawFile :=
  find (fun r => Nat.eqb (rf_id r) i) (rows t).

Definition find_key (c u : jsstring) (t : Table) : option RawFile :=
  find (same_key c u) (rows t).

(** The status and the error message recorded for the row [i]. *)
Definition outcome_of (i : nat) (t : Table)
  : option (Status * option jsstring) :=
  option_map (fun r => (rf_status r, rf_error r)) (find_id i t).

(** The number of rows that carry the key (c, u). *)
Definition key_count (c u : jsstring) (t : Table) : nat :=
  length (filter (same_key c u) (rows t)).

End Ledger.
Import Ledger.

(** [buf.length > 2 && buf[0] === 0x1f && buf[1] === 0x8b] *)
Definition isGzip (buf : list N) : bool :=
  (2 <? length buf)
  && (nth 0 buf 0 =? 31)%N && (nth 1 buf 0 =? 139)%N.

(* ================================================================== *)
(** * Catalog decoder (parse_yohananof.ts) *)
(* ================================================================== *)

Module Decoder.

Definition CHAIN : jsstring := js "yohananof".
Definition BATCH : nat := 500.

(** JavaScript numbers, up to the distinction the decoder makes. *)
Inductive jsnum : Type :=
| NFin (q : Q)
| NNaN
| NInf (negative : bool).

(** [Number.isFinite] *)
Definition isFinite (n : jsnum) : bool :=
  match n with NFin _ => true | _ => false end.

(** A leaf value as the XML parser delivers it; an absent property is
    [None]. *)
Inductive xval : Type :=
| XStr (s : jsstring)
| XNum (n : jsnum).

Record Item : Type := mkItem {
  ItemName : option xval;
  ItemPrice : option xval;
  ItemCode : option xval;
  Quantity : option xval;
  UnitOfMeasure : option xval;
  PriceUpdateTime : option xval;
  LastSaleDateTime : option xval;
  bIsWeighted : option xval;
  QtyInPackage : option xval
}.

(** [root?.Items?.Item]: absent (or falsy), a single item, or an array. *)
Inductive ItemList : Type :=
| NoItem
| OneItem (it : Item)
| ItemArray (l : list Item).

Definition toArray (x : ItemList) : list Item :=
  match x with
  | NoItem => []
  | OneItem it => [it]
  | ItemArray l => l
  end.

Record Root : Type := mkRoot {
  ChainID : option xval;
  ChainId : option xval;
  SubChainID : option xval;
  SubChainId : option xval;
  StoreID : option xval;
  StoreId : option xval;
  BikoretNo : option xval;
  Items : ItemList
}.

(** The value of [doc.root] or [doc.Root]: undefined, a falsy leaf (an
    empty element), or an object. *)
Inductive RootVal : Type :=
| RUndefined
| RFalsy
| RObject (r : Root).

Record Doc : Type := mkDoc {
  doc_root : RootVal;
  doc_Root : RootVal
}.

Record PriceRow : Type := mkPriceRow {
  raw_file_id : nat;
  chain : jsstring;
  sub_chain_id : option jsstring;
  store_id : option jsstring;
  bikoret_no : option jsnum;
  item_code : option jsstring;
  barcode : option jsstring;
  item_name : jsstring;
  canonical_key : option jsstring;
  price : jsnum;
  unit_qty : option jsnum;
  unit_of_measure : option jsstring;
  price_update_time : option jsstring;
  last_sale_datetime : option jsstring;
  is_weighted : option bool;
  qty_in_package : option jsnum
}.

(** A row of the query of [main]: [select("id, storage_path, store_id")]. *)
Record FileRow : Type := mkFileRow {
  f_id : nat;
  f_storage_path : option jsstring;
  f_store_id : option jsstring
}.

Record DB : Type := mkDB {
  raw_files : Table;
  prices : list PriceRow
}.

(** The result of one iteration: the loop goes on, or an exception left
    [main]. *)
Inductive Outcome : Type :=
| Continue (db : DB)
| Thrown (db : DB).

Definition db_of (o : Outcome) : DB :=
  match o with Continue db | Thrown db => db end.

Definition opt_str_eqb (a b : option jsstring) : bool :=
  match a, b with
  | Some x, Some y => str_eqb x y
  | None, None => true
  | _, _ => false
  end.

(** [onConflict: "raw_file_id,item_code"] *)
Definition same_price_key (a b : PriceRow) : bool :=
  Nat.eqb (raw_file_id a) (raw_file_id b)
  && opt_str_eqb (item_code a) (item_code b).

Fixpoint upsert_price (r : PriceRow) (t : list PriceRow) : list PriceRow :=
  match t with
  | [] => [r]
  | x :: t' => if same_price_key r x then r :: t' else x :: upsert_price r t'
  end.

Definition upsert_prices (chunk t : list PriceRow) : list PriceRow :=
  fold_left (fun acc r => upsert_price r acc) chunk t.

(** [/^\d{8,14}$/] *)
Definition re_barcode : regex := rseq [RRep is_digit 8 (Some 14); REnd].

Definition is_barcode (s : jsstring) : bool :=
  match match_start false re_barcode s with Some _ => true | None => false end.

(** [for (let i = 0; i < n; i += BATCH)]: the values of [i]. *)
Definition batch_starts (n : nat) : list nat :=
  List.map (fun j => j * BATCH) (seq 0 ((n + (BATCH - 1)) / BATCH)).

Definition mark (i : nat) (s : Status) (e : option jsstring) (db : DB) : DB :=
  {| raw_files := update i (set_status s e) (raw_files db);
     prices := prices db |}.

Fixpoint insert_desc (r : RawFile) (l : list RawFile) : list RawFile :=
  match l with
  | [] => [r]
  | x :: l' =>
      if (rf_fetched_at x <? rf_fetched_at r)%N then r :: l
      else x :: insert_desc r l'
  end.

(** [.order("fetched_at", { ascending: false })]; rows of equal time keep
    their table order. *)
Definition order_desc (l : list RawFile) : list RawFile :=
  fold_right insert_desc [] l.

(** [.like("storage_path", "%PriceFull%")] *)
Definition like_PriceFull (p : option jsstring) : bool :=
  match p with
  | Some s => test false (rlit (js "PriceFull")) s
  | None => false
  end.

(** The query of [main]. *)
Definition select_files (db : DB) : list FileRow :=
  List.map (fun r => {| f_id := rf_id r;
                        f_storage_path := rf_storage_path r;
                        f_store_id := rf_store_id r |})
    (firstn 50
       (order_desc
          (filter (fun r => str_eqb (rf_chain r) CHAIN
                            && status_eqb (rf_status r) downloaded
                            && like_PriceFull (rf_storage_path r))
                  (rows (raw_files db))))).

Section Decode.

(** [Number(s)] and [String(n)] of the platform. *)
Variable StringToNumber : jsstring -> jsnum.
Variable NumberToString : jsnum -> jsstring.
(** [supabase.storage.from(BUCKET).download(path)]: an error message or
    the bytes. *)
Variable storage_download : jsstring -> jsstring + list N.
(** [parser.parse(decode(pako.ungzip(buf)))]; [None] when one of them
    throws. *)
Variable ungzip_parse : list N -> option Doc.
(** The error, if any, of the upsert of one chunk into [prices]. *)
Variable upsert_error : list PriceRow -> option jsstring.

(** [String(v)] *)
Definition String_of (v : xval) : jsstring :=
  match v with
  | XStr s => s
  | XNum n => NumberToString n
  end.

(** [Number(v)] *)
Definition Number_of (v : option xval) : jsnum :=
  match v with
  | None => NNaN
  | Some (XStr s) => StringToNumber s
  | Some (XNum n) => n
  end.

Definition numOrNull (x : option xval) : option jsnum :=
  let n := Number_of x in
  if isFinite n then Some n else None.

(** The trimmed [String] of the name (of the empty string when the name
    is absent), with every run of whitespace replaced by one space. *)
Definition cleanName (it : Item) : jsstring :=
  let rawName :=
    trim (match ItemName it with Some v => String_of v | None => [] end) in
  replace_all false re_spaces (js " ") rawName.

(** The body of the loop over the items: the row that is pushed, if any. *)
Definition item_row (fid : nat) (subChainIdStr storeIdNorm : option jsstring)
           (bikoretNo : option jsnum) (it : Item) : option PriceRow :=
  let name := cleanName it in
  let price := Number_of (ItemPrice it) in
  if negb (truthy name) || negb (isFinite price) then None
  else
    let itemCode := option_map String_of (ItemCode it) in
    let barcode :=
      match nonEmpty itemCode with
      | Some c => if is_barcode c then Some c else None
      | None => None
      end in
    let qty := numOrNull (Quantity it) in
    let uom := option_map String_of (UnitOfMeasure it) in
    let priceUpdate := option_map String_of (PriceUpdateTime it) in
    let lastSale := option_map String_of (LastSaleDateTime it) in
    let isWeighted :=
      match bIsWeighted it with
      | None => None
      | Some v => Some (str_eqb (String_of v) (js "1"))
      end in
    let qtyInPackage :=
      match QtyInPackage it with
      | Some _ => Some (Number_of (QtyInPackage it))
      | None => None
      end in
    let canonical := nonEmpty (Some (normalizeCanonical name)) in
    match nonEmpty itemCode with
    | None => None
    | Some _ =>
        Some {| raw_file_id := fid;
                chain := CHAIN;
                sub_chain_id := subChainIdStr;
                store_id := storeIdNorm;
                bikoret_no := bikoretNo;
                item_code := itemCode;
                barcode := barcode;
                item_name := name;
                canonical_key := canonical;
                price := price;
                unit_qty := qty;
                unit_of_measure := uom;
                price_update_time := priceUpdate;
                last_sale_datetime := lastSale;
                is_weighted := isWeighted;
                qty_in_package := qtyInPackage |}
    end.

(** [rows] after the loop over the items. *)
Fixpoint collect_rows (fid : nat) (subChainIdStr storeIdNorm : option jsstring)
         (bikoretNo : option jsnum) (items : list Item) : list PriceRow :=
  match items with
  | [] => []
  | it :: items' =>
      match item_row fid subChainIdStr storeIdNorm bikoretNo it with
      | Some row =>
          row :: collect_rows fid subChainIdStr storeIdNorm bikoretNo items'
      | None => collect_rows fid subChainIdStr storeIdNorm bikoretNo items'
      end
  end.

(** The batch loop.  Its [continue] goes on with the next chunk. *)
Fixpoint batch_loop (starts : list nat) (rows : list PriceRow) (fid : nat)
         (db : DB) : DB :=
  match starts with
  | [] => db
  | i :: starts' =>
      let chunk := firstn BATCH (skipn i rows) in
      match upsert_error chunk with
      | Some msg => batch_loop starts' rows fid (mark fid failed (Some msg) db)
      | None =>
          batch_loop starts' rows fid
            {| raw_files := raw_files db;
               prices := upsert_prices chunk (prices db) |}
      end
  end.

(** [doc?.root ?? doc?.Root ?? null], then [!root]. *)
Definition root_of (doc : Doc) : option Root :=
  match doc_root doc with
  | RObject r => Some r
  | RFalsy => None
  | RUndefined =>
      match doc_Root doc with
      | RObject r => Some r
      | _ => None
      end
  end.

Definition storeIdNorm_of (root : Root) (f : FileRow) : option jsstring :=
  let storeIdStr := option_map String_of (orElse (StoreID root) (StoreId root)) in
  match nonEmpty storeIdStr with
  | Some s => Some (padStart 3 (js "0") s)
  | None =>
      match nonEmpty (f_store_id f) with
      | Some s => Some (padStart 3 (js "0") s)
      | None => None
      end
  end.

(** From the root element on: the part of the loop body after the
    document was parsed. *)
Definition parse_root (db : DB) (f : FileRow) (root : Root) : DB :=
  let subChainIdStr :=
    option_map String_of (orElse (SubChainID root) (SubChainId root)) in
  match nonEmpty (storeIdNorm_of root f) with
  | None => mark (f_id f) failed (Some (js "Missing StoreId in XML")) db
  | Some sid =>
      let db1 :=
        {| raw_files := update (f_id f) (set_store_id (Some sid)) (raw_files db);
           prices := prices db |} in
      let bikoretNo :=
        match BikoretNo root with
        | Some _ => Some (Number_of (BikoretNo root))
        | None => None
        end in
      let items := toArray (Items root) in
      match items with
      | [] => mark (f_id f) failed (Some (js "No Items in XML")) db1
      | _ :: _ =>
          let rows := collect_rows (f_id f) subChainIdStr (Some sid) bikoretNo items in
          let db2 := batch_loop (batch_starts (length rows)) rows (f_id f) db1 in
          mark (f_id f) parsed None db2
      end
  end.

(** One iteration of the loop of [main] over the selected files. *)
Definition parse_file (db : DB) (f : FileRow) : Outcome :=
  match nonEmpty (f_storage_path f) with
  | None => Continue db
  | Some path =>
      match storage_download path with
      | inl msg => Continue (mark (f_id f) failed (Some msg) db)
      | inr buf =>
          if negb (isGzip buf) then
            Continue (mark (f_id f) failed
                        (Some (js "Not a gzip file (magic bytes missing)")) db)
          else
            match ungzip_parse buf with
            | None => Thrown db
            | Some doc =>
                match root_of doc with
                | None =>
                    Continue (mark (f_id f) failed
                                (Some (js "XML missing root")) db)
                | Some root => Continue (parse_root db f root)
                end
            end
      end
  end.

Fixpoint parse_files (files : list FileRow) (db : DB) : Outcome :=
  match files with
  | [] => Continue db
  | f :: files' =>
      match parse_file db f with
      | Continue db' => parse_files files' db'
      | Thrown db' => Thrown db'
      end
  end.

Definition main (db : DB) : Outcome := parse_files (select_files db) db.

End Decode.

End Decoder.

(* ================================================================== *)
(** * Collectors *)
(* ================================================================== *)

Module Collector.

(** What [fetch] resolves to: [res.ok], [res.status], the body, the
    content-disposition header, [res.url] and the pathname of
    [new URL(res.url)]. *)
Record Response : Type := mkResponse {
  res_ok : bool;
  res_status : nat;
  res_body : list N;
  res_content_disposition : option jsstring;
  res_url : jsstring;
  res_pathname : jsstring
}.

Inductive FetchResult : Type :=
| FetchFailed (message : jsstring)        (* fetch rejects *)
| Fetched (res : Response).

(** The ledger, the storage bucket and the log of the file downloads
    that were issued. *)
Record World : Type := mkWorld {
  ledger : Table;
  bucket : list (jsstring * list N);
  fetch_log : list jsstring
}.

(** How a run ends: with the count of downloads, or with an exception. *)
Inductive Run : Type :=
| Finished (w : World) (downloaded : nat)
| Aborted (w : World).

Definition world_of (r : Run) : World :=
  match r with Finished w _ | Aborted w => w end.

(** One iteration of the curl collector: on to the next URL, or an
    exception. *)
Inductive Step : Type :=
| Next (w : World) (counted : bool)
| Throw (w : World).

Definition step_world (s : Step) : World :=
  match s with Next w _ | Throw w => w end.

Definition log_fetch (u : jsstring) (w : World) : World :=
  {| ledger := ledger w; bucket := bucket w; fetch_log := fetch_log w ++ [u] |}.

Definition with_ledger (t : Table) (w : World) : World :=
  {| ledger := t; bucket := bucket w; fetch_log := fetch_log w |}.

Definition stored (p : jsstring) (b : list (jsstring * list N)) : bool :=
  existsb (fun e => str_eqb (fst e) p) b.

Definition put (p : jsstring) (bytes : list N) (b : list (jsstring * list N))
  : list (jsstring * list N) :=
  (p, bytes) :: filter (fun e => negb (str_eqb (fst e) p)) b.

(** The content-disposition pattern: [filename=], an optional quote, a
    captured run of non-quote characters, an optional quote; flag [i]. *)
Definition not_quote (c : N) : bool := negb (c =? 34)%N.

Definition re_filename : regex :=
  rseq [rlit (js "filename="); ROpt (RChar 34);
        RGroup 1 (RRep not_quote 1 None); ROpt (RChar 34)].

(** [pathname.split("/").pop()] *)
Fixpoint last_segment (acc s : jsstring) : jsstring :=
  match s with
  | [] => acc
  | c :: s' =>
      if (c =? 47)%N then last_segment [] s' else last_segment (acc ++ [c]) s'
  end.

(** [base.toLowerCase().endsWith(".gz")] *)
Definition ends_with_gz (s : jsstring) : bool :=
  match rev s with
  | z :: g :: d :: _ => ((canon z =? 90) && (canon g =? 71) && (d =? 46))%N
  | _ => false
  end.

Definition slash : jsstring := js "/".

(** The chain-specific parts of the two collectors that download with
    [fetch]. *)
Record Chain : Type := mkChain {
  CHAIN : jsstring;
  default_prefix : jsstring;
  extractStoreIdFromFilename : jsstring -> option jsstring
}.

(** The collector of this chain spells its [CHAIN] with a [c]; the curl
    collector and the decoder write [yohananof]. *)
Definition yohananof : Chain :=
  {| CHAIN := js "yochananof";
     default_prefix := js "PriceFull";
     extractStoreIdFromFilename := Yohananof.extractStoreIdFromFilename |}.

Definition shufersal : Chain :=
  {| CHAIN := js "shufersal";
     default_prefix := js "Price";
     extractStoreIdFromFilename := Shufersal.extractStoreIdFromFilename |}.

(** [/PriceFull\d+.*\.gz/i] *)
Definition re_price_full_gz : regex :=
  rseq [rlit (js "PriceFull"); digits1; RRep is_dot 0 None; dot_gz].

(** [/^PriceFull(\d+)-(\d+)-(\d{12})\.gz$/i] *)
Definition re_price_full_name : regex :=
  rseq [rlit (js "PriceFull"); RGroup 1 digits1; dash; RGroup 2 digits1;
        dash; RGroup 3 (digitsN 12); dot_gz; REnd].

(** [s.slice(a, b)] for indices within the string. *)
Definition slice (a b : nat) (s : jsstring) : jsstring :=
  firstn (b - a) (skipn a s).

Section Run.

(** The network: [fetch(url, ...)] of the two fetch collectors and the
    [curl] download of the third ([None]: curl exits with an error). *)
Variable fetch : jsstring -> FetchResult.
Variable curl : jsstring -> option (list N).
(** A failure of the storage service for a path, apart from the refusal
    to overwrite. *)
Variable upload_fault : jsstring -> option jsstring.
(** The hex digest of [crypto.createHash("sha256")]. *)
Variable sha256_hex : list N -> jsstring.
(** The run date as [yyyy-mm-dd], [Date.now()] and the clock of the
    database. *)
Variable today : jsstring.
Variable now_ms : N.
Variable now : N.
(** [path.basename(new URL(url).pathname)]; [None] when [URL] throws. *)
Variable url_basename : jsstring -> option jsstring.

(** [storage.from(bucket).upload(path, bytes, { upsert })] *)
Definition upload (overwrite : bool) (p : jsstring) (bytes : list N)
           (w : World) : World * option jsstring :=
  match upload_fault p with
  | Some e => (w, Some e)
  | None =>
      if negb overwrite && stored p (bucket w)
      then (w, Some (js "The resource already exists"))
      else ({| ledger := ledger w; bucket := put p bytes (bucket w);
               fetch_log := fetch_log w |}, None)
  end.

(** [supabase.from("raw_files").insert(row)] *)
Definition insert_row (row : RawFileInsert) (w : World)
  : World * option jsstring :=
  let (t, e) := insert now row (ledger w) in (with_ledger t w, e).

(** [supabase.from("raw_files").upsert(row, { onConflict })] as
    [upsertRawFile] issues it; an error is only logged. *)
Definition upsertRawFile (row : RawFileInsert) (w : World) : World :=
  with_ledger (upsert now row (ledger w)) w.

(** The name of the downloaded file: from the content-disposition header
    if it has one, else the last segment of the final URL if that ends
    in [.gz], else a generated name. *)
Definition filename_of (c : Chain) (res : Response) : jsstring :=
  let contentDisp :=
    match res_content_disposition res with
    | Some s => s
    | None => []
    end in
  let fromUrl :=
    let base := last_segment [] (res_pathname res) in
    if truthy base && ends_with_gz base then base
    else default_prefix c ++ js "_" ++ N_to_string now_ms ++ js ".gz" in
  match search true re_filename contentDisp with
  | Some cs => match capture 1 cs with Some n => n | None => fromUrl end
  | None => fromUrl
  end.

Definition row_of (c : Chain) (fileUrl : jsstring)
           (storeId storagePath gzSha : option jsstring)
           (st : Status) (err : option jsstring) : RawFileInsert :=
  {| chain := CHAIN c; store_id := storeId; file_url := fileUrl;
     storage_path := storagePath; sha256 := gzSha; fetched_at := None;
     status := st; error := err |}.

(** The [catch] block: a [failed] row with what was known when the
    exception was thrown. *)
Definition record_failure (c : Chain) (fileUrl : jsstring)
           (storeId storagePath gzSha : option jsstring) (msg : jsstring)
           (w : World) : World :=
  fst (insert_row (row_of c fileUrl storeId storagePath gzSha failed
                     (Some msg)) w).

(** The body of the loop over the links, after the cap on the downloads
    was checked: the new world, and whether [downloaded] is incremented. *)
Definition attempt (c : Chain) (fileUrl : jsstring) (w : World)
  : World * bool :=
  match select_existing (CHAIN c) fileUrl (ledger w) with
  | _ :: _ => (w, false)
  | [] =>
      let w1 := log_fetch fileUrl w in
      match fetch fileUrl with
      | FetchFailed msg =>
          (record_failure c fileUrl None None None msg w1, false)
      | Fetched res =>
          if negb (res_ok res) then
            (record_failure c fileUrl None None None
               (js "Download HTTP " ++ nat_to_string (res_status res)) w1,
             false)
          else
            let gzSha := sha256_hex (res_body res) in
            let filename := filename_of c res in
            let storeId :=
              orElse (extractStoreIdFromFilename c filename)
                (orElse (extractStoreIdFromFilename c (res_url res))
                        (extractStoreIdFromFilename c fileUrl)) in
            match nonEmpty storeId with
            | None =>
                (fst (insert_row
                        (row_of c fileUrl None None (Some gzSha) skipped
                           (Some (js "no storeId in filename: " ++ filename)))
                        w1), false)
            | Some sid =>
                let storagePath :=
                  CHAIN c ++ slash ++ today ++ slash ++ sid ++ slash
                  ++ filename in
                match upload false storagePath (res_body res) w1 with
                | (w2, Some e) =>
                    (record_failure c fileUrl (Some sid) (Some storagePath)
                       (Some gzSha) e w2, false)
                | (w2, None) =>
                    match insert_row
                            (row_of c fileUrl (Some sid) (Some storagePath)
                               (Some gzSha) downloaded None) w2 with
                    | (w3, Some e) =>
                        (record_failure c fileUrl (Some sid)
                           (Some storagePath) (Some gzSha) e w3, false)
                    | (w3, None) => (w3, true)
                    end
                end
            end
      end
  end.

(** The loop over the links of one listing.  The flag tells whether the
    cap on the downloads ended it. *)
Fixpoint attempt_all (c : Chain) (maxDownloads : nat) (links : list jsstring)
         (w : World) (count : nat) : World * nat * bool :=
  match links with
  | [] => (w, count, false)
  | fileUrl :: links' =>
      if maxDownloads <=? count then (w, count, true)
      else
        let (w', ok) := attempt c fileUrl w in
        attempt_all c maxDownloads links' w' (if ok then S count else count)
  end.

(** [runYohananofCollector] of the collector that downloads with [fetch]:
    [links] are the seed URLs, or else what the home page lists. *)
Definition runYohananofCollector (maxDownloads : option nat)
           (links : list jsstring) (w : World) : World * nat :=
  let cap := match maxDownloads with Some n => n | None => 50 end in
  match links with
  | [] => (w, 0)
  | _ :: _ =>
      let links' := filter (test true re_price_full_gz) links in
      fst (attempt_all yohananof cap links' w 0)
  end.

(** [fetchPageHtml] followed by [extractPriceGzLinks]; [None] when the
    listing cannot be fetched. *)
Variable page_links : nat -> option (list jsstring).

(** The loop over the pages; it is aborted when [fetchPageHtml] throws. *)
Fixpoint run_pages (pages : nat) (page : nat) (maxDownloads : nat)
         (w : World) (count : nat) : Run :=
  match pages with
  | O => Finished w count
  | S pages' =>
      match page_links page with
      | None => Aborted w
      | Some [] => Finished w count
      | Some links =>
          match attempt_all shufersal maxDownloads links w count with
          | (w', count', true) => Finished w' count'
          | (w', count', false) =>
              run_pages pages' (S page) maxDownloads w' count'
          end
      end
  end.

Definition runShufersalCollector (maxPages maxDownloads : option nat)
           (w : World) : Run :=
  run_pages (match maxPages with Some n => n | None => 10 end) 1
            (match maxDownloads with Some n => n | None => 50 end) w 0.

(** ** The collector that downloads with [curl] *)

(** The file name, the store number and the date of a [PriceFull] URL;
    [None] when [URL] or the function throws. *)
Definition parsePriceFullFilenameFromUrl (url : jsstring)
  : option (jsstring * jsstring * jsstring) :=
  match url_basename url with
  | None => None
  | Some filename =>
      match match_start true re_price_full_name filename with
      | None => None
      | Some m =>
          match capture 2 m, capture 3 m with
          | Some storeId, Some stamp =>
              let yyyymmdd := slice 0 8 stamp in
              let date := slice 0 4 yyyymmdd ++ js "-" ++ slice 4 6 yyyymmdd
                          ++ js "-" ++ slice 6 8 yyyymmdd in
              Some (filename, storeId, date)
          | _, _ => None
          end
      end
  end.

Definition non_gzip_error : jsstring :=
  js "Download returned non-gzip content (likely HTML login/redirect)".

Definition curl_row (storeId url storagePath : jsstring)
           (sha : option jsstring) (st : Status) (err : option jsstring)
  : RawFileInsert :=
  {| chain := js "yohananof"; store_id := Some storeId; file_url := url;
     storage_path := Some storagePath; sha256 := sha;
     fetched_at := Some now; status := st; error := err |}.

(** The body of the loop of the curl collector.  A name that cannot be
    parsed and a failing curl throw, which ends the run. *)
Definition download_one (url : jsstring) (w : World) : Step :=
  match parsePriceFullFilenameFromUrl url with
  | None => Throw w
  | Some (filename, storeId, date) =>
      let w1 := log_fetch url w in
      match curl url with
      | None => Throw w1
      | Some fileBuf =>
          let storagePath :=
            js "yohananof" ++ slash ++ date ++ slash ++ storeId ++ slash
            ++ filename in
          if negb (isGzip fileBuf) then
            Next (upsertRawFile
                    (curl_row storeId url storagePath None failed
                       (Some non_gzip_error)) w1) false
          else
            let sha := sha256_hex fileBuf in
            match upload true storagePath fileBuf w1 with
            | (w2, Some e) =>
                Next (upsertRawFile
                        (curl_row storeId url storagePath (Some sha) failed
                           (Some (js "Storage upload failed: " ++ e))) w2)
                     false
            | (w2, None) =>
                Next (upsertRawFile
                        (curl_row storeId url storagePath (Some sha)
                           downloaded None) w2) true
            end
      end
  end.

Fixpoint download_all (urls : list jsstring) (w : World) (count : nat)
  : Run :=
  match urls with
  | [] => Finished w count
  | url :: urls' =>
      match download_one url w with
      | Throw w' => Aborted w'
      | Next w' ok => download_all urls' w' (if ok then S count else count)
      end
  end.

(** [runYohananofCollector] of the curl collector; [discovered] is what
    the browser session found. *)
Definition runYohananofCurlCollector (maxDownloads : option nat)
           (discovered : list jsstring) (w : World) : Run :=
  let urls :=
    firstn (match maxDownloads with Some n => n | None => 50 end) discovered in
  download_all urls w 0.

End Run.

End Collector.

(* ================================================================== *)
(** * Daily aggregation (aggregate_daily.ts) *)
(* ================================================================== *)

Module Aggregate.

(** The columns of [public.prices] that the statement reads.  Instants
    are seconds since the epoch, in the time zone of the session. *)
Record Price : Type := mkPrice {
  chain : jsstring;
  canonical_key : option jsstring;
  price : Q;
  price_update_time : option Z;
  fetched_at : Z
}.

(** A row of [public.product_stats_daily]. *)
Record Stats : Type := mkStats {
  day : Z;
  s_chain : jsstring;
  s_canonical_key : jsstring;
  avg_price : Q;
  sample_count : nat;
  min_price : Q;
  max_price : Q
}.

Definition key : Type := (Z * jsstring * jsstring)%type.

Definition key_eq_dec (a b : key) : {a = b} + {a <> b}.
Proof.
  repeat decide equality; try apply N.eq_dec.
Defined.

Definition key_eqb (a b : key) : bool :=
  if key_eq_dec a b then true else false.

(** [coalesce(price_update_time, fetched_at)] *)
Definition effective (p : Price) : Z :=
  match price_update_time p with Some t => t | None => fetched_at p end.

(** [(...)::date] *)
Definition day_of (t : Z) : Z := (t / 86400)%Z.

(** [interval '2 days'] *)
Definition two_days : Z := 172800%Z.

(** The [where] clause. *)
Definition in_scope (now : Z) (p : Price) : bool :=
  match canonical_key p with
  | Some _ => (now - two_days <=? effective p)%Z
  | None => false
  end.

(** The grouping columns 1, 2, 3 of a row in scope. *)
Definition key_of (p : Price) : key :=
  (day_of (effective p), chain p,
   match canonical_key p with Some k => k | None => [] end).

Definition members (k : key) (rows : list Price) : list Price :=
  filter (fun p => key_eqb k (key_of p)) rows.

Definition Qsum (l : list Q) : Q := fold_left Qplus l 0%Q.

Definition Qleast (l : list Q) : Q :=
  match l with
  | [] => 0%Q
  | x :: l' => fold_left (fun a b => if Qle_bool b a then b else a) l' x
  end.

Definition Qgreatest (l : list Q) : Q :=
  match l with
  | [] => 0%Q
  | x :: l' => fold_left (fun a b => if Qle_bool a b then b else a) l' x
  end.

(** [round(x, 2)] on [numeric]: to the nearest hundredth, ties away from
    zero. *)
Definition round2 (x : Q) : Q :=
  let h := (x * 100)%Q in
  let z := if Qle_bool 0 h then Qfloor (h + (1 # 2)) else (- Qfloor ((- h) + (1 # 2)))%Z in
  Qred (z # 100).

(** The aggregates of one group.  The average is taken exactly before
    it is rounded. *)
Definition stats_of (k : key) (ms : list Price) : Stats :=
  let ps := List.map price ms in
  {| day := fst (fst k);
     s_chain := snd (fst k);
     s_canonical_key := snd k;
     avg_price := round2 (Qsum ps / inject_Z (Z.of_nat (length ps)));
     sample_count := length ps;
     min_price := Qleast ps;
     max_price := Qgreatest ps |}.

(** The [select ... group by 1,2,3]. *)
Definition select_stats (now : Z) (tbl : list Price) : list Stats :=
  let rows := filter (in_scope now) tbl in
  List.map (fun k => stats_of k (members k rows))
           (nodup key_eq_dec (List.map key_of rows)).

Definition stats_key (s : Stats) : key := (day s, s_chain s, s_canonical_key s).

(** [insert ... on conflict (day, chain, canonical_key) do update set ...] *)
Fixpoint upsert_stats (s : Stats) (t : list Stats) : list Stats :=
  match t with
  | [] => [s]
  | x :: t' =>
      if key_eqb (stats_key s) (stats_key x) then s :: t'
      else x :: upsert_stats s t'
  end.

(** The statement [sql], run at [now] on the tables. *)
Definition aggregate_daily (now : Z) (tbl : list Price) (stats : list Stats)
  : list Stats :=
  fold_left (fun t s => upsert_stats s t) (select_stats now tbl) stats.

(** [main]: the statement is sent to the [execute_sql] procedure; when
    that reports an error the statement is only printed. *)
Definition main (rpc_error : option jsstring) (now : Z) (tbl : list Price)
           (stats : list Stats) : list Stats :=
  match rpc_error with
  | Some _ => stats
  | None => aggregate_daily now tbl stats
  end.

Definition find_stats (k : key) (t : list Stats) : option Stats :=
  find (fun s => key_eqb k (stats_key s)) t.

End Aggregate.

(* ================================================================== *)
(** * Sample inputs *)
(* ================================================================== *)

Module Sample.
Import Decoder.

(** Instances of the two platform conversions for the examples.  They
    agree with JavaScript on the natural numbers, which is all that the
    examples convert. *)
Definition number_of_digits (s : jsstring) : jsnum :=
  if truthy s && forallb is_digit s
  then NFin (inject_Z (Z.of_N (fold_left (fun a c => a * 10 + (c - 48))%N s 0%N)))
  else NNaN.

Definition digits_of_number (n : jsnum) : jsstring :=
  match n with
  | NFin q =>
      if ((Qden q =? 1)%positive && (0 <=? Qnum q)%Z)%bool
      then nat_to_string (Z.to_nat (Qnum q))
      else js "NaN"
  | NNaN => js "NaN"
  | NInf false => js "Infinity"
  | NInf true => js "-Infinity"
  end.

Definition file_url : jsstring :=
  js "https://url.publishedprices.co.il/file/d/PriceFull7290803800003-009-202601140501.gz".

Definition path : jsstring :=
  js "yohananof/2026-01-14/009/PriceFull7290803800003-009-202601140501.gz".

(** A ledger with one downloaded catalog file. *)
Definition ledger_row : RawFile :=
  {| rf_id := 7; rf_chain := js "yohananof"; rf_store_id := Some (js "009");
     rf_file_url := file_url; rf_storage_path := Some path;
     rf_sha256 := Some (js "9f2c"); rf_fetched_at := 1000%N;
     rf_status := downloaded; rf_error := None |}.

Definition db : DB :=
  {| raw_files := {| rows := [ledger_row]; next_id := 8 |}; prices := [] |}.

(** The first bytes of a gzip stream. *)
Definition gz_bytes : list N := [31; 139; 8; 0]%N.

(** The first bytes of an HTML login page. *)
Definition html_bytes : list N := js "<!DOCTYPE html>".


Definition download_gz (_ : jsstring) : jsstring + list N := inr gz_bytes.

Definition download_html (_ : jsstring) : jsstring + list N := inr html_bytes.


Definition item (name price code weighted : option xval) : Item :=
  {| ItemName := name; ItemPrice := price; ItemCode := code;
     Quantity := None; UnitOfMeasure := None; PriceUpdateTime := None;
     LastSaleDateTime := None; bIsWeighted := weighted;
     QtyInPackage := None |}.

Definition milk : Item :=
  item (Some (XStr (js "Milk 3% 1 l"))) (Some (XNum (NFin (59 # 10))))
       (Some (XStr (js "7290000000017"))) (Some (XNum (NFin 1))).

(** Only a quantity for a name: the canonical form is empty. *)
Definition half_kilo : Item :=
  item (Some (XStr (js "500 g"))) (Some (XNum (NFin 12)))
       (Some (XStr (js "7290000000024"))) None.

Definition no_price : Item :=
  item (Some (XStr (js "Bread"))) None (Some (XStr (js "7290000000031"))) None.

Definition no_name : Item :=
  item None (Some (XNum (NFin 5))) (Some (XStr (js "7290000000048"))) None.

Definition no_code : Item :=
  item (Some (XStr (js "Salt"))) (Some (XNum (NFin 3))) None None.

Definition root (items : ItemList) : Root :=
  {| ChainID := None; ChainId := Some (XStr (js "7290803800003"));
     SubChainID := None; SubChainId := Some (XStr (js "1"));
     StoreID := None; StoreId := Some (XStr (js "9"));
     BikoretNo := None; Items := items |}.

Definition doc_of (items : ItemList) : Doc :=
  {| doc_root := RObject (root items); doc_Root := RUndefined |}.

(** The row that the query of [main] returns for the sample ledger. *)
Definition file : FileRow :=
  {| f_id := 7; f_storage_path := Some path; f_store_id := Some (js "009") |}.

Definition parse_to (items : ItemList) (_ : list N) : option Doc :=
  Some (doc_of items).

Definition upsert_ok (_ : list PriceRow) : option jsstring := None.

Definition upsert_timeout (_ : list PriceRow) : option jsstring :=
  Some (js "canceling statement due to statement timeout").

(** [main] on the sample ledger, for a catalog with the given items. *)
Definition run (items : ItemList)
           (upsert_error : list PriceRow -> option jsstring) : DB :=
  db_of (main number_of_digits digits_of_number download_gz (parse_to items)
              upsert_error db).

End Sample.

(** Sample networks and ledgers for the collectors. *)
Module SampleNet.
Import Collector.

Definition sha (_ : list N) : jsstring := js "9f2c".
Definition today : jsstring := js "2026-01-14".
Definition now_ms : N := 1768366860000%N.
Definition no_fault (_ : jsstring) : option jsstring := None.

(** The last segment of the URL, which is the base name of its path for
    the sample URLs (they have no query). *)
Definition basename (u : jsstring) : option jsstring :=
  Some (last_segment [] u).

Definition shufersal_url : jsstring :=
  js "https://pricesprodpublic.blob.core.windows.net/pricefull/PriceFull7290027600007-001-202601140300.gz".

Definition response (body : list N) : Response :=
  {| res_ok := true; res_status := 200; res_body := body;
     res_content_disposition := None; res_url := shufersal_url;
     res_pathname := js "/pricefull/PriceFull7290027600007-001-202601140300.gz" |}.


Definition fetch_gz (_ : jsstring) : FetchResult :=
  Fetched (response Sample.gz_bytes).

Definition curl_gz (_ : jsstring) : option (list N) := Some Sample.gz_bytes.


(** One page of listing with the one link. *)
Definition one_page (page : nat) : option (list jsstring) :=
  if Nat.eqb page 1 then Some [shufersal_url] else Some [].

Definition empty : World :=
  {| ledger := {| rows := []; next_id := 1 |}; bucket := []; fetch_log := [] |}.

(** A ledger in which an earlier attempt for the URL was recorded as
    failed. *)
Definition failed_before (c u msg : jsstring) : World :=
  {| ledger :=
       {| rows := [ {| rf_id := 1; rf_chain := c; rf_store_id := None;
                       rf_file_url := u; rf_storage_path := None;
                       rf_sha256 := None; rf_fetched_at := 1000%N;
                       rf_status := failed; rf_error := Some msg |} ];
          next_id := 2 |};
     bucket := []; fetch_log := [] |}.

Definition shufersal_failed : World :=
  failed_before (js "shufersal") shufersal_url (js "Download HTTP 503").

Definition yohananof_failed : World :=
  failed_before (js "yohananof") Sample.file_url non_gzip_error.

(** The status recorded for a key. *)
Definition status_of (c u : jsstring) (w : World) : option Status :=
  option_map rf_status (find_key c u (ledger w)).

End SampleNet.

(** A price table for the aggregation: three prices of one product on one
    day, a row without canonical key, and a row older than the window. *)
Module SamplePrices.
Import Aggregate.

Definition now : Z := 1768400000%Z.

Definition milk_key : key := (20467%Z, js "yohananof", js "Milk").

Definition row (k : option jsstring) (p : Q) (t : Z) : Price :=
  {| chain := js "yohananof"; canonical_key := k; price := p;
     price_update_time := None; fetched_at := t |}.

Definition table : list Price :=
  [ row (Some (js "Milk")) 10 1768390000%Z;
    row None 99 1768390000%Z;
    row (Some (js "Milk")) 12 1768391000%Z;
    row (Some (js "Milk")) 50 1768000000%Z;
    row (Some (js "Milk")) 11 1768392000%Z ].

End SamplePrices.

(* ================================================================== *)
(** * Predicates used in the statements *)
(* ================================================================== *)

Definition all_in (p : N -> bool) (d : jsstring) : Prop :=
  Forall (fun c => p c = true) d.

Definition within (lo : nat) (hi : option nat) (n : nat) : Prop :=
  lo <= n /\ forall h, hi = Some h -> n <= h.

(** Every group of [r] wraps a class repetition whose runs satisfy [Q]. *)
Fixpoint groups_ok (Q : nat -> jsstring -> Prop) (r : regex) : Prop :=
  match r with
  | RCat a b | RAlt a b => groups_ok Q a /\ groups_ok Q b
  | ROpt a => groups_ok Q a
  | RGroup i (RRep p lo hi) =>
      forall d, all_in p d -> within lo hi (length d) -> Q i d
  | RGroup _ _ => False
  | _ => True
  end.

Definition caps_ok (Q : nat -> jsstring -> Prop) (c : captures) : Prop :=
  Forall (fun e => Q (fst e) (snd e)) c.

(** Group [i] lies on every path through [r]. *)
Fixpoint must_capture (i : nat) (r : regex) : bool :=
  match r with
  | RCat a b => must_capture i a || must_capture i b
  | RAlt a b => must_capture i a && must_capture i b
  | RGroup j a => Nat.eqb i j || must_capture i a
  | _ => false
  end.

(** The least number of code units that a match of [r] consumes. *)
Fixpoint min_len (r : regex) : nat :=
  match r with
  | REps | REnd | ROpt _ => 0
  | RChar _ | RClass _ => 1
  | RCat a b => min_len a + min_len b
  | RAlt a b => Nat.min (min_len a) (min_len b)
  | RRep _ lo _ => lo
  | RGroup _ a => min_len a
  end.

(** [s] matches one of the grammars [gs] somewhere. *)
Definition matches_grammar (gs : list regex) (s : jsstring) : Prop :=
  exists g, In g gs /\ search true g s <> None.

(** The store digits captured by the first grammar of [gs] that matches. *)
Inductive store_digits : list regex -> jsstring -> jsstring -> Prop :=
| sd_here g gs s c d :
    search true g s = Some c -> capture 1 c = Some d ->
    store_digits (g :: gs) s d
| sd_next g gs s d :
    search true g s = None -> store_digits gs s d ->
    store_digits (g :: gs) s d.

(** What store-id resolution promises for a list of grammars [gs]
    resolved by [extract]: on a match the captured digits [d] (one to
    four of them) padded on the left with zeros to width 3; otherwise no
    match. *)
Definition store_id_spec (gs : list regex)
           (extract : jsstring -> option jsstring) (s : jsstring) : Prop :=
  (matches_grammar gs s ->
   exists d, store_digits gs s d
             /\ 1 <= length d <= 4 /\ all_in is_digit d
             /\ extract s = Some (padStart 3 (js "0") d)
             /\ length (padStart 3 (js "0") d) = Nat.max 3 (length d)
             /\ all_in is_digit (padStart 3 (js "0") d))
  /\ (~ matches_grammar gs s -> extract s = None).

(** The property of the store group [([0-9]{1,4})]. *)
Definition store_capture (i : nat) (d : jsstring) : Prop :=
  i = 1 -> all_in is_digit d /\ 1 <= length d <= 4.

Definition grammar_ok (g : regex) : Prop :=
  groups_ok store_capture g /\ must_capture 1 g = true.

Definition no_digit (s : jsstring) : Prop :=
  Forall (fun c => is_digit c = false) s.

Definition no_bracket (s : jsstring) : Prop :=
  Forall (fun c => is_bracket c = false) s.

(** Whitespace occurs only as single U+0020 characters. *)
Fixpoint collapsed (s : jsstring) : Prop :=
  match s with
  | [] => True
  | c :: s' =>
      (is_space c = true ->
       c = 32%N /\ match s' with [] => True | d :: _ => is_space d = false end)
      /\ collapsed s'
  end.

(** The string does not start with whitespace. *)
Definition starts_clean (s : jsstring) : Prop :=
  match s with [] => True | c :: _ => is_space c = false end.

(** ** Decoder *)

Section DecoderPredicates.
Import Decoder.
Variable StringToNumber : jsstring -> jsnum.
Variable NumberToString : jsnum -> jsstring.
Variable storage_download : jsstring -> jsstring + list N.
Variable ungzip_parse : list N -> option Doc.

(** Row-level filtering rejects the item: the name is missing or blank,
    the price is not a finite number, or the item code is missing or
    empty. *)
Definition rejected (it : Item) : Prop :=
  truthy (cleanName NumberToString it) = false
  \/ isFinite (Number_of StringToNumber (ItemPrice it)) = false
  \/ nonEmpty (option_map (String_of NumberToString) (ItemCode it)) = None.

(** The file [f] is fetched from storage as the bytes [buf]. *)
Definition stored_as (f : FileRow) (buf : list N) : Prop :=
  exists path,
    nonEmpty (f_storage_path f) = Some path
    /\ storage_download path = inr buf.

(** The file [f] passes every check before the item list: it is fetched
    from storage, is gzip, parses into a document with the root [root],
    and a store id is resolved. *)
Definition reaches_items (f : FileRow) (root : Root) : Prop :=
  exists buf doc sid,
    stored_as f buf
    /\ isGzip buf = true
    /\ ungzip_parse buf = Some doc
    /\ root_of doc = Some root
    /\ nonEmpty (storeIdNorm_of NumberToString root f) = Some sid.

End DecoderPredicates.

(** ** Ledger and collectors *)

(** The ledger holds a record with the key (c, u). *)
Definition has_record (c u : jsstring) (t : Table) : Prop :=
  existsb (same_key c u) (rows t) = true.

(** No two records share a key. *)
Definition unique_keys (t : Table) : Prop :=
  forall c u, key_count c u t <= 1.


(** How often the URL [u] was downloaded. *)
Definition fetches (u : jsstring) (w : Collector.World) : nat :=
  count_occ (list_eq_dec N.eq_dec) (Collector.fetch_log w) u.

(** From [w] to [w'] the URL [u] was not downloaded and the records of
    the key (c, u) did not change. *)
Definition untouched (c u : jsstring) (w w' : Collector.World) : Prop :=
  filter (same_key c u) (rows (Collector.ledger w'))
  = filter (same_key c u) (rows (Collector.ledger w))
  /\ fetches u w' = fetches u w.

(** The table after the plain inserts of [rs], in order. *)
Definition inserts (now : N) (rs : list RawFileInsert) (t : Table) : Table :=
  fold_left (fun acc r => fst (insert now r acc)) rs t.

(** The rows [rs] are all for the key (c, u). *)
Definition rows_for (c u : jsstring) (rs : list RawFileInsert) : Prop :=
  Forall (fun r => Ledger.chain r = c /\ Ledger.file_url r = u) rs.

(* ================================================================== *)
(** * Further predicates *)
(* ================================================================== *)

(** The string is empty or starts outside the class [p]. *)
Definition starts_out (p : N -> bool) (s : jsstring) : Prop :=
  match s with [] => True | c :: _ => p c = false end.

(** A string of decimal digits. *)
Definition digits (d : jsstring) : Prop := all_in is_digit d.

(** How often the code unit [x] occurs. *)
Definition occurrences (x : N) (s : jsstring) : nat :=
  length (filter (N.eqb x) s).

(** The least number of literal [x] in a match of [r]. *)
Fixpoint min_occurrences (x : N) (r : regex) : nat :=
  match r with
  | RChar c => if N.eqb x c then 1 else 0
  | RCat a b => min_occurrences x a + min_occurrences x b
  | RAlt a b => Nat.min (min_occurrences x a) (min_occurrences x b)
  | RGroup _ a => min_occurrences x a
  | _ => 0
  end.

(** File names of the published forms: a prefix, then runs of digits
    separated by dashes, then [.gz]. *)
Definition name2 (prefix a b c : jsstring) : jsstring :=
  prefix ++ a ++ js "-" ++ b ++ js "-" ++ c ++ js ".gz".

Definition name3 (prefix a b c d : jsstring) : jsstring :=
  prefix ++ a ++ js "-" ++ b ++ js "-" ++ c ++ js "-" ++ d ++ js ".gz".

Definition name4 (prefix a b c d e : jsstring) : jsstring :=
  prefix ++ a ++ js "-" ++ b ++ js "-" ++ c ++ js "-" ++ d ++ js "-" ++ e
  ++ js ".gz".

(** A non-empty run of digits, and a store number of one to four digits. *)
Definition number (d : jsstring) : Prop := digits d /\ 1 <= length d.

Definition store_number (d : jsstring) : Prop :=
  digits d /\ 1 <= length d <= 4.

Definition stamp (n : nat) (d : jsstring) : Prop :=
  digits d /\ length d = n.

(** The date [yyyy-mm-dd] that starts a stamp [yyyymmddHHMM]. *)
Definition stamp_date (st : jsstring) : jsstring :=
  firstn 4 st ++ js "-" ++ firstn 2 (skipn 4 st) ++ js "-"
  ++ firstn 2 (skipn 6 st).

(** What the groups of [re_price_full_name] capture. *)
Definition name_capture (i : nat) (d : jsstring) : Prop :=
  number d /\ (i = 3 -> stamp 12 d).

(** The string does not end with whitespace. *)
Definition ends_clean (s : jsstring) : Prop := starts_clean (rev s).

(** An item code that has the shape of a barcode. *)
Definition barcode_shaped (s : jsstring) : Prop :=
  digits s /\ 8 <= length s <= 14.

(** ** Decoder *)

(** From [t] to [t'] no ledger row was added or removed, the key, the
    storage path, the hash and the time of every row are as they were,
    a status that changed became [failed] or [parsed], and the rows whose
    id is outside [P] did not change at all. *)
Definition marks_within (P : nat -> Prop) (t t' : Table) : Prop :=
  next_id t' = next_id t
  /\ Forall2 (fun r r' =>
                rf_id r' = rf_id r /\ rf_chain r' = rf_chain r
                /\ rf_file_url r' = rf_file_url r
                /\ rf_storage_path r' = rf_storage_path r
                /\ rf_sha256 r' = rf_sha256 r
                /\ rf_fetched_at r' = rf_fetched_at r
                /\ (rf_status r' = rf_status r \/ rf_status r' = failed
                    \/ rf_status r' = parsed)
                /\ (~ P (rf_id r) -> r' = r))
             (rows t) (rows t').

(** No row with the id [i] waits to be decoded. *)
Definition settled (i : nat) (t : Table) : Prop :=
  forall r, In r (rows t) -> rf_id r = i -> rf_status r <> downloaded.

(** The price rows that belong to other files than [fid]. *)
Definition rows_of_others (fid : nat) (t : list Decoder.PriceRow)
  : list Decoder.PriceRow :=
  filter (fun r => negb (Nat.eqb (Decoder.raw_file_id r) fid)) t.

(** The row has the key (fid, code) of the [prices] table. *)
Definition has_price_key (fid : nat) (code : option jsstring)
           (r : Decoder.PriceRow) : bool :=
  Nat.eqb (Decoder.raw_file_id r) fid
  && Decoder.opt_str_eqb (Decoder.item_code r) code.

Definition find_price (fid : nat) (code : option jsstring)
           (t : list Decoder.PriceRow) : option Decoder.PriceRow :=
  find (has_price_key fid code) t.

(** No two price rows share the key (raw_file_id, item_code). *)
Definition unique_price_keys (t : list Decoder.PriceRow) : Prop :=
  forall fid code, length (filter (has_price_key fid code) t) <= 1.

(** The last row of a chunk that has the key. *)
Definition last_with_key (fid : nat) (code : option jsstring)
           (chunk : list Decoder.PriceRow) : option Decoder.PriceRow :=
  find (has_price_key fid code) (rev chunk).

(** The price row is one of the file [fid], written by the decoder. *)
Definition own (fid : nat) (r : Decoder.PriceRow) : Prop :=
  Decoder.raw_file_id r = fid /\ Decoder.chain r = Decoder.CHAIN.

(** What one iteration of the decoder for the file [fid] may do to the
    two tables. *)
Definition writes (fid : nat) (db db' : Decoder.DB) : Prop :=
  marks_within (eq fid) (Decoder.raw_files db) (Decoder.raw_files db')
  /\ rows_of_others fid (Decoder.prices db')
     = rows_of_others fid (Decoder.prices db)
  /\ (unique_price_keys (Decoder.prices db)
      -> unique_price_keys (Decoder.prices db'))
  /\ (forall r, In r (Decoder.prices db')
                -> In r (Decoder.prices db) \/ own fid r).

(** ** Collectors *)

(** The bytes stored under the path [p]. *)
Definition stored_bytes (p : jsstring) (b : list (jsstring * list N))
  : option (list N) :=
  option_map snd (find (fun e => str_eqb (fst e) p) b).

Definition is_downloaded (r : RawFile) : bool :=
  status_eqb (rf_status r) downloaded.

(** The number of records with the status downloaded. *)
Definition downloads (t : Table) : nat :=
  length (filter is_downloaded (rows t)).

(** The record, if its status is downloaded, names a stored object, and
    its hash is the hash of the bytes stored there. *)
Definition hashed_in (sha256_hex : list N -> jsstring)
           (b : list (jsstring * list N)) (r : RawFile) : Prop :=
  rf_status r = downloaded ->
  exists p bytes,
    rf_storage_path r = Some p /\ stored_bytes p b = Some bytes
    /\ rf_sha256 r = Some (sha256_hex bytes).

Definition hashed (sha256_hex : list N -> jsstring) (w : Collector.World)
  : Prop :=
  Forall (hashed_in sha256_hex (Collector.bucket w))
         (rows (Collector.ledger w)).

(** Every record with the status downloaded names a stored object. *)
Definition backed (w : Collector.World) : Prop :=
  Forall (fun r => rf_status r = downloaded ->
                   exists p, rf_storage_path r = Some p
                             /\ Collector.stored p (Collector.bucket w) = true)
         (rows (Collector.ledger w)).

(** What is stored in [b] is stored in [b'] with the same bytes. *)
Definition keeps_objects (b b' : list (jsstring * list N)) : Prop :=
  forall p bytes, stored_bytes p b = Some bytes ->
                  stored_bytes p b' = Some bytes.

(** From [w] to [w'] the ledger only grew, by records of the chain [c]
    of which [k] have the status downloaded, each with its object and
    hash, and no stored object changed. *)
Definition extends (sha256_hex : list N -> jsstring) (c : jsstring) (k : nat)
           (w w' : Collector.World) : Prop :=
  (exists extra,
      rows (Collector.ledger w') = rows (Collector.ledger w) ++ extra
      /\ Forall (fun r => rf_chain r = c) extra
      /\ length (filter is_downloaded extra) = k
      /\ Forall (hashed_in sha256_hex (Collector.bucket w')) extra)
  /\ keeps_objects (Collector.bucket w) (Collector.bucket w').

(** The cap on the downloads of a run. *)
Definition cap_of (maxDownloads : option nat) : nat :=
  match maxDownloads with Some n => n | None => 50 end.

(** The decoder's query over a ledger. *)
Definition decoder_selects (t : Table) : list Decoder.FileRow :=
  Decoder.select_files {| Decoder.raw_files := t; Decoder.prices := [] |}.

(** The chunks that the batch loop of the decoder sends, in order. *)
Definition chunks (rows : list Decoder.PriceRow)
  : list (list Decoder.PriceRow) :=
  List.map (fun i => firstn Decoder.BATCH (skipn i rows))
           (Decoder.batch_starts (length rows)).

(** The upsert of one chunk: refused as a whole when it fails. *)
Definition upsert_chunk (upsert_error : list Decoder.PriceRow -> option jsstring)
           (t chunk : list Decoder.PriceRow) : list Decoder.PriceRow :=
  match upsert_error chunk with
  | None => Decoder.upsert_prices chunk t
  | Some _ => t
  end.

(** ** Sample data *)

Module SampleRun.
Import Decoder.

(** A file that the Shufersal collector recorded. *)
Definition shufersal_row : RawFile :=
  {| rf_id := 8; rf_chain := js "shufersal"; rf_store_id := Some (js "001");
     rf_file_url := SampleNet.shufersal_url;
     rf_storage_path :=
       Some (js "shufersal/2026-01-14/001/PriceFull7290027600007-001-202601140300.gz");
     rf_sha256 := Some (js "9f2c"); rf_fetched_at := 2000%N;
     rf_status := downloaded; rf_error := None |}.

(** A ledger with one file of each of the two chains. *)
Definition db : DB :=
  {| raw_files := {| rows := [Sample.ledger_row; shufersal_row];
                     next_id := 9 |};
     prices := [] |}.

Definition catalog : ItemList := ItemArray [Sample.milk; Sample.half_kilo].

(** The decoder on that ledger, for a catalog of two items. *)
Definition decoded : Outcome :=
  main Sample.number_of_digits Sample.digits_of_number Sample.download_gz
       (Sample.parse_to catalog) Sample.upsert_ok db.

(** The rows of that catalog. *)
Definition rows_of_catalog : list PriceRow :=
  collect_rows Sample.number_of_digits Sample.digits_of_number 7
               (Some (js "1")) (Some (js "009")) None
               [Sample.milk; Sample.half_kilo].

(** A key that no price row of the sample has. *)
Definition other_key : Aggregate.key := (20467%Z, js "shufersal", js "Milk").

(** A run of the Shufersal collector over one page of listing. *)
Definition shufersal_run : Collector.Run :=
  Collector.runShufersalCollector SampleNet.fetch_gz SampleNet.no_fault
    SampleNet.sha SampleNet.today SampleNet.now_ms 2000%N SampleNet.one_page
    (Some 3) (Some 5) SampleNet.empty.

(** A run of the curl collector over one discovered URL. *)
Definition curl_run : Collector.Run :=
  Collector.runYohananofCurlCollector SampleNet.curl_gz SampleNet.no_fault
    SampleNet.sha 2000%N SampleNet.basename (Some 5) [Sample.file_url]
    SampleNet.empty.

End SampleRun.



(* ================================================================== *)
(** * Strings *)
(* ================================================================== *)

Lemma str_eqb_eq (a b : jsstring) : str_eqb a b = true <-> a = b.
Proof.
  unfold str_eqb. destruct (list_eq_dec N.eq_dec a b); split; congruence.
Qed.

Lemma str_eqb_refl (a : jsstring) : str_eqb a a = true.
Proof. now apply str_eqb_eq. Qed.

Lemma str_eqb_neq (a b : jsstring) : str_eqb a b = false <-> a <> b.
Proof.
  unfold str_eqb. destruct (list_eq_dec N.eq_dec a b); split; congruence.
Qed.

Lemma in_firstn (A : Type) (x : A) (n : nat) (l : list A) :
  In x (firstn n l) -> In x l.
Proof.
  intros H. rewrite <- (firstn_skipn n l). apply in_or_app. now left.
Qed.

Lemma padStart_zero_length (n : nat) (d : jsstring) :
  length (padStart n (js "0") d) = Nat.max n (length d).
Proof.
  unfold padStart. change (js "0") with [48%N]. cbv beta iota zeta.
  unfold jsstring in *. rewrite length_app, length_firstn.
  assert (H : length (concat (repeat [48%N] (n - length d))) = n - length d).
  { induction (n - length d); simpl; auto. }
  rewrite H. lia.
Qed.

Lemma padStart_zero_digits (n : nat) (d : jsstring) :
  all_in is_digit d -> all_in is_digit (padStart n (js "0") d).
Proof.
  intros Hd. unfold padStart, all_in. change (js "0") with [48%N].
  cbv beta iota zeta.
  apply Forall_app. split; auto.
  apply Forall_forall. intros x Hx. apply in_firstn in Hx.
  apply in_concat in Hx. destruct Hx as (l & Hl & Hx).
  apply repeat_spec in Hl. subst l. destruct Hx as [<-|[]]. reflexivity.
Qed.

(* ================================================================== *)
(** * Properties of the matcher *)
(* ================================================================== *)

Section MatcherFacts.
Variable icase : bool.
Variable A : Type.

(** A successful repetition consumed a run of the class, of an
    admissible length, before handing over to the continuation. *)
Lemma rep_sound (p : N -> bool) (s : jsstring) :
  forall lo hi (k : jsstring -> option A) a,
    rep p lo hi s k = Some a ->
    exists d s1, s = d ++ s1 /\ all_in p d /\ within lo hi (length d)
                 /\ k s1 = Some a.
Proof.
  induction s as [|c s IH]; intros lo hi k a H; simpl in H.
  - destruct lo; [|discriminate].
    exists [], []. repeat split; auto; try constructor; simpl; lia.
  - assert (Hstop : match lo with O => k (c :: s) | S _ => None end = Some a ->
                    exists d s1, c :: s = d ++ s1 /\ all_in p d
                                 /\ within lo hi (length d) /\ k s1 = Some a).
    { destruct lo; [|discriminate]. intros Hk.
      exists [], (c :: s). repeat split; auto; try constructor; simpl; lia. }
    destruct (p c) eqn:Hp; simpl in H; [|auto].
    destruct (hi_open hi) eqn:Hh; [|auto].
    destruct (rep p (pred lo) (option_map pred hi) s k) eqn:Hr; [|auto].
    inversion H; subst a0; clear H.
    destruct (IH _ _ _ _ Hr) as (d & s1 & -> & Hd & [Hlo Hhi] & Hk).
    exists (c :: d), s1. repeat split; auto.
    + constructor; auto.
    + simpl. lia.
    + intros h ->. simpl in *. destruct h; [discriminate|].
      specialize (Hhi h eq_refl). lia.
Qed.

(** The matcher only extends the captures, and calls the continuation
    on a suffix of its input after it consumed at least [min_len r] code
    units. *)
Lemma rmatch_consumes (r : regex) :
  forall s cs (k : jsstring -> captures -> option A) a,
    rmatch icase r s cs k = Some a ->
    exists m s' e, s = m ++ s' /\ min_len r <= length m
                   /\ k s' (e ++ cs) = Some a.
Proof.
  induction r; intros s cs k a H; simpl in H.
  - exists [], s, []. simpl. auto.
  - destruct s as [|y s]; [discriminate|].
    destruct (char_eq icase c y); [|discriminate].
    exists [y], s, []. simpl. auto.
  - destruct s as [|y s]; [discriminate|].
    destruct (p y); [|discriminate].
    exists [y], s, []. simpl. auto.
  - apply IHr1 in H. destruct H as (m1 & s1 & e1 & -> & L1 & H).
    apply IHr2 in H. destruct H as (m2 & s2 & e2 & -> & L2 & H).
    exists (m1 ++ m2), s2, (e2 ++ e1). rewrite <- !app_assoc.
    rewrite length_app. simpl. repeat split; auto. lia.
  - destruct (rmatch icase r1 s cs k) eqn:H1.
    + inversion H; subst. apply IHr1 in H1.
      destruct H1 as (m & s' & e & -> & L & H1).
      exists m, s', e. simpl. repeat split; auto. lia.
    + apply IHr2 in H. destruct H as (m & s' & e & -> & L & H).
      exists m, s', e. simpl. repeat split; auto. lia.
  - destruct (rmatch icase r s cs k) eqn:H1.
    + inversion H; subst. apply IHr in H1.
      destruct H1 as (m & s' & e & -> & L & H1).
      exists m, s', e. simpl. repeat split; auto. lia.
    + exists [], s, []. simpl. auto.
  - apply rep_sound in H. destruct H as (d & s1 & -> & _ & [L _] & H).
    exists d, s1, []. simpl. auto.
  - apply IHr in H. destruct H as (m & s' & e & -> & L & H).
    exists m, s', ((i, firstn (length (m ++ s') - length s') (m ++ s')) :: e).
    simpl. auto.
  - destruct s; [|discriminate]. exists [], [], []. simpl. auto.
Qed.

Lemma rmatch_frame (r : regex) :
  forall s cs (k : jsstring -> captures -> option A) a,
    rmatch icase r s cs k = Some a ->
    exists m s' e, s = m ++ s' /\ k s' (e ++ cs) = Some a.
Proof.
  intros s cs k a H. apply rmatch_consumes in H.
  destruct H as (m & s' & e & Hs & _ & H). eauto.
Qed.

Lemma rmatch_caps (Q : nat -> jsstring -> Prop) (r : regex) :
  forall s cs (k : jsstring -> captures -> option A) a,
    groups_ok Q r -> caps_ok Q cs ->
    rmatch icase r s cs k = Some a ->
    exists s' c', caps_ok Q c' /\ k s' c' = Some a.
Proof.
  induction r; intros s cs k a Hg Hc H; simpl in H.
  - eauto.
  - destruct s as [|y s]; [discriminate|].
    destruct (char_eq icase c y); [eauto|discriminate].
  - destruct s as [|y s]; [discriminate|].
    destruct (p y); [eauto|discriminate].
  - destruct Hg as [Hg1 Hg2].
    destruct (IHr1 _ _ _ _ Hg1 Hc H) as (s1 & c1 & Hc1 & H1).
    eapply IHr2; eauto.
  - destruct Hg as [Hg1 Hg2].
    destruct (rmatch icase r1 s cs k) eqn:H1.
    + inversion H; subst. eauto.
    + eauto.
  - destruct (rmatch icase r s cs k) eqn:H1.
    + inversion H; subst. eauto.
    + eauto.
  - apply rep_sound in H. destruct H as (d & s1 & _ & _ & _ & H). eauto.
  - destruct r; simpl in Hg; try contradiction.
    simpl in H. apply rep_sound in H.
    destruct H as (d & s1 & -> & Hd & Hw & H).
    exists s1. eexists. split; [|exact H].
    constructor; auto. simpl.
    rewrite length_app, Nat.add_sub, firstn_app, Nat.sub_diag, firstn_all.
    simpl. rewrite app_nil_r. apply Hg; auto.
  - destruct s; [eauto|discriminate].
Qed.

Lemma capture_app (i : nat) (e c : captures) :
  capture i c <> None -> capture i (e ++ c) <> None.
Proof.
  induction e as [|[j x] e IH]; simpl; auto.
  intros H. destruct (Nat.eqb i j); [discriminate|auto].
Qed.

Lemma rmatch_captures (i : nat) (r : regex) :
  forall s cs (k : jsstring -> captures -> option A) a,
    must_capture i r = true ->
    rmatch icase r s cs k = Some a ->
    exists s' c', capture i c' <> None /\ k s' c' = Some a.
Proof.
  induction r; intros s cs k a Hm H; simpl in Hm; try discriminate.
  - simpl in H. apply orb_true_iff in Hm. destruct Hm as [Hm|Hm].
    + destruct (IHr1 _ _ _ _ Hm H) as (s1 & c1 & Hc1 & H1).
      apply rmatch_frame in H1. destruct H1 as (m & s' & e & _ & H1).
      exists s', (e ++ c1). split; auto using capture_app.
    + apply rmatch_frame in H. destruct H as (m & s' & e & _ & H).
      eapply IHr2; eauto.
  - simpl in H. apply andb_true_iff in Hm. destruct Hm as [Hm1 Hm2].
    destruct (rmatch icase r1 s cs k) eqn:H1.
    + inversion H; subst. eauto.
    + eauto.
  - simpl in H. apply orb_true_iff in Hm. destruct Hm as [Hm|Hm].
    + apply rmatch_frame in H. destruct H as (m & s' & e & _ & H).
      eexists _, _. split; [|exact H]. simpl. rewrite Hm. discriminate.
    + destruct (IHr _ _ _ _ Hm H) as (s1 & c1 & Hc1 & H1).
      eexists _, _. split; [|exact H1]. simpl.
      destruct (Nat.eqb i i0); [discriminate|auto].
Qed.
End MatcherFacts.

Lemma capture_ok (Q : nat -> jsstring -> Prop) (i : nat) (c : captures) d :
  caps_ok Q c -> capture i c = Some d -> Q i d.
Proof.
  induction 1 as [|[j x] c Hx Hc IH]; simpl; [discriminate|].
  destruct (Nat.eqb i j) eqn:E; auto.
  apply Nat.eqb_eq in E. subst j. intros [= <-]. exact Hx.
Qed.

Lemma match_here_caps (Q : nat -> jsstring -> Prop) icase r s c rest :
  groups_ok Q r -> match_here icase r s = Some (c, rest) -> caps_ok Q c.
Proof.
  unfold match_here. intros Hg H.
  eapply rmatch_caps with (Q := Q) in H; [|exact Hg|constructor].
  destruct H as (s' & c' & Hc & [= <- _]). exact Hc.
Qed.

Lemma match_here_captures i icase r s c rest :
  must_capture i r = true -> match_here icase r s = Some (c, rest) ->
  capture i c <> None.
Proof.
  unfold match_here. intros Hm H.
  eapply rmatch_captures with (i := i) in H; [|exact Hm].
  destruct H as (s' & c' & Hc & [= <- _]). exact Hc.
Qed.

Lemma search_caps (Q : nat -> jsstring -> Prop) icase r s c :
  groups_ok Q r -> search icase r s = Some c -> caps_ok Q c.
Proof.
  intros Hg. induction s as [|x s IH]; simpl.
  - destruct (match_here icase r []) as [[c0 s0]|] eqn:H; [|discriminate].
    intros [= <-]. eapply match_here_caps; eauto.
  - destruct (match_here icase r (x :: s)) as [[c0 s0]|] eqn:H; [|exact IH].
    intros [= <-]. eapply match_here_caps; eauto.
Qed.

Lemma search_captures i icase r s c :
  must_capture i r = true -> search icase r s = Some c -> capture i c <> None.
Proof.
  intros Hm. induction s as [|x s IH]; simpl.
  - destruct (match_here icase r []) as [[c0 s0]|] eqn:H; [|discriminate].
    intros [= <-]. eapply match_here_captures; eauto.
  - destruct (match_here icase r (x :: s)) as [[c0 s0]|] eqn:H; [|exact IH].
    intros [= <-]. eapply match_here_captures; eauto.
Qed.

(* ================================================================== *)
(** * Sample evaluations *)
(* ================================================================== *)

Example yohananof_seed_009 :
  Yohananof.extractStoreIdFromFilename
    (js "PriceFull7290803800003-009-202601140501.gz") = Some (js "009").
Proof. vm_compute. reflexivity. Qed.

Example normalize_milk :
  normalizeCanonical (js "Milk 3% (1 l)") = js "Milk".
Proof. vm_compute. reflexivity. Qed.

Example normalize_bracketed_unit :
  normalizeCanonical (js "1(g)") = js "1g" /\ normalizeCanonical (js "1g") = [].
Proof. vm_compute. split; reflexivity. Qed.

Example normalize_hebrew_gram :
  normalizeCanonical ([1495; 1500; 1489; 32; 53; 48; 48; 32; 1490; 1512; 1501]%N)
  = [1495; 1500; 1489]%N.
Proof. vm_compute. reflexivity. Qed.

Example shufersal_long_name :
  Shufersal.extractStoreIdFromFilename
    (js "Price7290027600007-001-42-20260114-030000.gz") = Some (js "042").
Proof. vm_compute. reflexivity. Qed.

Example unknown_name :
  Shufersal.extractStoreIdFromFilename (js "Stores7290027600007-000-202601140300.xml")
  = None.
Proof. vm_compute. reflexivity. Qed.

Example half_kilo_has_no_key :
  List.map Decoder.canonical_key
    (Decoder.collect_rows Sample.number_of_digits Sample.digits_of_number 7
       None (Some (js "009")) None [Sample.half_kilo; Sample.milk])
  = [None; Some (js "Milk")].
Proof. vm_compute. reflexivity. Qed.

Example milk_is_weighted :
  List.map Decoder.is_weighted
    (Decoder.collect_rows Sample.number_of_digits Sample.digits_of_number 7
       None (Some (js "009")) None [Sample.half_kilo; Sample.milk])
  = [None; Some true].
Proof. vm_compute. reflexivity. Qed.

Example sample_catalog_is_parsed :
  List.length (Decoder.prices (Sample.run (Decoder.OneItem Sample.milk)
                                          Sample.upsert_ok)) = 1
  /\ outcome_of 7 (Decoder.raw_files
                     (Sample.run (Decoder.OneItem Sample.milk) Sample.upsert_ok))
     = Some (parsed, None).
Proof. vm_compute. split; reflexivity. Qed.

(* ================================================================== *)
(** * Filename grammar resolvers *)
(* ================================================================== *)

Ltac grammar_ok_tac :=
  split;
  [ cbn;
    repeat match goal with
           | |- _ /\ _ => split
           | |- True => exact I
           end;
    intros d Hd [Hlo Hhi] _; split; [exact Hd|];
    specialize (Hhi 4 eq_refl); lia
  | reflexivity ].

Lemma yohananof_grammars_ok : Forall grammar_ok Yohananof.grammars.
Proof. unfold Yohananof.grammars. repeat (apply Forall_cons; [grammar_ok_tac|]). apply Forall_nil. Qed.

Lemma shufersal_grammars_ok : Forall grammar_ok Shufersal.grammars.
Proof. unfold Shufersal.grammars. repeat (apply Forall_cons; [grammar_ok_tac|]). apply Forall_nil. Qed.

Lemma first_grammar_spec (gs : list regex) (s : jsstring) :
  Forall grammar_ok gs -> store_id_spec gs (first_grammar gs) s.
Proof.
  induction 1 as [|g gs [Hg Hm] Hgs IH].
  - split.
    + intros (g & [] & _).
    + reflexivity.
  - destruct (search true g s) as [c|] eqn:Hs.
    + split.
      * intros _. pose proof (search_captures _ _ _ _ Hm Hs) as Hc.
        destruct (capture 1 c) as [d|] eqn:Hd; [|congruence].
        pose proof (search_caps _ _ _ _ Hg Hs) as Hok.
        destruct (capture_ok _ Hok Hd eq_refl) as [Hdig Hlen].
        exists d. split; [eapply sd_here; eauto|].
        split; [exact Hlen|]. split; [exact Hdig|].
        split; [simpl; rewrite Hs; unfold pad_store; rewrite Hd; reflexivity|].
        split; [apply padStart_zero_length|].
        apply padStart_zero_digits, Hdig.
      * intros Hn. exfalso. apply Hn. exists g. split; [now left|congruence].
    + destruct IH as [IH1 IH2]. split.
      * intros (g' & [<-|Hin] & Hne); [congruence|].
        destruct IH1 as (d & Hsd & Hrest); [exists g'; auto|].
        exists d. split; [apply sd_next; auto|].
        simpl. rewrite Hs. exact Hrest.
      * intros Hn. simpl. rewrite Hs. apply IH2.
        intros (g' & Hin & Hne). apply Hn. exists g'. split; [now right|auto].
Qed.

(** C6 (as amended).  For both chains, a name or URL that matches one of
    the chain's grammars resolves to the store digits captured by the
    first matching grammar, left-padded with zeros to width 3: a string
    of decimal digits whose length is the larger of 3 and the number of
    captured digits (one to four).  A name that matches no grammar
    resolves to no store id. *)
Theorem store_id_resolution (s : jsstring) :
  store_id_spec Yohananof.grammars Yohananof.extractStoreIdFromFilename s
  /\ store_id_spec Shufersal.grammars Shufersal.extractStoreIdFromFilename s.
Proof.
  split.
  - apply first_grammar_spec, yohananof_grammars_ok.
  - apply first_grammar_spec, shufersal_grammars_ok.
Qed.

Lemma store_id_resolution_witness :
  exists d,
    store_digits Yohananof.grammars
      (js "PriceFull7290803800003-009-202601140501.gz") d
    /\ 1 <= length d <= 4 /\ all_in is_digit d
    /\ Yohananof.extractStoreIdFromFilename
         (js "PriceFull7290803800003-009-202601140501.gz")
       = Some (padStart 3 (js "0") d)
    /\ length (padStart 3 (js "0") d) = Nat.max 3 (length d)
    /\ all_in is_digit (padStart 3 (js "0") d).
Proof.
  apply (proj1 (proj1 (store_id_resolution
                         (js "PriceFull7290803800003-009-202601140501.gz")))).
  exists Yohananof.g_store. split.
  - right. left. reflexivity.
  - vm_compute. discriminate.
Defined.

(** C6 (as stated) fails: a four-digit store number matches the grammar
    and is returned with four digits, not three. *)
Lemma store_id_four_digits :
  matches_grammar Yohananof.grammars
    (js "PriceFull7290803800003-1234-202601140501.gz")
  /\ Yohananof.extractStoreIdFromFilename
       (js "PriceFull7290803800003-1234-202601140501.gz") = Some (js "1234")
  /\ length (js "1234") <> 3.
Proof.
  split; [|split].
  - exists Yohananof.g_store. split; [right; left; reflexivity|].
    vm_compute. discriminate.
  - vm_compute. reflexivity.
  - vm_compute. discriminate.
Qed.

(* ================================================================== *)
(** * Global replacement *)
(* ================================================================== *)

Section ReplaceFacts.
Variable icase : bool.
Variable r : regex.
Variable by_ : jsstring.

Lemma replace_from_skip (s : jsstring) :
  forall n, n <= length s ->
    replace_from icase r by_ n s = replace_from icase r by_ 0 (skipn n s).
Proof.
  induction s as [|c s IH]; intros n Hn.
  - simpl in Hn. assert (n = 0) by lia. subst n. reflexivity.
  - destruct n as [|n]; [reflexivity|].
    simpl in Hn. simpl. apply IH. lia.
Qed.

(** A non-empty match is replaced and the scan resumes after it. *)
Lemma replace_all_match (s rest : jsstring) (c : captures) :
  match_here icase r s = Some (c, rest) -> length rest < length s ->
  replace_all icase r by_ s = by_ ++ replace_all icase r by_ rest.
Proof.
  intros Hm Hlt. unfold replace_all.
  pose proof Hm as Hf. unfold match_here in Hf.
  apply rmatch_frame in Hf. destruct Hf as (m & s' & e & Hs & [= _ ->]).
  destruct s as [|x s]; [simpl in Hlt; lia|].
  cbn [replace_from]. rewrite Hm.
  destruct m as [|y m].
  - simpl in Hs. subst rest. lia.
  - simpl in Hs. injection Hs as <- ->.
    unfold jsstring in *.
    assert (E : length (x :: m ++ rest) - length rest = S (length m))
      by (cbn [length]; rewrite length_app; lia).
    rewrite E.
    rewrite replace_from_skip by (rewrite length_app; lia).
    now rewrite skipn_app, skipn_all, Nat.sub_diag.
Qed.

Lemma replace_all_nomatch (x : N) (s : jsstring) :
  match_here icase r (x :: s) = None ->
  replace_all icase r by_ (x :: s) = x :: replace_all icase r by_ s.
Proof. intros Hm. unfold replace_all. simpl. now rewrite Hm. Qed.

(** Where the pattern matches on no suffix, nothing is replaced. *)
Lemma replace_all_id (s : jsstring) :
  (forall m t, s = m ++ t -> match_here icase r t = None) ->
  replace_all icase r by_ s = s.
Proof.
  induction s as [|x s IH]; intros H.
  - unfold replace_all. simpl. now rewrite (H [] [] eq_refl).
  - rewrite replace_all_nomatch by (apply (H []); reflexivity).
    f_equal. apply IH. intros m t ->. apply (H (x :: m)). reflexivity.
Qed.

(** Every code unit of the result comes from the input or from the
    replacement. *)
Lemma replace_from_in (x : N) (s : jsstring) :
  forall n, In x (replace_from icase r by_ n s) -> In x by_ \/ In x s.
Proof.
  induction s as [|c s IH]; intros n H; cbn [replace_from] in H.
  - destruct n; [|contradiction].
    destruct (match_here icase r []); [auto|contradiction].
  - destruct n as [|n].
    + destruct (match_here icase r (c :: s)) as [[cs rest]|].
      * destruct (length (c :: s) - length rest).
        -- apply in_app_or in H. destruct H as [H|[<-|H]]; auto.
           ++ right. now left.
           ++ apply IH in H. destruct H; auto. right. now right.
        -- apply in_app_or in H. destruct H as [H|H]; auto.
           apply IH in H. destruct H; auto. right. now right.
      * destruct H as [<-|H]; [right; now left|].
        apply IH in H. destruct H; auto. right. now right.
    + apply IH in H. destruct H; auto. right. now right.
Qed.
(** A search fails exactly when the pattern matches on no suffix. *)
Lemma search_none (s : jsstring) :
  search icase r s = None <->
  (forall m t, s = m ++ t -> match_here icase r t = None).
Proof.
  induction s as [|x s IH]; simpl.
  - destruct (match_here icase r []) as [[c rest]|] eqn:E.
    + split; [discriminate|]. intros H. now rewrite (H [] [] eq_refl) in E.
    + split; [|reflexivity]. intros _ m t Hs.
      destruct m; [|discriminate]. simpl in Hs. now subst t.
  - destruct (match_here icase r (x :: s)) as [[c rest]|] eqn:E.
    + split; [discriminate|]. intros H.
      now rewrite (H [] (x :: s) eq_refl) in E.
    + rewrite IH. split.
      * intros H m t Hs. destruct m as [|y m].
        -- simpl in Hs. now subst t.
        -- injection Hs as _ Hs. eapply H; eauto.
      * intros H m t ->. apply (H (x :: m)). reflexivity.
Qed.

Lemma match_here_consumes (s rest : jsstring) (c : captures) :
  match_here icase r s = Some (c, rest) ->
  length rest + min_len r <= length s.
Proof.
  unfold match_here. intros H. apply rmatch_consumes in H.
  destruct H as (m & s' & e & -> & L & [= _ ->]).
  rewrite length_app. lia.
Qed.

(** When the replacement is no longer than any match, the result is no
    longer than the input. *)
Lemma replace_from_length (s : jsstring) :
  length by_ <= min_len r ->
  forall n, n <= length s ->
    length (replace_from icase r by_ n s) + n <= length s.
Proof.
  intros Hby. induction s as [|x s IH]; intros n Hn; cbn [replace_from].
  - simpl in Hn. assert (n = 0) by lia. subst n.
    destruct (match_here icase r []) as [[c rest]|] eqn:E; [|simpl; lia].
    apply match_here_consumes in E. simpl in *. lia.
  - destruct n as [|n].
    + destruct (match_here icase r (x :: s)) as [[c rest]|] eqn:E.
      * apply match_here_consumes in E. cbn [length] in *.
        destruct (S (length s) - length rest) as [|m] eqn:D.
        -- rewrite length_app. cbn [length].
           specialize (IH 0 (Nat.le_0_l _)). lia.
        -- rewrite length_app.
           assert (Hm : m <= length s) by lia.
           specialize (IH m Hm). lia.
      * cbn [length]. specialize (IH 0 (Nat.le_0_l _)). lia.
    + cbn [length] in *. specialize (IH n). lia.
Qed.

Lemma replace_all_length (s : jsstring) :
  length by_ <= min_len r ->
  length (replace_all icase r by_ s) <= length s.
Proof.
  intros H. pose proof (replace_from_length s H (Nat.le_0_l _)).
  unfold replace_all. lia.
Qed.

(** When every match is longer than the replacement, a string in which
    the pattern matches gets shorter. *)
Lemma replace_all_shorter (s : jsstring) :
  length by_ < min_len r ->
  search icase r s <> None ->
  length (replace_all icase r by_ s) < length s.
Proof.
  intros Hby. induction s as [|x s IH]; intros Hs; simpl in Hs.
  - destruct (match_here icase r []) as [[c rest]|] eqn:E; [|congruence].
    apply match_here_consumes in E. simpl in E. lia.
  - destruct (match_here icase r (x :: s)) as [[c rest]|] eqn:E.
    + pose proof (match_here_consumes _ E) as L.
      rewrite (replace_all_match _ E) by lia.
      rewrite length_app.
      pose proof (replace_all_length rest (Nat.lt_le_incl _ _ Hby)). lia.
    + rewrite (replace_all_nomatch _ _ E). cbn [length].
      specialize (IH Hs). lia.
Qed.
End ReplaceFacts.

Lemma replace_all_forall (P : N -> Prop) icase r by_ s :
  Forall P by_ -> Forall P s -> Forall P (replace_all icase r by_ s).
Proof.
  intros Hb Hs. apply Forall_forall. intros x Hx.
  apply replace_from_in in Hx. destruct Hx as [Hx|Hx].
  - revert x Hx. now apply Forall_forall.
  - revert x Hx. now apply Forall_forall.
Qed.

(** Deleting the matches of a one-character class is a filter. *)
Lemma replace_all_class (p : N -> bool) (s : jsstring) :
  replace_all false (RClass p) [] s = filter (fun c => negb (p c)) s.
Proof.
  induction s as [|c s IH]; [reflexivity|].
  simpl filter. destruct (p c) eqn:Hp; simpl negb; cbv iota.
  - rewrite (@replace_all_match false (RClass p) [] (c :: s) s []).
    + exact IH.
    + unfold match_here. simpl. now rewrite Hp.
    + simpl. lia.
  - rewrite replace_all_nomatch.
    + now rewrite IH.
    + unfold match_here. simpl. now rewrite Hp.
Qed.

(* ================================================================== *)
(** * Trimming *)
(* ================================================================== *)

Lemma trimStart_suffix (s : jsstring) : exists m, s = m ++ trimStart s.
Proof.
  induction s as [|c s [m IH]]; [now exists []|].
  simpl. destruct (is_space c).
  - exists (c :: m). simpl. now rewrite <- IH.
  - now exists [].
Qed.

Lemma trimStart_clean (s : jsstring) : starts_clean (trimStart s).
Proof.
  induction s as [|c s IH]; simpl; auto.
  destruct (is_space c) eqn:E; auto.
Qed.

Lemma trimStart_id (s : jsstring) : starts_clean s -> trimStart s = s.
Proof. destruct s; simpl; auto. now intros ->. Qed.

Lemma trimEnd_prefix (s : jsstring) : exists b, s = trimEnd s ++ b.
Proof.
  unfold trimEnd. destruct (trimStart_suffix (rev s)) as [m Hm].
  exists (rev m). rewrite <- rev_app_distr, <- Hm. now rewrite rev_involutive.
Qed.

Lemma trimEnd_idem (s : jsstring) : trimEnd (trimEnd s) = trimEnd s.
Proof.
  unfold trimEnd. rewrite rev_involutive.
  now rewrite (trimStart_id _ (trimStart_clean (rev s))).
Qed.

Lemma trim_clean (s : jsstring) : starts_clean (trim s).
Proof.
  unfold trim. pose proof (trimStart_clean s) as Hc.
  destruct (trimEnd_prefix (trimStart s)) as [b Hb].
  destruct (trimEnd (trimStart s)) as [|x t]; simpl; auto.
  rewrite Hb in Hc. exact Hc.
Qed.

Lemma trim_fixed (s : jsstring) : trim (trim s) = trim s.
Proof.
  unfold trim at 1. rewrite (trimStart_id _ (trim_clean s)).
  unfold trim. apply trimEnd_idem.
Qed.

Lemma trim_forall (P : N -> Prop) (s : jsstring) :
  Forall P s -> Forall P (trim s).
Proof.
  intros H. unfold trim.
  destruct (trimStart_suffix s) as [m Hm].
  destruct (trimEnd_prefix (trimStart s)) as [b Hb].
  rewrite Hm in H. apply Forall_app in H. destruct H as [_ H].
  rewrite Hb in H. apply Forall_app in H. now destruct H.
Qed.

Lemma collapsed_suffix (m s : jsstring) : collapsed (m ++ s) -> collapsed s.
Proof. induction m as [|c m IH]; simpl; auto. intros [_ H]. auto. Qed.

Lemma collapsed_prefix (s b : jsstring) : collapsed (s ++ b) -> collapsed s.
Proof.
  induction s as [|c s IH]; simpl; auto.
  intros [H1 H2]. split; auto.
  intros Hc. destruct (H1 Hc) as [-> Hn]. split; auto.
  destruct s; simpl in *; auto.
Qed.

Lemma trim_collapsed (s : jsstring) : collapsed s -> collapsed (trim s).
Proof.
  intros H. unfold trim.
  destruct (trimStart_suffix s) as [m Hm].
  destruct (trimEnd_prefix (trimStart s)) as [b Hb].
  rewrite Hm in H. apply collapsed_suffix in H.
  rewrite Hb in H. now apply collapsed_prefix in H.
Qed.

(* ================================================================== *)
(** * Canonical name normalizer *)
(* ================================================================== *)

Lemma rmatch_cat (A : Type) icase a b s cs (k : jsstring -> captures -> option A) :
  rmatch icase (RCat a b) s cs k
  = rmatch icase a s cs (fun s1 c1 => rmatch icase b s1 c1 k).
Proof. reflexivity. Qed.

Section DigitFree.
Variable icase : bool.
Variable A : Type.

Lemma rep_fail (p : N -> bool) (s : jsstring) :
  forall lo hi (k : jsstring -> option A),
    no_digit s -> (forall s', no_digit s' -> k s' = None) ->
    rep p lo hi s k = None.
Proof.
  induction s as [|c s IH]; intros lo hi k Hs Hk; simpl.
  - destruct lo; auto.
  - assert (Hstop : match lo with O => k (c :: s) | S _ => None end = None)
      by (destruct lo; auto).
    inversion Hs; subst.
    destruct (p c && hi_open hi); auto.
    rewrite IH; auto.
Qed.

(** On a string without digits the matcher fails as soon as its
    continuation does. *)
Lemma rmatch_fail (r : regex) :
  forall s cs (k : jsstring -> captures -> option A),
    no_digit s -> (forall s' cs', no_digit s' -> k s' cs' = None) ->
    rmatch icase r s cs k = None.
Proof.
  induction r; intros s cs k Hs Hk; simpl; auto.
  - destruct s as [|y s]; auto. inversion Hs; subst.
    destruct (char_eq icase c y); auto.
  - destruct s as [|y s]; auto. inversion Hs; subst.
    destruct (p y); auto.
  - rewrite IHr1; auto.
  - rewrite IHr; auto.
  - apply rep_fail; auto.
  - destruct s; auto.
Qed.

Lemma digits1_fail (s : jsstring) cs (k : jsstring -> captures -> option A) :
  no_digit s -> rmatch icase digits1 s cs k = None.
Proof.
  intros Hs. unfold digits1. cbn [rmatch].
  destruct s as [|c s]; [reflexivity|]. inversion Hs as [|? ? Hc Hs']; subst.
  cbn [rep]. now rewrite Hc.
Qed.
End DigitFree.

Lemma no_digit_suffix (m t : jsstring) : no_digit (m ++ t) -> no_digit t.
Proof. intros H. apply Forall_app in H. now destruct H. Qed.

Lemma quantity_nomatch (s : jsstring) :
  no_digit s -> match_here true re_quantity s = None.
Proof.
  intros Hs. unfold match_here, re_quantity, rseq. cbn [fold_right].
  rewrite rmatch_cat. now apply digits1_fail.
Qed.

Lemma percent_nomatch (s : jsstring) :
  no_digit s -> match_here false re_percent s = None.
Proof.
  intros Hs. unfold match_here, re_percent, rseq. cbn [fold_right].
  rewrite rmatch_cat. now apply digits1_fail.
Qed.

Lemma multiplier_nomatch (s : jsstring) :
  no_digit s -> match_here false re_multiplier s = None.
Proof.
  intros Hs. unfold match_here, re_multiplier, rseq. cbn [fold_right].
  rewrite rmatch_cat. apply rmatch_fail; auto. intros s1 c1 H1.
  rewrite rmatch_cat. apply rmatch_fail; auto. intros s2 c2 H2.
  rewrite rmatch_cat. apply rmatch_fail; auto. intros s3 c3 H3.
  rewrite rmatch_cat. now apply digits1_fail.
Qed.

Lemma filter_all (A : Type) (f : A -> bool) (l : list A) :
  Forall (fun x => f x = true) l -> filter f l = l.
Proof.
  induction 1 as [|x l Hx Hl IH]; simpl; auto. now rewrite Hx, IH.
Qed.

Lemma bracket_removed (s : jsstring) :
  no_bracket (replace_all false re_bracket [] s).
Proof.
  unfold re_bracket. rewrite replace_all_class.
  apply Forall_forall. intros x Hx. apply filter_In in Hx.
  destruct Hx as [_ Hx]. now destruct (is_bracket x).
Qed.

Lemma bracket_free_id (s : jsstring) :
  no_bracket s -> replace_all false re_bracket [] s = s.
Proof.
  intros Hs. unfold re_bracket. rewrite replace_all_class.
  apply filter_all. eapply Forall_impl; [|exact Hs].
  intros x Hx. simpl in Hx. now rewrite Hx.
Qed.

Lemma rep_space_run (c0 : captures) (s : jsstring) :
  rep is_space 0 None s (fun s' => Some (c0, s')) = Some (c0, trimStart s).
Proof.
  induction s as [|c s IH]; [reflexivity|].
  cbn [rep trimStart hi_open pred option_map].
  destruct (is_space c); cbn [andb]; [now rewrite IH|reflexivity].
Qed.

Lemma match_spaces (s : jsstring) :
  match_here false re_spaces s
  = match s with
    | [] => None
    | c :: s' => if is_space c then Some ([], trimStart s') else None
    end.
Proof.
  unfold match_here, re_spaces. cbn [rmatch].
  destruct s as [|c s]; [reflexivity|].
  cbn [rep hi_open pred option_map].
  destruct (is_space c); cbn [andb]; [now rewrite rep_space_run|reflexivity].
Qed.

Lemma trimStart_length (s : jsstring) : length (trimStart s) <= length s.
Proof.
  destruct (trimStart_suffix s) as [m Hm].
  rewrite Hm at 2. rewrite length_app. lia.
Qed.

Lemma replace_spaces_shape (n : nat) :
  forall s, length s <= n ->
    collapsed (replace_all false re_spaces (js " ") s)
    /\ (starts_clean s ->
        starts_clean (replace_all false re_spaces (js " ") s)).
Proof.
  induction n as [|n IH]; intros s Hn.
  - destruct s; [|simpl in Hn; lia]. split; [exact I|auto].
  - destruct s as [|c s]; [split; [exact I|auto]|].
    simpl in Hn. destruct (is_space c) eqn:Hc.
    + rewrite (@replace_all_match false re_spaces (js " ") (c :: s)
                 (trimStart s) []).
      * pose proof (trimStart_length s) as Hl.
        destruct (IH (trimStart s)) as [IH1 IH2]; [lia|].
        split.
        -- simpl. split; [|exact IH1]. intros _. split; [reflexivity|].
           apply IH2, trimStart_clean.
        -- simpl. congruence.
      * rewrite match_spaces, Hc. reflexivity.
      * pose proof (trimStart_length s). simpl. lia.
    + rewrite replace_all_nomatch by (rewrite match_spaces, Hc; reflexivity).
      destruct (IH s) as [IH1 _]; [lia|].
      split.
      * simpl. split; [congruence|exact IH1].
      * intros _. exact Hc.
Qed.

Lemma replace_spaces_collapsed (s : jsstring) :
  collapsed (replace_all false re_spaces (js " ") s).
Proof. apply (replace_spaces_shape (n := length s)). lia. Qed.

Lemma replace_spaces_id (s : jsstring) :
  collapsed s -> replace_all false re_spaces (js " ") s = s.
Proof.
  induction s as [|c s IH]; intros H; [reflexivity|].
  destruct H as [H1 H2]. destruct (is_space c) eqn:Hc.
  - destruct (H1 eq_refl) as [-> Hnext].
    rewrite (@replace_all_match false re_spaces (js " ") (32%N :: s) s []).
    + now rewrite IH.
    + rewrite match_spaces, Hc. now rewrite (trimStart_id s Hnext).
    + simpl. lia.
  - rewrite replace_all_nomatch by (rewrite match_spaces, Hc; reflexivity).
    now rewrite IH.
Qed.

(** What every canonical form looks like. *)
Lemma normalizeCanonical_shape (x : jsstring) :
  no_bracket (normalizeCanonical x) /\ collapsed (normalizeCanonical x)
  /\ trim (normalizeCanonical x) = normalizeCanonical x.
Proof.
  unfold normalizeCanonical. split; [|split].
  - apply trim_forall. apply replace_all_forall.
    + now repeat constructor.
    + apply bracket_removed.
  - apply trim_collapsed, replace_spaces_collapsed.
  - apply trim_fixed.
Qed.

Lemma normalizeCanonical_no_digit (x : jsstring) :
  no_digit x -> no_digit (normalizeCanonical x).
Proof.
  intros H. unfold normalizeCanonical. apply trim_forall.
  assert (Hsp : Forall (fun c => is_digit c = false) (js " "))
    by now repeat constructor.
  repeat (apply replace_all_forall; [first [exact Hsp | constructor]|]).
  exact H.
Qed.

Lemma test_false (icase : bool) (r : regex) (s : jsstring) :
  test icase r s = false <-> search icase r s = None.
Proof.
  unfold test. destruct (search icase r s); split; congruence.
Qed.

Lemma replace_unmatched (icase : bool) (r : regex) (by_ s : jsstring) :
  search icase r s = None -> replace_all icase r by_ s = s.
Proof. intros H. apply replace_all_id. now apply search_none. Qed.

Lemma digit_free_unmatched (icase : bool) (r : regex) (s : jsstring) :
  (forall t, no_digit t -> match_here icase r t = None) ->
  no_digit s -> search icase r s = None.
Proof.
  intros Hr Hs. apply search_none. intros m t ->.
  apply Hr. eapply no_digit_suffix; eauto.
Qed.

Lemma trim_length (s : jsstring) : length (trim s) <= length s.
Proof.
  unfold trim.
  destruct (trimStart_suffix s) as [m Hm].
  destruct (trimEnd_prefix (trimStart s)) as [b Hb].
  rewrite Hm at 2. rewrite Hb at 2. rewrite !length_app. lia.
Qed.

(** Where one of the first three patterns matches, normalizing shortens
    the string. *)
Lemma normalizeCanonical_shortens (y : jsstring) :
  search true re_quantity y <> None
  \/ search false re_multiplier y <> None
  \/ search false re_percent y <> None ->
  length (normalizeCanonical y) < length y.
Proof.
  intros H. unfold normalizeCanonical.
  assert (M1 : 0 < min_len re_quantity) by (vm_compute; lia).
  assert (M2 : 0 < min_len re_multiplier) by (vm_compute; lia).
  assert (M3 : 0 < min_len re_percent) by (vm_compute; lia).
  assert (M4 : 0 <= min_len re_bracket) by lia.
  assert (M5 : 1 <= min_len re_spaces) by (vm_compute; lia).
  set (l1 := replace_all true re_quantity [] y).
  set (l2 := replace_all false re_multiplier [] l1).
  set (l3 := replace_all false re_percent [] l2).
  set (l4 := replace_all false re_bracket [] l3).
  set (l5 := replace_all false re_spaces (js " ") l4).
  pose proof (trim_length l5) as T.
  pose proof (replace_all_length false re_spaces (js " ") l4 M5) as L5.
  pose proof (replace_all_length false re_bracket [] l3 M4) as L4.
  pose proof (replace_all_length false re_percent [] l2
                (Nat.lt_le_incl _ _ M3)) as L3.
  pose proof (replace_all_length false re_multiplier [] l1
                (Nat.lt_le_incl _ _ M2)) as L2.
  pose proof (replace_all_length true re_quantity [] y
                (Nat.lt_le_incl _ _ M1)) as L1.
  fold l1 in L1. fold l2 in L2. fold l3 in L3. fold l4 in L4. fold l5 in L5.
  destruct (search true re_quantity y) eqn:S1.
  - assert (length l1 < length y)
      by (apply replace_all_shorter; [exact M1|congruence]).
    lia.
  - assert (E1 : l1 = y) by (apply replace_unmatched; exact S1).
    destruct (search false re_multiplier y) eqn:S2.
    + assert (length l2 < length l1)
        by (apply replace_all_shorter; [exact M2|rewrite E1; congruence]).
      lia.
    + assert (E2 : l2 = y)
        by (unfold l2; rewrite E1; apply replace_unmatched; exact S2).
      assert (length l3 < length l2).
      { apply replace_all_shorter; [exact M3|]. rewrite E2.
        destruct H as [H|[H|H]]; congruence. }
      lia.
Qed.

(** A canonical form in which none of the first three patterns matches
    is a fixed point. *)
Lemma normalizeCanonical_stable (x : jsstring) :
  search true re_quantity (normalizeCanonical x) = None ->
  search false re_multiplier (normalizeCanonical x) = None ->
  search false re_percent (normalizeCanonical x) = None ->
  normalizeCanonical (normalizeCanonical x) = normalizeCanonical x.
Proof.
  intros S1 S2 S3. destruct (normalizeCanonical_shape x) as (Hb & Hc & Ht).
  remember (normalizeCanonical x) as y eqn:Hy. clear Hy.
  unfold normalizeCanonical.
  rewrite (@replace_unmatched true re_quantity [] y S1).
  rewrite (@replace_unmatched false re_multiplier [] y S2).
  rewrite (@replace_unmatched false re_percent [] y S3).
  rewrite (@bracket_free_id y Hb), (@replace_spaces_id y Hc).
  exact Ht.
Qed.

(** C7 (as amended).  Normalizing a canonical form again returns it
    exactly when none of the quantity, multiplier and percentage
    patterns matches in it.  This is so whenever the canonical form
    contains no decimal digit, in particular for every input without
    decimal digits. *)
Theorem normalizeCanonical_idempotent_iff (x : jsstring) :
  (normalizeCanonical (normalizeCanonical x) = normalizeCanonical x
   <-> test true re_quantity (normalizeCanonical x) = false
       /\ test false re_multiplier (normalizeCanonical x) = false
       /\ test false re_percent (normalizeCanonical x) = false)
  /\ (no_digit (normalizeCanonical x) ->
      normalizeCanonical (normalizeCanonical x) = normalizeCanonical x)
  /\ (no_digit x -> no_digit (normalizeCanonical x)).
Proof.
  split; [|split].
  - rewrite !test_false. split.
    + intros H.
      destruct (search true re_quantity (normalizeCanonical x)) eqn:S1;
        [|destruct (search false re_multiplier (normalizeCanonical x)) eqn:S2;
          [|destruct (search false re_percent (normalizeCanonical x)) eqn:S3;
            [|auto]]];
        exfalso;
        assert (L : length (normalizeCanonical (normalizeCanonical x))
                    < length (normalizeCanonical x))
          by (apply normalizeCanonical_shortens; rewrite ?S1, ?S2, ?S3;
              first [left; discriminate
                    |right; left; discriminate
                    |right; right; discriminate]);
        rewrite H in L; lia.
    + intros (S1 & S2 & S3). now apply normalizeCanonical_stable.
  - intros Hd. apply normalizeCanonical_stable.
    + exact (@digit_free_unmatched true re_quantity _ quantity_nomatch Hd).
    + exact (@digit_free_unmatched false re_multiplier _ multiplier_nomatch Hd).
    + exact (@digit_free_unmatched false re_percent _ percent_nomatch Hd).
  - apply normalizeCanonical_no_digit.
Qed.

Lemma normalizeCanonical_idempotent_witness :
  normalizeCanonical (normalizeCanonical (js "Milk 3% (1 l)"))
  = normalizeCanonical (js "Milk 3% (1 l)").
Proof.
  apply (proj1 (proj2 (normalizeCanonical_idempotent_iff (js "Milk 3% (1 l)")))).
  vm_compute. repeat constructor.
Defined.

(** C7 (as stated) fails: deleting the brackets of [1(g)] leaves [1g],
    which the quantity pattern deletes on the second pass. *)
Lemma normalizeCanonical_not_idempotent :
  normalizeCanonical (normalizeCanonical (js "1(g)"))
  <> normalizeCanonical (js "1(g)").
Proof. vm_compute. discriminate. Qed.

(* ================================================================== *)
(** * Raw-file ledger *)
(* ================================================================== *)

Lemma find_update_same (i : nat) (g : RawFile -> RawFile) (t : Table) :
  (forall r, rf_id (g r) = rf_id r) ->
  find_id i (update i g t) = option_map g (find_id i t).
Proof.
  intros Hg. unfold find_id, update. simpl.
  induction (rows t) as [|r l IH]; [reflexivity|].
  simpl. destruct (Nat.eqb (rf_id r) i) eqn:E.
  - now rewrite Hg, E.
  - now rewrite E.
Qed.

Lemma find_update_other (i j : nat) (g : RawFile -> RawFile) (t : Table) :
  i <> j -> (forall r, rf_id (g r) = rf_id r) ->
  find_id i (update j g t) = find_id i t.
Proof.
  intros Hij Hg. unfold find_id, update. simpl.
  induction (rows t) as [|r l IH]; [reflexivity|].
  simpl. destruct (Nat.eqb (rf_id r) j) eqn:E.
  - rewrite Hg. apply Nat.eqb_eq in E.
    destruct (Nat.eqb (rf_id r) i) eqn:E'; [|exact IH].
    apply Nat.eqb_eq in E'. congruence.
  - destruct (Nat.eqb (rf_id r) i); [reflexivity|exact IH].
Qed.

Lemma outcome_set_status (i : nat) (s : Status) (e : option jsstring)
      (t : Table) :
  find_id i t <> None ->
  outcome_of i (update i (set_status s e) t) = Some (s, e).
Proof.
  intros H. unfold outcome_of. rewrite find_update_same by reflexivity.
  destruct (find_id i t); [reflexivity|congruence].
Qed.

Lemma find_set_store_id (i : nat) (sid : option jsstring) (t : Table) :
  find_id i t <> None -> find_id i (update i (set_store_id sid) t) <> None.
Proof.
  intros H. rewrite find_update_same by reflexivity.
  destruct (find_id i t); [discriminate|congruence].
Qed.

Lemma find_set_status (i : nat) s e (t : Table) :
  find_id i t <> None -> find_id i (update i (set_status s e) t) <> None.
Proof.
  intros H. rewrite find_update_same by reflexivity.
  destruct (find_id i t); [discriminate|congruence].
Qed.

(* ================================================================== *)
(** * Catalog decoder *)
(* ================================================================== *)

Section DecoderFacts.
Import Decoder.
Variable StringToNumber : jsstring -> jsnum.
Variable NumberToString : jsnum -> jsstring.
Variable storage_download : jsstring -> jsstring + list N.
Variable ungzip_parse : list N -> option Doc.
Variable upsert_error : list PriceRow -> option jsstring.

Local Abbreviation item_row := (item_row StringToNumber NumberToString).
Local Abbreviation collect_rows := (collect_rows StringToNumber NumberToString).
Local Abbreviation batch_loop := (batch_loop upsert_error).
Local Abbreviation parse_root :=
  (parse_root StringToNumber NumberToString upsert_error).
Local Abbreviation parse_file :=
  (parse_file StringToNumber NumberToString storage_download ungzip_parse
              upsert_error).
Local Abbreviation rejected := (rejected StringToNumber NumberToString).
Local Abbreviation reaches_items :=
  (reaches_items NumberToString storage_download ungzip_parse).

Lemma rejected_item_row fid sub sid bik (it : Item) :
  rejected it <-> item_row fid sub sid bik it = None.
Proof.
  unfold rejected, Decoder.item_row.
  destruct (truthy (cleanName NumberToString it)) eqn:Hn;
    destruct (isFinite (Number_of StringToNumber (ItemPrice it))) eqn:Hp;
    simpl; try (split; [reflexivity|auto]).
  destruct (nonEmpty (option_map (String_of NumberToString) (ItemCode it)))
    eqn:Hc.
  - split; [intros [H|[H|H]]; discriminate|discriminate].
  - split; auto.
Qed.

Lemma collect_rows_rejected fid sub sid bik (items : list Item) :
  Forall rejected items -> collect_rows fid sub sid bik items = [].
Proof.
  induction 1 as [|it items Hit _ IH]; [reflexivity|].
  simpl. apply (rejected_item_row fid sub sid bik) in Hit. now rewrite Hit.
Qed.

Lemma collect_rows_in fid sub sid bik (items : list Item) (row : PriceRow) :
  In row (collect_rows fid sub sid bik items) ->
  exists it, In it items /\ item_row fid sub sid bik it = Some row.
Proof.
  induction items as [|it items IH]; simpl; [contradiction|].
  destruct (item_row fid sub sid bik it) as [r|] eqn:E.
  - intros [<-|H].
    + exists it. auto.
    + destruct (IH H) as (it' & Hin & Hr). exists it'. auto.
  - intros H. destruct (IH H) as (it' & Hin & Hr). exists it'. auto.
Qed.

(** The batch loop never removes the ledger row of the file. *)
Lemma batch_loop_keeps_row (starts : list nat) rows fid :
  forall db, find_id fid (raw_files db) <> None ->
             find_id fid (raw_files (batch_loop starts rows fid db)) <> None.
Proof.
  induction starts as [|i starts IH]; intros db H;
    cbn [Decoder.batch_loop]; auto.
  destruct (upsert_error (firstn BATCH (skipn i rows))); apply IH;
    cbn [raw_files mark]; auto.
  now apply find_set_status.
Qed.

(** Whatever the batches did, a file with a non-empty item list ends as
    [parsed] with no error. *)
Lemma parse_root_items_parsed db (f : FileRow) (root : Root) sid :
  nonEmpty (storeIdNorm_of NumberToString root f) = Some sid ->
  toArray (Items root) <> [] ->
  find_id (f_id f) (raw_files db) <> None ->
  outcome_of (f_id f) (raw_files (parse_root db f root)) = Some (parsed, None).
Proof.
  intros Hsid Hitems Hrow. unfold Decoder.parse_root. rewrite Hsid.
  destruct (toArray (Items root)) as [|it items]; [congruence|].
  unfold mark. cbn [raw_files].
  apply outcome_set_status, batch_loop_keeps_row. cbn [raw_files].
  now apply find_set_store_id.
Qed.

Lemma parse_file_reaches db (f : FileRow) (root : Root) :
  reaches_items f root -> parse_file db f = Continue (parse_root db f root).
Proof.
  intros (buf & doc & sid & (path & Hp & Hd) & Hg & Hu & Hr & _).
  unfold Decoder.parse_file. now rewrite Hp, Hd, Hg, Hu, Hr.
Qed.
End DecoderFacts.

Section DecoderClaims.
Import Decoder.
Variable StringToNumber : jsstring -> jsnum.
Variable NumberToString : jsnum -> jsstring.
Variable storage_download : jsstring -> jsstring + list N.
Variable ungzip_parse : list N -> option Doc.
Variable upsert_error : list PriceRow -> option jsstring.

Local Abbreviation item_row := (item_row StringToNumber NumberToString).
Local Abbreviation collect_rows := (collect_rows StringToNumber NumberToString).
Local Abbreviation parse_file :=
  (parse_file StringToNumber NumberToString storage_download ungzip_parse
              upsert_error).
Local Abbreviation rejected := (rejected StringToNumber NumberToString).
Local Abbreviation reaches_items :=
  (reaches_items NumberToString storage_download ungzip_parse).

(** C1 (as amended).  For a downloaded catalog file that passes the
    checks before the item list: when the item list is non-empty and
    every item is rejected by row-level filtering, the decoder writes no
    price row and records the file as parsed, with no error; the failure
    [No Items in XML] is recorded, again with no price row written, when
    the item list itself is empty. *)
Theorem all_items_rejected_parsed (db : DB) (f : FileRow) (root : Root) :
  reaches_items f root ->
  find_id (f_id f) (raw_files db) <> None ->
  (toArray (Items root) <> [] ->
   Forall rejected (toArray (Items root)) ->
   prices (db_of (parse_file db f)) = prices db
   /\ outcome_of (f_id f) (raw_files (db_of (parse_file db f)))
      = Some (parsed, None))
  /\ (toArray (Items root) = [] ->
      prices (db_of (parse_file db f)) = prices db
      /\ outcome_of (f_id f) (raw_files (db_of (parse_file db f)))
         = Some (failed, Some (js "No Items in XML"))).
Proof.
  intros Hreach Hrow.
  rewrite (parse_file_reaches StringToNumber upsert_error db Hreach).
  destruct Hreach as (buf & doc & sid & _ & _ & _ & _ & Hsid).
  cbn [db_of]. split.
  - intros Hne Hrej. split.
    + unfold Decoder.parse_root. rewrite Hsid.
      destruct (toArray (Items root)) as [|it items] eqn:E; [congruence|].
      rewrite (collect_rows_rejected _ _ _ _ Hrej). reflexivity.
    + eapply parse_root_items_parsed; eauto.
  - intros Hnil. unfold Decoder.parse_root. rewrite Hsid, Hnil.
    split; [reflexivity|].
    unfold mark. cbn [raw_files].
    apply outcome_set_status. now apply find_set_store_id.
Qed.

(** C9.  Every row that the decoder collects comes from an item, and its
    canonical key is null whenever the cleaned name of the item
    normalizes to the empty string; the key is never the empty string. *)
Theorem canonical_key_null_when_empty fid sub sid bik (items : list Item)
        (row : PriceRow) :
  In row (collect_rows fid sub sid bik items) ->
  exists it,
    In it items
    /\ item_name row = cleanName NumberToString it
    /\ (normalizeCanonical (cleanName NumberToString it) = [] ->
        canonical_key row = None)
    /\ canonical_key row <> Some [].
Proof.
  intros Hin. apply collect_rows_in in Hin. destruct Hin as (it & Hin & Hrow).
  exists it. split; [exact Hin|].
  unfold Decoder.item_row in Hrow.
  destruct (negb (truthy (cleanName NumberToString it))
            || negb (isFinite (Number_of StringToNumber (ItemPrice it))));
    [discriminate|].
  destruct (nonEmpty (option_map (String_of NumberToString) (ItemCode it)));
    [|discriminate].
  injection Hrow as <-. cbn [item_name canonical_key].
  split; [reflexivity|]. split.
  - intros ->. reflexivity.
  - unfold nonEmpty.
    destruct (normalizeCanonical (cleanName NumberToString it));
      simpl; discriminate.
Qed.

End DecoderClaims.

Lemma sample_reaches_items (items : Decoder.ItemList) :
  reaches_items Sample.digits_of_number Sample.download_gz
    (Sample.parse_to items) Sample.file (Sample.root items).
Proof.
  exists Sample.gz_bytes, (Sample.doc_of items), (js "009").
  split; [exists Sample.path; split; reflexivity|].
  repeat split; reflexivity.
Qed.

Lemma all_items_rejected_parsed_witness :
  Decoder.prices
    (Decoder.db_of
       (Decoder.parse_file Sample.number_of_digits Sample.digits_of_number
          Sample.download_gz
          (Sample.parse_to (Decoder.ItemArray [Sample.no_price; Sample.no_name]))
          Sample.upsert_ok Sample.db Sample.file))
  = Decoder.prices Sample.db
  /\ outcome_of 7
       (Decoder.raw_files
          (Decoder.db_of
             (Decoder.parse_file Sample.number_of_digits
                Sample.digits_of_number Sample.download_gz
                (Sample.parse_to
                   (Decoder.ItemArray [Sample.no_price; Sample.no_name]))
                Sample.upsert_ok Sample.db Sample.file)))
     = Some (parsed, None).
Proof.
  refine (proj1 (all_items_rejected_parsed Sample.number_of_digits
                   Sample.upsert_ok Sample.db
                   (sample_reaches_items
                      (Decoder.ItemArray [Sample.no_price; Sample.no_name]))
                   _) _ _).
  - vm_compute. discriminate.
  - discriminate.
  - apply Forall_cons; [right; left; reflexivity|].
    apply Forall_cons; [left; reflexivity|apply Forall_nil].
Defined.

(** C1 (as stated) fails: a catalog whose two items are both rejected, one
    for its missing price and one for its missing name, leaves its file
    recorded as parsed, not failed. *)
Lemma all_rejected_file_is_parsed :
  Decoder.toArray (Decoder.ItemArray [Sample.no_price; Sample.no_name]) <> []
  /\ Forall (rejected Sample.number_of_digits Sample.digits_of_number)
            [Sample.no_price; Sample.no_name]
  /\ outcome_of 7
       (Decoder.raw_files
          (Sample.run (Decoder.ItemArray [Sample.no_price; Sample.no_name])
                      Sample.upsert_ok))
     = Some (parsed, None)
  /\ outcome_of 7
       (Decoder.raw_files
          (Sample.run (Decoder.ItemArray [Sample.no_price; Sample.no_name])
                      Sample.upsert_ok))
     <> Some (failed, Some (js "No Items in XML")).
Proof.
  split; [discriminate|]. split.
  - apply Forall_cons; [right; left; reflexivity|].
    apply Forall_cons; [left; reflexivity|apply Forall_nil].
  - split; vm_compute; [reflexivity|discriminate].
Qed.

(** C4: the code departs from the claim.  The upsert of the only batch of
    the sample catalog fails, the file is first marked failed with the
    message, and the update after the loop then records it as parsed with
    no error. *)
Theorem failed_batch_file_is_parsed :
  Sample.upsert_timeout
    (firstn Decoder.BATCH
       (Decoder.collect_rows Sample.number_of_digits Sample.digits_of_number
          7 (Some (js "1")) (Some (js "009")) None [Sample.milk]))
  = Some (js "canceling statement due to statement timeout")
  /\ Decoder.prices
       (Sample.run (Decoder.OneItem Sample.milk) Sample.upsert_timeout) = []
  /\ outcome_of 7
       (Decoder.raw_files
          (Sample.run (Decoder.OneItem Sample.milk) Sample.upsert_timeout))
     = Some (parsed, None).
Proof. repeat split; vm_compute; reflexivity. Qed.

Lemma canonical_key_null_when_empty_witness :
  exists row it,
    In row (Decoder.collect_rows Sample.number_of_digits
              Sample.digits_of_number 7 None (Some (js "009")) None
              [Sample.half_kilo])
    /\ In it [Sample.half_kilo]
    /\ Decoder.item_name row = Decoder.cleanName Sample.digits_of_number it
    /\ (normalizeCanonical (Decoder.cleanName Sample.digits_of_number it) = []
        -> Decoder.canonical_key row = None)
    /\ Decoder.canonical_key row <> Some [].
Proof.
  assert (H : exists row,
             In row (Decoder.collect_rows Sample.number_of_digits
                       Sample.digits_of_number 7 None (Some (js "009")) None
                       [Sample.half_kilo])).
  { eexists. cbv. left. reflexivity. }
  destruct H as [row Hrow]. exists row.
  destruct (canonical_key_null_when_empty _ _ _ _ _ _ _ _ Hrow)
    as (it & H1 & H2).
  exists it. auto.
Defined.


(* ================================================================== *)
(** * Ledger writes *)
(* ================================================================== *)

Lemma same_key_new_row (c u : jsstring) (i : nat) (now : N)
      (row : RawFileInsert) :
  same_key c u (new_row i now row)
  = str_eqb (Ledger.chain row) c && str_eqb (Ledger.file_url row) u.
Proof. reflexivity. Qed.


Lemma same_key_eq (c u : jsstring) (r : RawFile) :
  same_key c u r = true <-> rf_chain r = c /\ rf_file_url r = u.
Proof.
  unfold same_key. rewrite andb_true_iff, !str_eqb_eq. reflexivity.
Qed.



Lemma existsb_filter_nil (A : Type) (f : A -> bool) (l : list A) :
  existsb f l = false <-> filter f l = [].
Proof.
  induction l as [|x l IH]; simpl; [tauto|].
  destruct (f x); simpl; [split; discriminate|exact IH].
Qed.









(* ================================================================== *)
(** * Collectors *)
(* ================================================================== *)

(* From here on every argument of a lemma is written out. *)
Unset Implicit Arguments.

Lemma has_record_filter (c u : jsstring) (t : Table) :
  has_record c u t <-> filter (same_key c u) (rows t) <> [].
Proof.
  unfold has_record. pose proof (existsb_filter_nil (same_key c u) (rows t)).
  destruct (existsb (same_key c u) (rows t)); split; intros; try congruence.
  - intros F. apply H in F. discriminate.
  - exfalso. apply H0. now apply H.
Qed.

Lemma select_existing_nil (c u : jsstring) (t : Table) :
  select_existing c u t = [] <-> ~ has_record c u t.
Proof.
  rewrite has_record_filter. unfold select_existing.
  destruct (filter (same_key c u) (rows t)); simpl; split.
  - intros _ H. now apply H.
  - reflexivity.
  - discriminate.
  - intros H. exfalso. apply H. discriminate.
Qed.


(** Plain inserts for another URL leave the records of a key alone. *)
Lemma inserts_other (now : N) (c c' u url : jsstring)
      (rs : list RawFileInsert) :
  u <> url -> rows_for c' u rs ->
  forall t, filter (same_key c url) (rows (inserts now rs t))
            = filter (same_key c url) (rows t).
Proof.
  intros Hne. induction 1 as [|r rs [_ Hr] _ IH]; intros t; [reflexivity|].
  simpl. rewrite IH. unfold insert.
  destruct (existsb _ (rows t)); cbn [fst rows]; [reflexivity|].
  rewrite filter_app. simpl. rewrite same_key_new_row, Hr.
  replace (str_eqb u url) with false
    by (symmetry; now apply str_eqb_neq).
  now rewrite andb_false_r, app_nil_r.
Qed.

Lemma count_occ_snoc_other (u url : jsstring) (l : list jsstring) :
  u <> url ->
  count_occ (list_eq_dec N.eq_dec) (l ++ [u]) url
  = count_occ (list_eq_dec N.eq_dec) l url.
Proof.
  intros H. rewrite count_occ_app. cbn [count_occ].
  destruct (list_eq_dec N.eq_dec u url); [contradiction|apply Nat.add_0_r].
Qed.

Lemma untouched_refl (c u : jsstring) (w : Collector.World) :
  untouched c u w w.
Proof. split; reflexivity. Qed.

Lemma untouched_trans (c u : jsstring) (w1 w2 w3 : Collector.World) :
  untouched c u w1 w2 -> untouched c u w2 w3 -> untouched c u w1 w3.
Proof. intros [A1 A2] [B1 B2]. split; congruence. Qed.

Lemma untouched_has_record (c u : jsstring) (w w' : Collector.World) :
  untouched c u w w' ->
  has_record c u (Collector.ledger w) -> has_record c u (Collector.ledger w').
Proof. intros [H _]. rewrite !has_record_filter. congruence. Qed.

Section CollectorFacts.
Import Collector.
Variable fetch : jsstring -> FetchResult.
Variable curl : jsstring -> option (list N).
Variable upload_fault : jsstring -> option jsstring.
Variable sha256_hex : list N -> jsstring.
Variable today : jsstring.
Variable now_ms : N.
Variable now : N.
Variable url_basename : jsstring -> option jsstring.
Variable page_links : nat -> option (list jsstring).

Local Abbreviation attempt :=
  (attempt fetch upload_fault sha256_hex today now_ms now).
Local Abbreviation attempt_all :=
  (attempt_all fetch upload_fault sha256_hex today now_ms now).
Local Abbreviation runYohananofCollector :=
  (runYohananofCollector fetch upload_fault sha256_hex today now_ms now).
Local Abbreviation runShufersalCollector :=
  (runShufersalCollector fetch upload_fault sha256_hex today now_ms now
                         page_links).
Local Abbreviation run_pages :=
  (run_pages fetch upload_fault sha256_hex today now_ms now page_links).
Local Abbreviation download_one :=
  (download_one curl upload_fault sha256_hex now url_basename).
Local Abbreviation download_all :=
  (download_all curl upload_fault sha256_hex now url_basename).
Local Abbreviation runYohananofCurlCollector :=
  (runYohananofCurlCollector curl upload_fault sha256_hex now url_basename).

Lemma upload_frame (o : bool) (p : jsstring) (b : list N) (w : World) :
  ledger (fst (upload upload_fault o p b w)) = ledger w
  /\ fetch_log (fst (upload upload_fault o p b w)) = fetch_log w.
Proof.
  unfold upload. destruct (upload_fault p); [auto|].
  destruct (negb o && stored p (bucket w)); auto.
Qed.

Lemma insert_row_ledger (row : RawFileInsert) (w : World) :
  ledger (fst (insert_row now row w)) = inserts now [row] (ledger w)
  /\ fetch_log (fst (insert_row now row w)) = fetch_log w.
Proof.
  unfold insert_row, inserts. simpl.
  destruct (insert now row (ledger w)). auto.
Qed.

(** A retried attempt is skipped. *)
Lemma attempt_known (c : Chain) (u : jsstring) (w : World) :
  has_record (CHAIN c) u (ledger w) -> attempt c u w = (w, false).
Proof.
  intros H. unfold Collector.attempt.
  destruct (select_existing (CHAIN c) u (ledger w)) eqn:E; [|reflexivity].
  apply select_existing_nil in E. contradiction.
Qed.

(** A first attempt logs one download and writes by plain inserts of
    rows for its own key. *)
Lemma attempt_new (c : Chain) (u : jsstring) (w : World) :
  ~ has_record (CHAIN c) u (ledger w) ->
  exists rs,
    rows_for (CHAIN c) u rs
    /\ ledger (fst (attempt c u w)) = inserts now rs (ledger w)
    /\ fetch_log (fst (attempt c u w)) = fetch_log w ++ [u].
Proof.
  intros H. apply select_existing_nil in H.
  unfold Collector.attempt. rewrite H.
  assert (Hone : forall row w0,
             Ledger.chain row = CHAIN c -> Ledger.file_url row = u ->
             ledger w0 = ledger w -> fetch_log w0 = fetch_log w ++ [u] ->
             exists rs,
               rows_for (CHAIN c) u rs
               /\ ledger (fst (insert_row now row w0)) = inserts now rs (ledger w)
               /\ fetch_log (fst (insert_row now row w0)) = fetch_log w ++ [u]).
  { intros row w0 Hc Hu Hl Hf. exists [row].
    destruct (insert_row_ledger row w0) as [E1 E2].
    rewrite E1, E2, Hl, Hf. repeat split; auto.
    constructor; [split; assumption|constructor]. }
  destruct (fetch u) as [msg|res].
  - cbn [fst]. unfold record_failure. apply Hone; reflexivity.
  - destruct (negb (res_ok res)).
    + cbn [fst]. unfold record_failure. apply Hone; reflexivity.
    + destruct (nonEmpty _) as [sid|].
      * destruct (upload upload_fault false _ (res_body res) (log_fetch u w))
          as [w2 [e|]] eqn:U;
          pose proof (upload_frame false
                        (CHAIN c ++ slash ++ today ++ slash ++ sid ++ slash
                         ++ filename_of now_ms c res)
                        (res_body res) (log_fetch u w)) as [L1 L2];
          rewrite U in L1, L2; cbn [fst] in L1, L2.
        -- cbn [fst]. unfold record_failure. apply Hone; auto.
        -- destruct (insert_row now _ w2) as [w3 [e|]] eqn:I.
           ++ cbn [fst]. unfold record_failure.
              pose proof (insert_row_ledger
                            (row_of c u (Some sid)
                               (Some (CHAIN c ++ slash ++ today ++ slash ++ sid
                                      ++ slash ++ filename_of now_ms c res))
                               (Some (sha256_hex (res_body res))) downloaded
                               None) w2) as [E1 E2].
              rewrite I in E1, E2. cbn [fst] in E1, E2.
              eexists [_; _].
              destruct (insert_row_ledger
                          (row_of c u (Some sid)
                             (Some (CHAIN c ++ slash ++ today ++ slash ++ sid
                                    ++ slash ++ filename_of now_ms c res))
                             (Some (sha256_hex (res_body res))) failed
                             (Some e)) w3) as [F1 F2].
              rewrite F1, F2, E1, E2, L1, L2.
              split; [|split; reflexivity].
              repeat constructor.
           ++ cbn [fst].
              pose proof (insert_row_ledger
                            (row_of c u (Some sid)
                               (Some (CHAIN c ++ slash ++ today ++ slash ++ sid
                                      ++ slash ++ filename_of now_ms c res))
                               (Some (sha256_hex (res_body res))) downloaded
                               None) w2) as [E1 E2].
              rewrite I in E1, E2. cbn [fst] in E1, E2.
              exists [row_of c u (Some sid)
                        (Some (CHAIN c ++ slash ++ today ++ slash ++ sid
                               ++ slash ++ filename_of now_ms c res))
                        (Some (sha256_hex (res_body res))) downloaded None].
              rewrite E1, E2, L1, L2.
              split; [|split; reflexivity].
              repeat constructor.
      * cbn [fst]. apply Hone; reflexivity.
Qed.


(** An attempt leaves alone every key that has a record. *)
Lemma attempt_untouched (c : Chain) (u url : jsstring) (w : World) :
  has_record (CHAIN c) url (ledger w) ->
  untouched (CHAIN c) url w (fst (attempt c u w)).
Proof.
  intros H.
  destruct (existsb (same_key (CHAIN c) u) (rows (ledger w))) eqn:E.
  - rewrite attempt_known by exact E. apply untouched_refl.
  - assert (Hne : u <> url) by (intros ->; unfold has_record in H; congruence).
    destruct (attempt_new c u w) as (rs & Hrs & Hl & Hf).
    + unfold has_record. congruence.
    + split.
      * rewrite Hl. eapply inserts_other; eauto.
      * unfold fetches. rewrite Hf. now apply count_occ_snoc_other.
Qed.


Lemma attempt_all_untouched (c : Chain) (url : jsstring) (cap : nat)
      (links : list jsstring) :
  forall w n,
    has_record (CHAIN c) url (ledger w) ->
    untouched (CHAIN c) url w (fst (fst (attempt_all c cap links w n))).
Proof.
  induction links as [|u links IH]; intros w n H; simpl.
  - apply untouched_refl.
  - destruct (cap <=? n); [apply untouched_refl|].
    pose proof (attempt_untouched c u url w H) as H'.
    destruct (attempt c u w) as [w' ok]. cbn [fst] in H'.
    eapply untouched_trans; [exact H'|].
    apply IH. eapply untouched_has_record; eauto.
Qed.


Lemma run_pages_untouched (url : jsstring) (pages : nat) :
  forall page cap w n,
    has_record (CHAIN shufersal) url (ledger w) ->
    untouched (CHAIN shufersal) url w
              (world_of (run_pages pages page cap w n)).
Proof.
  induction pages as [|pages IH]; intros page cap w n H; simpl.
  - apply untouched_refl.
  - destruct (page_links page) as [[|u links]|]; try apply untouched_refl.
    pose proof (attempt_all_untouched shufersal url cap (u :: links) w n H)
      as H'.
    destruct (Collector.attempt_all _ _ _ _ _ _ _ _ _ _ _) as [[w' n'] stop].
    cbn [fst] in H'. destruct stop; [exact H'|].
    eapply untouched_trans; [exact H'|].
    apply IH. eapply untouched_has_record; eauto.
Qed.

(** ** The curl collector *)

Lemma upsertRawFile_ledger (row : RawFileInsert) (w : World) :
  ledger (upsertRawFile now row w) = upsert now row (ledger w)
  /\ fetch_log (upsertRawFile now row w) = fetch_log w
  /\ bucket (upsertRawFile now row w) = bucket w.
Proof. repeat split. Qed.



(** Every URL whose name parses is downloaded, whatever the ledger holds. *)
Lemma download_one_fetches (url : jsstring) (w : World) :
  parsePriceFullFilenameFromUrl url_basename url <> None ->
  fetches url (step_world (download_one url w)) = S (fetches url w).
Proof.
  intros Hp. unfold Collector.download_one.
  destruct (parsePriceFullFilenameFromUrl url_basename url)
    as [[[filename storeId] date]|]; [|congruence].
  assert (Hlog : fetches url (log_fetch url w) = S (fetches url w)).
  { unfold fetches, log_fetch. cbn [fetch_log]. rewrite count_occ_app.
    cbn [count_occ].
    destruct (list_eq_dec N.eq_dec url url); [apply Nat.add_1_r|congruence]. }
  destruct (curl url) as [buf|]; [|exact Hlog].
  destruct (negb (isGzip buf)); [exact Hlog|].
  destruct (upload upload_fault true _ buf (log_fetch url w))
    as [w2 [e|]] eqn:U;
    pose proof (upload_frame true
                  (js "yohananof" ++ slash ++ date ++ slash ++ storeId
                   ++ slash ++ filename) buf (log_fetch url w)) as [_ L2];
    rewrite U in L2; cbn [fst] in L2;
    cbn [step_world]; unfold fetches in *; cbn [upsertRawFile with_ledger fetch_log];
    rewrite L2; exact Hlog.
Qed.
End CollectorFacts.


Section PipelineClaims.
Import Collector.
Variable fetch : jsstring -> FetchResult.
Variable curl : jsstring -> option (list N).
Variable upload_fault : jsstring -> option jsstring.
Variable sha256_hex : list N -> jsstring.
Variable today : jsstring.
Variable now_ms : N.
Variable now : N.
Variable url_basename : jsstring -> option jsstring.
Variable page_links : nat -> option (list jsstring).
Variable StringToNumber : jsstring -> Decoder.jsnum.
Variable NumberToString : Decoder.jsnum -> jsstring.
Variable storage_download : jsstring -> jsstring + list N.
Variable ungzip_parse : list N -> option Decoder.Doc.
Variable upsert_error : list Decoder.PriceRow -> option jsstring.

Local Abbreviation attempt :=
  (attempt fetch upload_fault sha256_hex today now_ms now).
Local Abbreviation runYohananofCollector :=
  (runYohananofCollector fetch upload_fault sha256_hex today now_ms now).
Local Abbreviation runShufersalCollector :=
  (runShufersalCollector fetch upload_fault sha256_hex today now_ms now
                         page_links).
Local Abbreviation download_one :=
  (download_one curl upload_fault sha256_hex now url_basename).
Local Abbreviation runYohananofCurlCollector :=
  (runYohananofCurlCollector curl upload_fault sha256_hex now url_basename).
Local Abbreviation parse_file :=
  (Decoder.parse_file StringToNumber NumberToString storage_download
                      ungzip_parse upsert_error).





(** C5 (as amended).  In a run of either collector that downloads with
    [fetch], a URL for which the ledger holds a record with the key of
    the chain is not downloaded, and the records of that key stay as
    they are.  The curl collector does not consult the ledger: it
    downloads every URL whose name it can parse. *)
Theorem known_url_not_refetched :
  (forall url maxDownloads links w,
      has_record (CHAIN yohananof) url (ledger w) ->
      untouched (CHAIN yohananof) url w
                (fst (runYohananofCollector maxDownloads links w)))
  /\ (forall url maxPages maxDownloads w,
         has_record (CHAIN shufersal) url (ledger w) ->
         untouched (CHAIN shufersal) url w
                   (world_of (runShufersalCollector maxPages maxDownloads w)))
  /\ (forall url w,
         parsePriceFullFilenameFromUrl url_basename url <> None ->
         fetches url (step_world (download_one url w)) = S (fetches url w)).
Proof.
  split; [|split].
  - intros url maxDownloads links w H. unfold Collector.runYohananofCollector.
    destruct links as [|u links]; [apply untouched_refl|].
    now apply attempt_all_untouched.
  - intros url maxPages maxDownloads w H.
    unfold Collector.runShufersalCollector. now apply run_pages_untouched.
  - intros url w H. now apply download_one_fetches.
Qed.
End PipelineClaims.

(* ================================================================== *)
(** * The pipeline on the sample inputs *)
(* ================================================================== *)






Lemma known_url_not_refetched_witness :
  untouched (js "shufersal") SampleNet.shufersal_url SampleNet.shufersal_failed
    (Collector.world_of
       (Collector.runShufersalCollector SampleNet.fetch_gz SampleNet.no_fault
          SampleNet.sha SampleNet.today SampleNet.now_ms 2000%N
          SampleNet.one_page (Some 50) (Some 50) SampleNet.shufersal_failed)).
Proof.
  apply (proj1 (proj2 (known_url_not_refetched SampleNet.fetch_gz
                         SampleNet.curl_gz SampleNet.no_fault SampleNet.sha
                         SampleNet.today SampleNet.now_ms 2000%N
                         SampleNet.basename SampleNet.one_page))).
  reflexivity.
Defined.

(** C5 (as stated) fails.  The curl collector downloads a URL again
    although the ledger holds its record, and overwrites that record. *)
Lemma curl_collector_refetches :
  has_record (js "yohananof") Sample.file_url
    (Collector.ledger SampleNet.yohananof_failed)
  /\ fetches Sample.file_url SampleNet.yohananof_failed = 0
  /\ fetches Sample.file_url
       (Collector.world_of
          (Collector.runYohananofCurlCollector SampleNet.curl_gz
             SampleNet.no_fault SampleNet.sha 2000%N SampleNet.basename None
             [Sample.file_url] SampleNet.yohananof_failed)) = 1
  /\ SampleNet.status_of (js "yohananof") Sample.file_url
       SampleNet.yohananof_failed = Some failed
  /\ SampleNet.status_of (js "yohananof") Sample.file_url
       (Collector.world_of
          (Collector.runYohananofCurlCollector SampleNet.curl_gz
             SampleNet.no_fault SampleNet.sha 2000%N SampleNet.basename None
             [Sample.file_url] SampleNet.yohananof_failed)) = Some downloaded.
Proof. repeat split; vm_compute; reflexivity. Qed.

(* ================================================================== *)
(** * Daily aggregation *)
(* ================================================================== *)

Section AggregateFacts.
Import Aggregate.

Lemma key_eqb_eq (a b : key) : key_eqb a b = true <-> a = b.
Proof. unfold key_eqb. destruct (key_eq_dec a b); split; congruence. Qed.

Lemma key_eqb_refl (a : key) : key_eqb a a = true.
Proof. now apply key_eqb_eq. Qed.

Lemma key_eqb_neq (a b : key) : key_eqb a b = false <-> a <> b.
Proof. unfold key_eqb. destruct (key_eq_dec a b); split; congruence. Qed.

Lemma find_upsert_same (s : Stats) (t : list Stats) :
  find_stats (stats_key s) (upsert_stats s t) = Some s.
Proof.
  unfold find_stats. induction t as [|x t IH]; simpl.
  - now rewrite key_eqb_refl.
  - destruct (key_eqb (stats_key s) (stats_key x)) eqn:E; simpl.
    + now rewrite key_eqb_refl.
    + now rewrite E.
Qed.

Lemma find_upsert_other (k : key) (s : Stats) (t : list Stats) :
  k <> stats_key s -> find_stats k (upsert_stats s t) = find_stats k t.
Proof.
  intros Hne. apply key_eqb_neq in Hne.
  unfold find_stats. induction t as [|x t IH]; simpl.
  - now rewrite Hne.
  - destruct (key_eqb (stats_key s) (stats_key x)) eqn:E; simpl.
    + apply key_eqb_eq in E. rewrite <- E, Hne. reflexivity.
    + now rewrite IH.
Qed.

Lemma find_upsert_all_other (k : key) (news : list Stats) :
  forall t, ~ In k (List.map stats_key news) ->
            find_stats k (fold_left (fun acc s => upsert_stats s acc) news t)
            = find_stats k t.
Proof.
  induction news as [|s news IH]; intros t H; simpl; [reflexivity|].
  rewrite IH by (intros Hin; apply H; now right).
  apply find_upsert_other. intros ->. apply H. now left.
Qed.

(** Each computed row is the one stored for its key. *)
Lemma find_upsert_all (s : Stats) (news : list Stats) :
  NoDup (List.map stats_key news) -> In s news ->
  forall t, find_stats (stats_key s)
              (fold_left (fun acc x => upsert_stats x acc) news t) = Some s.
Proof.
  induction news as [|x news IH]; intros Hnd Hin t; [contradiction|].
  simpl in Hnd. inversion Hnd as [|? ? Hx Hnd']; subst.
  simpl. destruct Hin as [->|Hin].
  - rewrite find_upsert_all_other by exact Hx. apply find_upsert_same.
  - now apply IH.
Qed.

Lemma stats_key_of (k : key) (ms : list Price) : stats_key (stats_of k ms) = k.
Proof. destruct k as [[d c] x]. reflexivity. Qed.

Lemma select_stats_keys (now : Z) (tbl : list Price) :
  List.map stats_key (select_stats now tbl)
  = nodup key_eq_dec (List.map key_of (filter (in_scope now) tbl)).
Proof.
  unfold select_stats. rewrite map_map.
  rewrite <- (map_id (nodup _ _)) at 2. apply map_ext.
  intros k. apply stats_key_of.
Qed.

(** The statement stores, for every group in scope, the aggregates of
    its members. *)
Lemma aggregate_daily_group (now : Z) (tbl : list Price) (stats : list Stats)
      (k : key) :
  members k (filter (in_scope now) tbl) <> [] ->
  find_stats k (aggregate_daily now tbl stats)
  = Some (stats_of k (members k (filter (in_scope now) tbl))).
Proof.
  intros Hne. unfold aggregate_daily.
  rewrite <- (stats_key_of k (members k (filter (in_scope now) tbl))) at 1.
  apply find_upsert_all.
  - rewrite select_stats_keys. apply NoDup_nodup.
  - unfold select_stats. apply in_map_iff. exists k. split; [reflexivity|].
    apply nodup_In.
    destruct (members k (filter (in_scope now) tbl)) as [|p ms] eqn:E;
      [congruence|].
    assert (Hp : In p (members k (filter (in_scope now) tbl)))
      by (rewrite E; now left).
    unfold members in Hp. apply filter_In in Hp. destruct Hp as [Hp Hk].
    apply key_eqb_eq in Hk. rewrite Hk. now apply in_map.
Qed.

Lemma filter_filter_implied (A : Type) (f g : A -> bool) (l : list A) :
  (forall x, f x = true -> g x = true) ->
  filter f (filter g l) = filter f l.
Proof.
  intros H. induction l as [|x l IH]; [reflexivity|].
  simpl. destruct (g x) eqn:G; simpl.
  - now rewrite IH.
  - destruct (f x) eqn:F; [|exact IH].
    apply H in F. congruence.
Qed.

Lemma three_prices (ps : list Q) :
  Permutation ps [10; 12; 11]%Q ->
  ps = [10; 12; 11]%Q \/ ps = [10; 11; 12]%Q \/ ps = [12; 10; 11]%Q
  \/ ps = [12; 11; 10]%Q \/ ps = [11; 10; 12]%Q \/ ps = [11; 12; 10]%Q.
Proof.
  intros H. pose proof (Permutation_length H) as L.
  destruct ps as [|x [|y [|z [|]]]]; try discriminate.
  assert (Hx : In x [10; 12; 11]%Q)
    by (eapply Permutation_in; [exact H|simpl; auto]).
  assert (Hy : In y [10; 12; 11]%Q)
    by (eapply Permutation_in; [exact H|simpl; auto]).
  assert (Hz : In z [10; 12; 11]%Q)
    by (eapply Permutation_in; [exact H|simpl; auto]).
  apply Permutation_sym in H.
  assert (H10 : In 10%Q [x; y; z])
    by (eapply Permutation_in; [exact H|simpl; auto]).
  assert (H12 : In 12%Q [x; y; z])
    by (eapply Permutation_in; [exact H|simpl; auto]).
  assert (H11 : In 11%Q [x; y; z])
    by (eapply Permutation_in; [exact H|simpl; auto 6]).
  clear H L. simpl in *.
  destruct Hx as [<-|[<-|[<-|[]]]]; destruct Hy as [<-|[<-|[<-|[]]]];
    destruct Hz as [<-|[<-|[<-|[]]]];
    first [ solve [repeat (first [left; reflexivity | right]); reflexivity]
          | exfalso; intuition discriminate ].
Qed.

(** C8.  When the rows of a group (day, chain, canonical key) that lie in
    the window have the prices 10, 12 and 11, in any order, the
    aggregation, once its statement is executed, stores for the group
    the average 11 (rounded to two decimals), the count 3, the minimum 10
    and the maximum 12; and the rows without canonical key have no part
    in what is stored. *)
Theorem daily_stats_of_three_prices (now : Z) (tbl : list Price)
        (stats : list Stats) (d : Z) (c k : jsstring) :
  Permutation
    (List.map price (members (d, c, k) (filter (in_scope now) tbl)))
    [10; 12; 11]%Q ->
  find_stats (d, c, k) (main None now tbl stats)
  = Some {| day := d; s_chain := c; s_canonical_key := k;
            avg_price := 11; sample_count := 3;
            min_price := 10; max_price := 12 |}
  /\ main None now tbl stats
     = main None now
         (filter (fun p => match canonical_key p with
                           | Some _ => true
                           | None => false
                           end) tbl) stats.
Proof.
  intros Hp. cbn [main]. split.
  - rewrite aggregate_daily_group.
    + unfold stats_of. cbn [fst snd].
      destruct (three_prices _ Hp) as [E|[E|[E|[E|[E|E]]]]]; rewrite E;
        vm_compute; reflexivity.
    + intros E. rewrite E in Hp. apply Permutation_length in Hp. discriminate.
  - unfold aggregate_daily, select_stats.
    rewrite filter_filter_implied; [reflexivity|].
    intros p. unfold in_scope. destruct (canonical_key p); auto.
Qed.
End AggregateFacts.

Lemma daily_stats_of_three_prices_witness :
  Aggregate.find_stats SamplePrices.milk_key
    (Aggregate.main None SamplePrices.now SamplePrices.table [])
  = Some {| Aggregate.day := 20467; Aggregate.s_chain := js "yohananof";
            Aggregate.s_canonical_key := js "Milk";
            Aggregate.avg_price := 11; Aggregate.sample_count := 3;
            Aggregate.min_price := 10; Aggregate.max_price := 12 |}.
Proof.
  refine (proj1 (daily_stats_of_three_prices SamplePrices.now
                   SamplePrices.table [] 20467%Z (js "yohananof") (js "Milk")
                   _)).
  vm_compute. apply Permutation_refl.
Defined.

(* ================================================================== *)
(** * Completeness of the matcher on runs and literals *)
(* ================================================================== *)

Section MatcherRuns.
Variable icase : bool.
Variable A : Type.

Lemma char_eq_refl (c : N) : char_eq icase c c = true.
Proof. unfold char_eq. destruct icase; apply N.eqb_refl. Qed.

Lemma rmatch_rseq_cons (r : regex) (l : list regex) (s : jsstring)
      (cs : captures) (k : jsstring -> captures -> option A) :
  rmatch icase (rseq (r :: l)) s cs k
  = rmatch icase r s cs (fun s1 c1 => rmatch icase (rseq l) s1 c1 k).
Proof. reflexivity. Qed.

Lemma rmatch_rseq_nil (s : jsstring) (cs : captures)
      (k : jsstring -> captures -> option A) :
  rmatch icase (rseq []) s cs k = k s cs.
Proof. reflexivity. Qed.

(** A literal matches itself. *)
Lemma rmatch_rlit (l s : jsstring) (cs : captures)
      (k : jsstring -> captures -> option A) :
  rmatch icase (rlit l) (l ++ s) cs k = k s cs.
Proof.
  unfold rlit. induction l as [|c l IH]; [reflexivity|].
  cbn [List.map app]. rewrite rmatch_rseq_cons. cbn [rmatch].
  rewrite char_eq_refl. exact IH.
Qed.

Lemma rmatch_char (c : N) (s : jsstring) (cs : captures)
      (k : jsstring -> captures -> option A) :
  rmatch icase (RChar c) (c :: s) cs k = k s cs.
Proof. cbn [rmatch]. now rewrite char_eq_refl. Qed.

(** A literal fails where the input starts otherwise. *)
Lemma rmatch_rlit_head (x : N) (l : jsstring) (s : jsstring) (cs : captures)
      (k : jsstring -> captures -> option A) :
  match s with [] => True | c :: _ => char_eq icase x c = false end ->
  rmatch icase (rlit (x :: l)) s cs k = None.
Proof.
  intros H. unfold rlit. cbn [List.map]. rewrite rmatch_rseq_cons.
  cbn [rmatch]. destruct s as [|c s]; [reflexivity|]. now rewrite H.
Qed.

(** A greedy repetition takes the whole run first: when the continuation
    accepts what follows the run, that is the result. *)
Lemma rep_run (p : N -> bool) (d rest : jsstring) (a : A) :
  forall lo hi (k : jsstring -> option A),
    all_in p d -> starts_out p rest -> within lo hi (length d) ->
    k rest = Some a ->
    rep p lo hi (d ++ rest) k = Some a.
Proof.
  induction d as [|c d IH]; intros lo hi k Hd Hr [Hlo Hhi] Hk.
  - simpl in Hlo. assert (lo = 0) by lia. subst lo. cbn [app].
    destruct rest as [|x rest]; cbn [rep]; [exact Hk|].
    simpl in Hr. rewrite Hr. cbn [andb]. exact Hk.
  - inversion Hd as [|? ? Hc Hd']; subst. cbn [app rep]. rewrite Hc.
    assert (Hopen : hi_open hi = true).
    { destruct hi as [[|h]|]; auto. specialize (Hhi 0 eq_refl).
      simpl in Hhi. lia. }
    rewrite Hopen. cbn [andb].
    rewrite (IH (pred lo) (option_map pred hi) k); auto.
    split.
    + simpl in Hlo. lia.
    + intros h Hh. destruct hi as [h'|]; [|discriminate].
      simpl in Hh. injection Hh as <-. specialize (Hhi h' eq_refl).
      simpl in Hhi. lia.
Qed.

(** A repetition over a run fails when the continuation fails wherever
    the run can be cut. *)
Lemma rep_run_fail (p : N -> bool) (d rest : jsstring) :
  forall lo hi (k : jsstring -> option A),
    all_in p d -> starts_out p rest ->
    (forall d1 d2, d = d1 ++ d2 -> k (d2 ++ rest) = None) ->
    rep p lo hi (d ++ rest) k = None.
Proof.
  induction d as [|c d IH]; intros lo hi k Hd Hr Hk.
  - cbn [app]. pose proof (Hk [] [] eq_refl) as H0. cbn [app] in H0.
    destruct rest as [|x rest]; cbn [rep].
    + destruct lo; auto.
    + simpl in Hr. rewrite Hr. cbn [andb]. destruct lo; auto.
  - inversion Hd as [|? ? Hc Hd']; subst. cbn [app rep].
    pose proof (Hk [] (c :: d) eq_refl) as H0. cbn [app] in H0.
    rewrite IH; auto.
    + destruct (p c && hi_open hi); destruct lo; auto.
    + intros d1 d2 ->. apply (Hk (c :: d1) d2). reflexivity.
Qed.
End MatcherRuns.

Lemma search_here (icase : bool) (r : regex) (s rest : jsstring)
      (c : captures) :
  match_here icase r s = Some (c, rest) -> search icase r s = Some c.
Proof. intros H. destruct s; simpl; now rewrite H. Qed.

(** A pattern that starts with a literal matches nowhere in a string
    that nowhere has the first character of the literal. *)
Lemma search_no_head (icase : bool) (x : N) (l : jsstring)
      (rs : list regex) (s : jsstring) :
  Forall (fun c => char_eq icase x c = false) s ->
  search icase (rseq (rlit (x :: l) :: rs)) s = None.
Proof.
  intros H. apply search_none. intros m t ->.
  apply Forall_app in H. destruct H as [_ H].
  unfold match_here. rewrite rmatch_rseq_cons. apply rmatch_rlit_head.
  destruct t as [|c t]; [exact I|]. now inversion H.
Qed.

Lemma search_skip (icase : bool) (r : regex) (c : N) (s : jsstring) :
  match_here icase r (c :: s) = None ->
  search icase r (c :: s) = search icase r s.
Proof. intros H. simpl. now rewrite H. Qed.

(** ** Counting a literal *)

Lemma occurrences_app (x : N) (a b : jsstring) :
  occurrences x (a ++ b) = occurrences x a + occurrences x b.
Proof. unfold occurrences. now rewrite filter_app, length_app. Qed.

Lemma char_eq_dash (icase : bool) (y : N) :
  char_eq icase 45 y = true -> y = 45%N.
Proof.
  unfold char_eq, canon. destruct icase.
  - change ((97 <=? 45)%N && (45 <=? 122)%N) with false. cbv iota.
    destruct ((97 <=? y)%N && (y <=? 122)%N) eqn:E.
    + apply andb_true_iff in E. destruct E as [E1 E2].
      apply N.leb_le in E1, E2. intros H. apply N.eqb_eq in H. lia.
    + intros H. apply N.eqb_eq in H. congruence.
  - intros H. apply N.eqb_eq in H. congruence.
Qed.

(** Every match holds at least as many dashes as the pattern has
    literal dashes on each of its paths. *)
Lemma rmatch_dashes (icase : bool) (A : Type) (r : regex) :
  forall s cs (k : jsstring -> captures -> option A) a,
    rmatch icase r s cs k = Some a ->
    exists m s' cs', s = m ++ s'
                     /\ min_occurrences 45 r <= occurrences 45 m
                     /\ k s' cs' = Some a.
Proof.
  induction r; intros s cs k a H; simpl in H.
  - exists [], s, cs. simpl. auto.
  - destruct s as [|y s]; [discriminate|].
    destruct (char_eq icase c y) eqn:E; [|discriminate].
    exists [y], s, cs. repeat split; auto. cbn [min_occurrences].
    destruct (N.eqb 45 c) eqn:Ec; [|lia].
    apply N.eqb_eq in Ec. subst c. apply char_eq_dash in E. subst y.
    reflexivity.
  - destruct s as [|y s]; [discriminate|].
    destruct (p y); [|discriminate].
    exists [y], s, cs. simpl. repeat split; auto. lia.
  - apply IHr1 in H. destruct H as (m1 & s1 & c1 & -> & L1 & H).
    apply IHr2 in H. destruct H as (m2 & s2 & c2 & -> & L2 & H).
    exists (m1 ++ m2), s2, c2. rewrite <- app_assoc, occurrences_app.
    cbn [min_occurrences]. repeat split; auto. lia.
  - destruct (rmatch icase r1 s cs k) eqn:H1.
    + inversion H; subst. apply IHr1 in H1.
      destruct H1 as (m & s' & c' & -> & L & H1).
      exists m, s', c'. cbn [min_occurrences]. repeat split; auto. lia.
    + apply IHr2 in H. destruct H as (m & s' & c' & -> & L & H).
      exists m, s', c'. cbn [min_occurrences]. repeat split; auto. lia.
  - destruct (rmatch icase r s cs k) eqn:H1.
    + inversion H; subst. apply IHr in H1.
      destruct H1 as (m & s' & c' & -> & L & H1).
      exists m, s', c'. cbn [min_occurrences]. repeat split; auto. lia.
    + exists [], s, cs. simpl. repeat split; auto.
  - apply rep_sound in H. destruct H as (d & s1 & -> & _ & _ & H).
    exists d, s1, cs. cbn [min_occurrences]. repeat split; auto. lia.
  - apply IHr in H. destruct H as (m & s' & c' & -> & L & H).
    eexists m, s', _. cbn [min_occurrences]. repeat split; eauto.
  - destruct s; [|discriminate]. exists [], [], cs. simpl. auto.
Qed.

(** A pattern matches nowhere in a string with fewer dashes than it needs. *)
Lemma search_few_dashes (icase : bool) (r : regex) (s : jsstring) :
  occurrences 45 s < min_occurrences 45 r -> search icase r s = None.
Proof.
  intros H. apply search_none. intros m t ->.
  destruct (match_here icase r t) as [[c rest]|] eqn:E; [|reflexivity].
  unfold match_here in E. apply rmatch_dashes in E.
  destruct E as (m' & s' & c' & -> & L & _).
  rewrite !occurrences_app in H. lia.
Qed.

Lemma digits_no_dash (d : jsstring) : digits d -> occurrences 45 d = 0.
Proof.
  induction 1 as [|c d Hc _ IH]; [reflexivity|].
  unfold occurrences in *. cbn [filter].
  destruct (N.eqb 45 c) eqn:E; [|exact IH].
  apply N.eqb_eq in E. subst c. discriminate.
Qed.

Lemma digit_not_char (icase : bool) (x c : N) :
  is_digit c = true -> is_digit x = false -> is_digit (canon x) = false ->
  char_eq icase x c = false.
Proof.
  intros Hc Hx Hx'. unfold char_eq.
  assert (Hcc : canon c = c).
  { unfold canon. unfold is_digit in Hc. apply andb_true_iff in Hc.
    destruct Hc as [H1 H2]. apply N.leb_le in H1, H2.
    destruct ((97 <=? c)%N && (c <=? 122)%N) eqn:E; auto.
    apply andb_true_iff in E. destruct E as [E1 _]. apply N.leb_le in E1. lia. }
  destruct icase.
  - rewrite Hcc. apply N.eqb_neq. intros E. rewrite E in Hx'. congruence.
  - apply N.eqb_neq. intros E. subst x. congruence.
Qed.

Lemma digits_no_char (icase : bool) (x : N) (d : jsstring) :
  digits d -> is_digit x = false -> is_digit (canon x) = false ->
  Forall (fun c => char_eq icase x c = false) d.
Proof.
  intros Hd Hx Hx'. eapply Forall_impl; [|exact Hd].
  intros c Hc. now apply digit_not_char.
Qed.

(* ================================================================== *)
(** * The published name forms *)
(* ================================================================== *)

Lemma firstn_run (d r : jsstring) :
  firstn (length (d ++ r) - length r) (d ++ r) = d.
Proof.
  rewrite length_app, Nat.add_sub, firstn_app, Nat.sub_diag, firstn_all.
  simpl. apply app_nil_r.
Qed.

Lemma rmatch_dash (icase : bool) (A : Type) (s : jsstring) (cs : captures)
      (k : jsstring -> captures -> option A) :
  rmatch icase dash (js "-" ++ s) cs k = k s cs.
Proof. apply rmatch_char. Qed.

Lemma rmatch_dot_gz (icase : bool) (A : Type) (cs : captures)
      (k : jsstring -> captures -> option A) :
  rmatch icase dot_gz (js ".gz") cs k = k [] cs.
Proof.
  rewrite <- (app_nil_r (js ".gz")) at 1. apply rmatch_rlit.
Qed.

Lemma within_exact (n : nat) : within n (Some n) n.
Proof. split; [lia|]. intros h [= <-]. lia. Qed.

Lemma within_store (n : nat) : 1 <= n <= 4 -> within 1 (Some 4) n.
Proof. intros H. split; [lia|]. intros h [= <-]. lia. Qed.

Lemma within_open (n : nat) : 1 <= n -> within 1 None n.
Proof. intros H. split; [lia|discriminate]. Qed.

(** One step of a run of the matcher over a name. *)
Ltac step_lit :=
  rewrite rmatch_rseq_cons;
  first [ rewrite rmatch_rlit | rewrite rmatch_dash | rewrite rmatch_dot_gz ].

Ltac step_run H L :=
  rewrite rmatch_rseq_cons;
  unfold digits1, digitsN, store_group; cbn [rmatch];
  apply rep_run;
  [ exact H
  | reflexivity
  | first [ apply within_open; exact L
          | apply within_store; exact L
          | rewrite <- L; apply within_exact ]
  | cbv beta; rewrite ?firstn_run ].

Section Names.
Variables chain sub store st d8 t6 : jsstring.
Hypothesis Hchain : number chain.
Hypothesis Hsub : number sub.
Hypothesis Hstore : store_number store.
Hypothesis Hst : stamp 12 st.
Hypothesis Hd8 : stamp 8 d8.
Hypothesis Ht6 : stamp 6 t6.

Ltac no_head :=
  repeat (apply Forall_app; split);
  first [ apply digits_no_char;
          [ first [ apply (proj1 Hchain) | apply (proj1 Hsub)
                  | apply (proj1 Hstore) | apply (proj1 Hst)
                  | apply (proj1 Hd8) | apply (proj1 Ht6) ]
          | reflexivity | reflexivity ]
        | repeat constructor ].

Ltac count_dashes :=
  unfold name2, name3, name4; rewrite !occurrences_app;
  rewrite ?(digits_no_dash _ (proj1 Hchain)), ?(digits_no_dash _ (proj1 Hsub)),
    ?(digits_no_dash _ (proj1 Hstore)), ?(digits_no_dash _ (proj1 Hst)),
    ?(digits_no_dash _ (proj1 Hd8)), ?(digits_no_dash _ (proj1 Ht6));
  vm_compute; lia.

Lemma accepts_sub_store (prefix : jsstring) :
  match_here true
    (rseq [rlit prefix; digits1; dash; digits1; dash; store_group; dash;
           digitsN 12; dot_gz])
    (name3 prefix chain sub store st)
  = Some ([(1, store)], []).
Proof.
  unfold match_here, name3.
  step_lit. step_run (proj1 Hchain) (proj2 Hchain). step_lit. step_run (proj1 Hsub) (proj2 Hsub). step_lit.
  step_run (proj1 Hstore) (proj2 Hstore). step_lit. step_run (proj1 Hst) (proj2 Hst). step_lit. reflexivity.
Qed.

Lemma accepts_store (prefix : jsstring) :
  match_here true
    (rseq [rlit prefix; digits1; dash; store_group; dash; digitsN 12; dot_gz])
    (name2 prefix chain store st)
  = Some ([(1, store)], []).
Proof.
  unfold match_here, name2.
  step_lit. step_run (proj1 Hchain) (proj2 Hchain). step_lit. step_run (proj1 Hstore) (proj2 Hstore). step_lit.
  step_run (proj1 Hst) (proj2 Hst). step_lit. reflexivity.
Qed.

Lemma accepts_long (prefix : jsstring) :
  match_here true
    (rseq [rlit prefix; digits1; dash; digits1; dash; store_group; dash;
           digitsN 8; dash; digitsN 6; dot_gz])
    (name4 prefix chain sub store d8 t6)
  = Some ([(1, store)], []).
Proof.
  unfold match_here, name4.
  step_lit. step_run (proj1 Hchain) (proj2 Hchain). step_lit. step_run (proj1 Hsub) (proj2 Hsub). step_lit.
  step_run (proj1 Hstore) (proj2 Hstore). step_lit. step_run (proj1 Hd8) (proj2 Hd8). step_lit. step_run (proj1 Ht6) (proj2 Ht6).
  step_lit. reflexivity.
Qed.

(** X1.  The Yohananof resolver returns the store number, padded on the
    left with zeros to three digits, for every name of its two published
    forms: [PriceFull], the chain, an optional sub-chain, the store
    number of one to four digits, and a stamp of twelve digits. *)
Theorem yohananof_resolves_published_names :
  Yohananof.extractStoreIdFromFilename
    (name3 (js "PriceFull") chain sub store st)
  = Some (padStart 3 (js "0") store)
  /\ Yohananof.extractStoreIdFromFilename
       (name2 (js "PriceFull") chain store st)
     = Some (padStart 3 (js "0") store).
Proof.
  unfold Yohananof.extractStoreIdFromFilename, Yohananof.grammars.
  cbn [first_grammar]. split.
  - unfold Yohananof.g_sub_store.
    now rewrite (search_here _ _ _ _ _ (accepts_sub_store (js "PriceFull"))).
  - rewrite (search_few_dashes true Yohananof.g_sub_store) by count_dashes.
    unfold Yohananof.g_store.
    now rewrite (search_here _ _ _ _ _ (accepts_store (js "PriceFull"))).
Qed.

Lemma price_grammar_not_in_full_name (rs : list regex) (rest : jsstring) :
  Forall (fun c => char_eq true 80 c = false) rest ->
  search true (rseq (rlit (js "Price") :: digits1 :: rs))
         (js "PriceFull" ++ rest) = None.
Proof.
  intros H.
  change (js "PriceFull" ++ rest) with (80%N :: (js "riceFull" ++ rest)).
  rewrite search_skip by reflexivity.
  change (js "Price") with (80%N :: js "rice").
  apply search_no_head. apply Forall_app. split; [repeat constructor|exact H].
Qed.

(** X2.  The Shufersal resolver returns the store number, padded on the
    left with zeros to three digits, for every name of its four
    published forms: [Price] or [PriceFull], then the chain, the
    sub-chain, the store number, a date of eight and a time of six
    digits, or the chain, the store number and a stamp of twelve digits. *)
Theorem shufersal_resolves_published_names :
  Shufersal.extractStoreIdFromFilename
    (name4 (js "Price") chain sub store d8 t6)
  = Some (padStart 3 (js "0") store)
  /\ Shufersal.extractStoreIdFromFilename (name2 (js "Price") chain store st)
     = Some (padStart 3 (js "0") store)
  /\ Shufersal.extractStoreIdFromFilename
       (name4 (js "PriceFull") chain sub store d8 t6)
     = Some (padStart 3 (js "0") store)
  /\ Shufersal.extractStoreIdFromFilename
       (name2 (js "PriceFull") chain store st)
     = Some (padStart 3 (js "0") store).
Proof.
  unfold Shufersal.extractStoreIdFromFilename, Shufersal.grammars.
  cbn [first_grammar]. repeat split.
  - unfold Shufersal.g_price_long.
    now rewrite (search_here _ _ _ _ _ (accepts_long (js "Price"))).
  - rewrite (search_few_dashes true Shufersal.g_price_long) by count_dashes.
    unfold Shufersal.g_price_short.
    now rewrite (search_here _ _ _ _ _ (accepts_store (js "Price"))).
  - unfold Shufersal.g_price_long at 1, Shufersal.g_price_short at 1, name4.
    rewrite !price_grammar_not_in_full_name by no_head.
    fold (name4 (js "PriceFull") chain sub store d8 t6).
    unfold Shufersal.g_full_long.
    now rewrite (search_here _ _ _ _ _ (accepts_long (js "PriceFull"))).
  - rewrite (search_few_dashes true Shufersal.g_price_long) by count_dashes.
    unfold Shufersal.g_price_short at 1, name2.
    rewrite price_grammar_not_in_full_name by no_head.
    fold (name2 (js "PriceFull") chain store st).
    rewrite (search_few_dashes true Shufersal.g_full_long) by count_dashes.
    unfold Shufersal.g_full_short.
    now rewrite (search_here _ _ _ _ _ (accepts_store (js "PriceFull"))).
Qed.
End Names.

Lemma yohananof_resolves_published_names_witness :
  Yohananof.extractStoreIdFromFilename
    (name3 (js "PriceFull") (js "7290803800003") (js "1") (js "9")
           (js "202601140501"))
  = Some (padStart 3 (js "0") (js "9"))
  /\ Yohananof.extractStoreIdFromFilename
       (name2 (js "PriceFull") (js "7290803800003") (js "9")
              (js "202601140501"))
     = Some (padStart 3 (js "0") (js "9")).
Proof.
  apply yohananof_resolves_published_names.
  - split; [repeat constructor|simpl; lia].
  - split; [repeat constructor|simpl; lia].
  - split; [repeat constructor|simpl; lia].
  - split; [repeat constructor|reflexivity].
Defined.

Lemma shufersal_resolves_published_names_witness :
  Shufersal.extractStoreIdFromFilename
    (name4 (js "Price") (js "7290027600007") (js "001") (js "42")
           (js "20260114") (js "030000"))
  = Some (padStart 3 (js "0") (js "42"))
  /\ Shufersal.extractStoreIdFromFilename
       (name2 (js "Price") (js "7290027600007") (js "42") (js "202601140300"))
     = Some (padStart 3 (js "0") (js "42"))
  /\ Shufersal.extractStoreIdFromFilename
       (name4 (js "PriceFull") (js "7290027600007") (js "001") (js "42")
              (js "20260114") (js "030000"))
     = Some (padStart 3 (js "0") (js "42"))
  /\ Shufersal.extractStoreIdFromFilename
       (name2 (js "PriceFull") (js "7290027600007") (js "42")
              (js "202601140300"))
     = Some (padStart 3 (js "0") (js "42")).
Proof.
  apply shufersal_resolves_published_names.
  - split; [repeat constructor|simpl; lia].
  - split; [repeat constructor|simpl; lia].
  - split; [repeat constructor|simpl; lia].
  - split; [repeat constructor|reflexivity].
  - split; [repeat constructor|reflexivity].
  - split; [repeat constructor|reflexivity].
Defined.

(* ================================================================== *)
(** * The name parser of the curl collector *)
(* ================================================================== *)

Lemma stamp_date_slices (st : jsstring) :
  length st = 12 ->
  Collector.slice 0 4 (Collector.slice 0 8 st) ++ js "-"
  ++ Collector.slice 4 6 (Collector.slice 0 8 st) ++ js "-"
  ++ Collector.slice 6 8 (Collector.slice 0 8 st)
  = stamp_date st.
Proof.
  intros H.
  do 12 (destruct st as [|? st]; [discriminate|]).
  destruct st; [reflexivity|discriminate].
Qed.

Lemma stamp_date_length (st : jsstring) :
  length st = 12 -> length (stamp_date st) = 10.
Proof.
  intros H.
  do 12 (destruct st as [|? st]; [discriminate|]).
  destruct st; [reflexivity|discriminate].
Qed.

Lemma name_groups_ok : groups_ok name_capture Collector.re_price_full_name.
Proof.
  cbn.
  repeat match goal with
         | |- _ /\ _ => split
         | |- True => exact I
         end;
    intros d Hd [Hlo Hhi]; (split; [split; [exact Hd|lia]|]).
  - discriminate.
  - discriminate.
  - intros _. split; [exact Hd|]. specialize (Hhi 12 eq_refl). lia.
Qed.

Section NameParser.
Variable url_basename : jsstring -> option jsstring.

Local Abbreviation parsePriceFullFilenameFromUrl :=
  (Collector.parsePriceFullFilenameFromUrl url_basename).

(** X3.  The name parser of the curl collector reads a base name of the
    form [PriceFull], chain, store number, stamp of twelve digits back
    into that name, its store number and the date of the stamp; and
    whatever it returns is the base name of the URL, a store number that
    is a non-empty run of digits, and the date of a stamp of twelve
    digits. *)
Theorem parsePriceFullFilenameFromUrl_reads_names (url : jsstring) :
  (forall chain store st,
      number chain -> number store -> stamp 12 st ->
      url_basename url = Some (name2 (js "PriceFull") chain store st) ->
      parsePriceFullFilenameFromUrl url
      = Some (name2 (js "PriceFull") chain store st, store, stamp_date st))
  /\ (forall filename storeId date,
         parsePriceFullFilenameFromUrl url = Some (filename, storeId, date) ->
         url_basename url = Some filename
         /\ number storeId
         /\ exists st, stamp 12 st /\ date = stamp_date st).
Proof.
  split.
  - intros chain store st [Dc Lc] [Ds Ls] [Dt Lt] Hb.
    unfold Collector.parsePriceFullFilenameFromUrl. rewrite Hb.
    assert (Hm : match_here true Collector.re_price_full_name
                   (name2 (js "PriceFull") chain store st)
                 = Some ([(3, st); (2, store); (1, chain)], [])).
    { unfold match_here, Collector.re_price_full_name, name2.
      rewrite rmatch_rseq_cons, rmatch_rlit.
      rewrite rmatch_rseq_cons. unfold digits1. cbn [rmatch].
      apply rep_run;
        [exact Dc|reflexivity|apply within_open; exact Lc|cbv beta].
      rewrite firstn_run, rmatch_rseq_cons, rmatch_dash.
      rewrite rmatch_rseq_cons. cbn [rmatch].
      apply rep_run;
        [exact Ds|reflexivity|apply within_open; exact Ls|cbv beta].
      rewrite firstn_run, rmatch_rseq_cons, rmatch_dash.
      rewrite rmatch_rseq_cons. unfold digitsN. cbn [rmatch].
      apply rep_run;
        [exact Dt|reflexivity|rewrite <- Lt; apply within_exact|cbv beta].
      rewrite firstn_run, rmatch_rseq_cons, rmatch_dot_gz.
      reflexivity. }
    unfold match_start. rewrite Hm. cbn [capture Nat.eqb].
    now rewrite (stamp_date_slices st Lt).
  - intros filename storeId date H.
    unfold Collector.parsePriceFullFilenameFromUrl in H.
    destruct (url_basename url) as [name|]; [|discriminate].
    unfold match_start in H.
    destruct (match_here true Collector.re_price_full_name name)
      as [[m rest]|] eqn:Hm; [|discriminate].
    pose proof (match_here_caps name_capture _ _ _ name_groups_ok Hm)
      as Hok.
    destruct (capture 2 m) as [s|] eqn:C2; [|discriminate].
    destruct (capture 3 m) as [t|] eqn:C3; [|discriminate].
    injection H as <- <- <-.
    destruct (capture_ok (Q:=name_capture) _ Hok C2) as [Hs _].
    destruct (capture_ok (Q:=name_capture) _ Hok C3) as [_ Ht].
    specialize (Ht eq_refl).
    split; [reflexivity|]. split; [exact Hs|].
    exists t. split; [exact Ht|].
    exact (stamp_date_slices t (proj2 Ht)).
Qed.
End NameParser.

Lemma parsePriceFullFilenameFromUrl_reads_names_witness :
  Collector.parsePriceFullFilenameFromUrl SampleNet.basename Sample.file_url
  = Some (name2 (js "PriceFull") (js "7290803800003") (js "009")
                (js "202601140501"),
          js "009", stamp_date (js "202601140501")).
Proof.
  apply (proj1 (parsePriceFullFilenameFromUrl_reads_names SampleNet.basename
                  Sample.file_url)).
  - split; [repeat constructor|simpl; lia].
  - split; [repeat constructor|simpl; lia].
  - split; [repeat constructor|reflexivity].
  - reflexivity.
Defined.

(* ================================================================== *)
(** * Rows of the decoder *)
(* ================================================================== *)

Lemma is_barcode_shaped (s : jsstring) :
  Decoder.is_barcode s = true <-> barcode_shaped s.
Proof.
  unfold Decoder.is_barcode, match_start, match_here, Decoder.re_barcode.
  rewrite rmatch_rseq_cons. cbn [rmatch]. split.
  - destruct (rep is_digit 8 (Some 14) s _) as [[c rest]|] eqn:E;
      [intros _|discriminate].
    apply rep_sound in E. destruct E as (d & s1 & -> & Hd & [Hlo Hhi] & Hk).
    destruct s1; [|discriminate]. rewrite app_nil_r.
    split; [exact Hd|]. specialize (Hhi 14 eq_refl). lia.
  - intros [Hd [Hlo Hhi]].
    rewrite <- (app_nil_r s).
    rewrite (rep_run (captures * jsstring) is_digit s [] ([], []) 8 (Some 14) _).
    + reflexivity.
    + exact Hd.
    + exact I.
    + split; [exact Hlo|]. intros h [= <-]. exact Hhi.
    + reflexivity.
Qed.

Lemma trimStart_snoc (s : jsstring) (c : N) :
  is_space c = false -> trimStart (s ++ [c]) = trimStart s ++ [c].
Proof.
  intros Hc. induction s as [|x s IH]; simpl.
  - now rewrite Hc.
  - destruct (is_space x); [exact IH|reflexivity].
Qed.

(** Collapsing the whitespace leaves a last character that is no
    whitespace in its place. *)
Lemma replace_spaces_snoc (n : nat) (c : N) :
  is_space c = false ->
  forall s, length s <= n ->
    replace_all false re_spaces (js " ") (s ++ [c])
    = replace_all false re_spaces (js " ") s ++ [c].
Proof.
  intros Hc. induction n as [|n IH]; intros s Hn.
  - destruct s; [|simpl in Hn; lia]. cbn [app].
    rewrite replace_all_nomatch by (rewrite match_spaces, Hc; reflexivity).
    reflexivity.
  - destruct s as [|x s].
    + cbn [app].
      rewrite replace_all_nomatch by (rewrite match_spaces, Hc; reflexivity).
      reflexivity.
    + simpl in Hn. cbn [app]. destruct (is_space x) eqn:Hx.
      * pose proof (trimStart_length s) as Hl.
        rewrite (@replace_all_match false re_spaces (js " ")
                   (x :: s ++ [c]) (trimStart s ++ [c]) []).
        -- rewrite (@replace_all_match false re_spaces (js " ")
                      (x :: s) (trimStart s) []).
           ++ rewrite IH by lia. now rewrite <- app_assoc.
           ++ rewrite match_spaces, Hx. reflexivity.
           ++ simpl. lia.
        -- rewrite match_spaces, Hx. now rewrite trimStart_snoc.
        -- simpl. rewrite !length_app. simpl. lia.
      * rewrite !replace_all_nomatch
          by (rewrite match_spaces, Hx; reflexivity).
        rewrite IH by lia. reflexivity.
Qed.

Lemma ends_clean_snoc (s : jsstring) :
  ends_clean s -> s = [] \/ exists s0 c, s = s0 ++ [c] /\ is_space c = false.
Proof.
  unfold ends_clean. intros H.
  destruct (rev s) as [|c r] eqn:E.
  - left. apply (f_equal (@rev N)) in E. now rewrite rev_involutive in E.
  - right. exists (rev r), c. split; [|exact H].
    apply (f_equal (@rev N)) in E. rewrite rev_involutive in E. exact E.
Qed.

Lemma replace_spaces_ends_clean (s : jsstring) :
  ends_clean s -> ends_clean (replace_all false re_spaces (js " ") s).
Proof.
  intros H. destruct (ends_clean_snoc s H) as [->|(s0 & c & -> & Hc)].
  - exact I.
  - rewrite (replace_spaces_snoc (length s0) c Hc s0 (Nat.le_refl _)).
    unfold ends_clean. rewrite rev_app_distr. exact Hc.
Qed.

Lemma trim_ends_clean (s : jsstring) : ends_clean (trim s).
Proof.
  unfold ends_clean, trim, trimEnd. rewrite rev_involutive.
  apply trimStart_clean.
Qed.

Lemma replace_spaces_starts_clean (s : jsstring) :
  starts_clean s -> starts_clean (replace_all false re_spaces (js " ") s).
Proof. apply (@replace_spaces_shape (length s) s (Nat.le_refl _)). Qed.

Section DecoderRows.
Import Decoder.
Variable StringToNumber : jsstring -> jsnum.
Variable NumberToString : jsnum -> jsstring.

Local Abbreviation item_row := (item_row StringToNumber NumberToString).
Local Abbreviation collect_rows :=
  (collect_rows StringToNumber NumberToString).

(** The cleaned name has no whitespace but single spaces between its
    words. *)
Lemma cleanName_shape (it : Item) :
  collapsed (cleanName NumberToString it)
  /\ starts_clean (cleanName NumberToString it)
  /\ ends_clean (cleanName NumberToString it).
Proof.
  unfold cleanName. split; [|split].
  - apply replace_spaces_collapsed.
  - apply replace_spaces_starts_clean, trim_clean.
  - apply replace_spaces_ends_clean, trim_ends_clean.
Qed.

(** X4.  Every row that the decoder collects for a file carries the id
    of the file, the chain of the decoder and the sub-chain, store and
    revision of the file; its price is a finite number; its name is not
    empty and has no whitespace but single spaces between words; its
    item code is a non-empty string; and its barcode is the item code
    when that consists of 8 to 14 digits, and null otherwise. *)
Theorem collected_rows_are_valid fid sub sid bik (items : list Item)
        (row : PriceRow) :
  In row (collect_rows fid sub sid bik items) ->
  raw_file_id row = fid /\ chain row = CHAIN /\ sub_chain_id row = sub
  /\ store_id row = sid /\ bikoret_no row = bik
  /\ isFinite (price row) = true
  /\ item_name row <> []
  /\ collapsed (item_name row) /\ starts_clean (item_name row)
  /\ ends_clean (item_name row)
  /\ exists code,
       item_code row = Some code /\ code <> []
       /\ ((barcode_shaped code /\ barcode row = Some code)
           \/ (~ barcode_shaped code /\ barcode row = None)).
Proof.
  intros Hin.
  apply (collect_rows_in StringToNumber NumberToString) in Hin.
  destruct Hin as (it & _ & Hrow).
  unfold Decoder.item_row in Hrow.
  destruct (truthy (cleanName NumberToString it)) eqn:Hn;
    [|discriminate].
  destruct (isFinite (Number_of StringToNumber (ItemPrice it))) eqn:Hp;
    [|discriminate].
  cbn [negb orb] in Hrow.
  destruct (option_map (String_of NumberToString) (ItemCode it))
    as [code|] eqn:Hc; [|discriminate].
  cbn [nonEmpty] in Hrow.
  destruct (truthy code) eqn:Ht; [|discriminate].
  injection Hrow as <-.
  cbn [raw_file_id chain sub_chain_id store_id bikoret_no price item_name
       item_code barcode].
  destruct (cleanName_shape it) as (C1 & C2 & C3).
  repeat (split; [first [reflexivity | assumption]|]).
  split; [intros E; rewrite E in Hn; discriminate|].
  repeat (split; [assumption|]).
  exists code. split; [reflexivity|].
  split; [intros E; rewrite E in Ht; discriminate|].
  destruct (is_barcode code) eqn:Hb.
  - left. split; [now apply is_barcode_shaped|reflexivity].
  - right. split; [|reflexivity]. intros H. apply is_barcode_shaped in H.
    congruence.
Qed.
End DecoderRows.

Lemma collected_rows_are_valid_witness :
  exists row,
    In row (Decoder.collect_rows Sample.number_of_digits
              Sample.digits_of_number 7 (Some (js "1")) (Some (js "009")) None
              [Sample.no_code; Sample.milk])
    /\ Decoder.raw_file_id row = 7
    /\ Decoder.isFinite (Decoder.price row) = true
    /\ Decoder.item_name row <> []
    /\ ends_clean (Decoder.item_name row)
    /\ exists code, Decoder.item_code row = Some code /\ code <> [].
Proof.
  assert (H : exists row,
             In row (Decoder.collect_rows Sample.number_of_digits
                       Sample.digits_of_number 7 (Some (js "1"))
                       (Some (js "009")) None [Sample.no_code; Sample.milk])).
  { eexists. cbv. left. reflexivity. }
  destruct H as [row Hrow]. exists row. split; [exact Hrow|].
  destruct (collected_rows_are_valid Sample.number_of_digits
              Sample.digits_of_number 7 (Some (js "1")) (Some (js "009")) None
              [Sample.no_code; Sample.milk] row Hrow)
    as (H1 & _ & _ & _ & _ & H6 & H7 & _ & _ & H10 & code & H11 & H12 & _).
  repeat split; auto. exists code. auto.
Defined.

(* ================================================================== *)
(** * What the decoder writes *)
(* ================================================================== *)

Lemma marks_within_refl (P : nat -> Prop) (t : Table) : marks_within P t t.
Proof.
  split; [reflexivity|].
  induction (rows t) as [|r l IH]; constructor; [|exact IH].
  repeat split; auto.
Qed.

Lemma marks_within_trans (P : nat -> Prop) (t1 t2 t3 : Table) :
  marks_within P t1 t2 -> marks_within P t2 t3 -> marks_within P t1 t3.
Proof.
  intros [N1 F1] [N2 F2]. split; [congruence|].
  revert F1 F2. generalize (rows t1) (rows t2) (rows t3).
  intros l1 l2 l3 F1. revert l3. induction F1 as [|r r' l l' H _ IH];
    intros l3 F2; inversion F2 as [|? r'' ? l'' H' F2']; subst;
    constructor; [|now apply IH].
  destruct H as (A1 & A2 & A3 & A4 & A5 & A6 & A7 & A8).
  destruct H' as (B1 & B2 & B3 & B4 & B5 & B6 & B7 & B8).
  repeat split; try congruence.
  - destruct B7 as [B7|B7]; [rewrite B7; exact A7|auto].
  - intros HP. rewrite B8; [auto|]. rewrite A8; auto.
Qed.

Lemma marks_within_mono (P Q : nat -> Prop) (t t' : Table) :
  (forall i, P i -> Q i) -> marks_within P t t' -> marks_within Q t t'.
Proof.
  intros HPQ [Hn HF]. split; [exact Hn|]. revert HF.
  generalize (rows t) (rows t'). intros l l' HF.
  induction HF as [|r r' l l' H _ IH]; constructor; [|exact IH].
  destruct H as (A1 & A2 & A3 & A4 & A5 & A6 & A7 & A8).
  repeat split; auto.
Qed.

Lemma marks_within_set_status (P : nat -> Prop) i s e (t : Table) :
  P i -> s = failed \/ s = parsed ->
  marks_within P t (update i (set_status s e) t).
Proof.
  intros HP Hs. split; [reflexivity|]. unfold update. cbn [rows].
  induction (rows t) as [|r l IH]; cbn [List.map]; constructor; [|exact IH].
  destruct (Nat.eqb (rf_id r) i) eqn:E.
  - apply Nat.eqb_eq in E. cbn [set_status rf_id rf_chain rf_file_url
      rf_storage_path rf_sha256 rf_fetched_at rf_status].
    repeat split; auto. intros Hn. subst i. contradiction.
  - repeat split; auto.
Qed.

Lemma marks_within_set_store_id (P : nat -> Prop) i sid (t : Table) :
  P i -> marks_within P t (update i (set_store_id sid) t).
Proof.
  intros HP. split; [reflexivity|]. unfold update. cbn [rows].
  induction (rows t) as [|r l IH]; cbn [List.map]; constructor; [|exact IH].
  destruct (Nat.eqb (rf_id r) i) eqn:E.
  - apply Nat.eqb_eq in E. cbn [set_store_id rf_id rf_chain rf_file_url
      rf_storage_path rf_sha256 rf_fetched_at rf_status].
    repeat split; auto. intros Hn. subst i. contradiction.
  - repeat split; auto.
Qed.

Lemma marks_within_filter_key (P : nat -> Prop) (t t' : Table) c u :
  marks_within P t t' -> key_count c u t' = key_count c u t.
Proof.
  intros [_ HF]. unfold key_count. revert HF.
  generalize (rows t) (rows t'). intros l l' HF.
  induction HF as [|r r' l l' H _ IH]; [reflexivity|].
  destruct H as (_ & A2 & A3 & _). cbn [filter].
  assert (E : same_key c u r' = same_key c u r)
    by (unfold same_key; now rewrite A2, A3).
  rewrite E. destruct (same_key c u r); cbn [length]; congruence.
Qed.

Lemma marks_within_unique (P : nat -> Prop) (t t' : Table) :
  marks_within P t t' -> unique_keys t -> unique_keys t'.
Proof.
  intros H Hu c u. rewrite (marks_within_filter_key P t t' c u H). apply Hu.
Qed.

Lemma marks_within_in (P : nat -> Prop) (t t' : Table) (r' : RawFile) :
  marks_within P t t' -> In r' (rows t') ->
  exists r, In r (rows t) /\ rf_id r' = rf_id r
            /\ (rf_status r' = rf_status r \/ rf_status r' = failed
                \/ rf_status r' = parsed).
Proof.
  intros [_ HF]. revert HF. generalize (rows t) (rows t'). intros l l' HF.
  induction HF as [|r0 r0' l l' H _ IH]; [contradiction|].
  intros [<-|Hin].
  - exists r0. destruct H as (A1 & _ & _ & _ & _ & _ & A7 & _).
    split; [now left|auto].
  - destruct (IH Hin) as (r & Hr & Hrest). exists r. split; [now right|auto].
Qed.

Lemma marks_within_keeps (P : nat -> Prop) (t t' : Table) (r : RawFile) :
  marks_within P t t' -> In r (rows t) -> ~ P (rf_id r) -> In r (rows t').
Proof.
  intros [_ HF]. revert HF. generalize (rows t) (rows t'). intros l l' HF.
  induction HF as [|r0 r0' l l' H _ IH]; [contradiction|].
  intros [<-|Hin] HP.
  - destruct H as (_ & _ & _ & _ & _ & _ & _ & A8). left. now apply A8.
  - right. now apply IH.
Qed.

Lemma marks_within_settled (P : nat -> Prop) (t t' : Table) (i : nat) :
  marks_within P t t' -> settled i t -> settled i t'.
Proof.
  intros H Hs r' Hin Hid.
  destruct (marks_within_in P t t' r' H Hin) as (r & Hr & Hi & Hst).
  destruct Hst as [E|[E|E]]; rewrite E; try discriminate.
  apply (Hs r Hr). congruence.
Qed.

Lemma settled_set_status i s e (t : Table) :
  s = failed \/ s = parsed -> settled i (update i (set_status s e) t).
Proof.
  intros Hs r Hin Hid. unfold update in Hin. cbn [rows] in Hin.
  apply in_map_iff in Hin. destruct Hin as (r0 & Hr & _).
  destruct (Nat.eqb (rf_id r0) i) eqn:E.
  - subst r. cbn [set_status rf_status]. destruct Hs; subst s; discriminate.
  - subst r. apply Nat.eqb_neq in E. contradiction.
Qed.

(** ** The table of prices *)

Lemma opt_str_eqb_eq (a b : option jsstring) :
  Decoder.opt_str_eqb a b = true <-> a = b.
Proof.
  destruct a as [a|], b as [b|]; cbn [Decoder.opt_str_eqb];
    try (split; [discriminate|discriminate]);
    [|split; reflexivity].
  rewrite str_eqb_eq. split; congruence.
Qed.

Lemma has_price_key_spec fid code (r : Decoder.PriceRow) :
  has_price_key fid code r = true
  <-> Decoder.raw_file_id r = fid /\ Decoder.item_code r = code.
Proof.
  unfold has_price_key. rewrite andb_true_iff, Nat.eqb_eq, opt_str_eqb_eq.
  reflexivity.
Qed.

Lemma same_price_key_spec (a b : Decoder.PriceRow) :
  Decoder.same_price_key a b = true
  <-> Decoder.raw_file_id a = Decoder.raw_file_id b
      /\ Decoder.item_code a = Decoder.item_code b.
Proof.
  unfold Decoder.same_price_key.
  rewrite andb_true_iff, Nat.eqb_eq, opt_str_eqb_eq. reflexivity.
Qed.

Lemma has_price_key_same fid code (a b : Decoder.PriceRow) :
  Decoder.same_price_key a b = true ->
  has_price_key fid code a = has_price_key fid code b.
Proof.
  intros H. apply same_price_key_spec in H. destruct H as [H1 H2].
  unfold has_price_key. now rewrite H1, H2.
Qed.

(** An upsert of a row leaves the number of rows of every key at most
    what it was, or at one. *)
Lemma upsert_price_count fid code (r : Decoder.PriceRow) :
  forall t,
    length (filter (has_price_key fid code) (Decoder.upsert_price r t))
    <= Nat.max 1 (length (filter (has_price_key fid code) t)).
Proof.
  induction t as [|x t IH]; cbn [Decoder.upsert_price].
  - cbn [filter]. destruct (has_price_key fid code r); cbn [length]; lia.
  - destruct (Decoder.same_price_key r x) eqn:E.
    + cbn [filter]. rewrite (has_price_key_same fid code r x E).
      destruct (has_price_key fid code x); cbn [length]; lia.
    + cbn [filter]. destruct (has_price_key fid code x) eqn:Hx;
        cbn [length]; [|lia].
      assert (Hr : has_price_key fid code r = false).
      { destruct (has_price_key fid code r) eqn:Hr; [|reflexivity].
        apply has_price_key_spec in Hx, Hr.
        assert (Decoder.same_price_key r x = true)
          by (apply same_price_key_spec; split; destruct Hx, Hr; congruence).
        congruence. }
      clear IH. induction t as [|y t IH]; cbn [Decoder.upsert_price filter].
      * rewrite Hr. cbn [length]. lia.
      * destruct (Decoder.same_price_key r y) eqn:Ey.
        -- cbn [filter]. rewrite Hr.
           rewrite <- (has_price_key_same fid code r y Ey), Hr. lia.
        -- cbn [filter]. destruct (has_price_key fid code y);
             cbn [length]; lia.
Qed.

Lemma upsert_price_unique (r : Decoder.PriceRow) (t : list Decoder.PriceRow) :
  unique_price_keys t -> unique_price_keys (Decoder.upsert_price r t).
Proof.
  intros H fid code. pose proof (upsert_price_count fid code r t).
  specialize (H fid code). lia.
Qed.

Lemma upsert_prices_unique (chunk t : list Decoder.PriceRow) :
  unique_price_keys t -> unique_price_keys (Decoder.upsert_prices chunk t).
Proof.
  unfold Decoder.upsert_prices. revert t.
  induction chunk as [|r chunk IH]; intros t H; cbn [fold_left]; auto.
  apply IH, upsert_price_unique, H.
Qed.

Lemma upsert_price_others fid (r : Decoder.PriceRow) :
  Decoder.raw_file_id r = fid ->
  forall t, rows_of_others fid (Decoder.upsert_price r t)
            = rows_of_others fid t.
Proof.
  intros Hr. unfold rows_of_others.
  induction t as [|x t IH]; cbn [Decoder.upsert_price filter].
  - rewrite Hr, Nat.eqb_refl. reflexivity.
  - destruct (Decoder.same_price_key r x) eqn:E.
    + apply same_price_key_spec in E. destruct E as [E _].
      cbn [filter]. rewrite <- E, Hr, Nat.eqb_refl. reflexivity.
    + cbn [filter]. now rewrite IH.
Qed.

Lemma upsert_prices_others fid (chunk : list Decoder.PriceRow) :
  Forall (fun r => Decoder.raw_file_id r = fid) chunk ->
  forall t, rows_of_others fid (Decoder.upsert_prices chunk t)
            = rows_of_others fid t.
Proof.
  unfold Decoder.upsert_prices.
  induction 1 as [|r chunk Hr _ IH]; intros t; cbn [fold_left]; auto.
  rewrite IH. now apply upsert_price_others.
Qed.

Lemma upsert_price_in (r x : Decoder.PriceRow) :
  forall t, In x (Decoder.upsert_price r t) -> x = r \/ In x t.
Proof.
  induction t as [|y t IH]; cbn [Decoder.upsert_price].
  - intros [<-|[]]. now left.
  - destruct (Decoder.same_price_key r y).
    + intros [<-|H]; [now left|right; now right].
    + intros [<-|H]; [right; now left|].
      destruct (IH H); [now left|right; now right].
Qed.

Lemma upsert_prices_in (x : Decoder.PriceRow) (chunk : list Decoder.PriceRow) :
  forall t, In x (Decoder.upsert_prices chunk t) -> In x chunk \/ In x t.
Proof.
  unfold Decoder.upsert_prices.
  induction chunk as [|r chunk IH]; intros t; cbn [fold_left]; auto.
  intros H. destruct (IH _ H) as [H1|H1]; [left; now right|].
  destruct (upsert_price_in r x t H1); [left; left; congruence|now right].
Qed.

Lemma in_skipn {A : Type} (x : A) (l : list A) :
  forall n, In x (skipn n l) -> In x l.
Proof.
  induction l as [|y l IH]; intros [|n]; cbn [skipn]; auto.
  intros H. right. exact (IH n H).
Qed.

Lemma order_desc_in (x : RawFile) (l : list RawFile) :
  In x (Decoder.order_desc l) -> In x l.
Proof.
  unfold Decoder.order_desc.
  assert (Hins : forall r l0, In x (Decoder.insert_desc r l0)
                              -> x = r \/ In x l0).
  { intros r l0. induction l0 as [|y l0 IH]; cbn [Decoder.insert_desc].
    - intros [<-|[]]. now left.
    - destruct (rf_fetched_at y <? rf_fetched_at r)%N.
      + intros [<-|H]; [now left|now right].
      + intros [<-|H]; [right; now left|].
        destruct (IH H); [now left|right; now right]. }
  induction l as [|r l IH]; cbn [fold_right]; [auto|].
  intros H. destruct (Hins _ _ H); [left; congruence|right; auto].
Qed.

Lemma select_files_in (db : Decoder.DB) (f : Decoder.FileRow) :
  In f (Decoder.select_files db) ->
  exists r, In r (rows (Decoder.raw_files db))
            /\ Decoder.f_id f = rf_id r
            /\ Decoder.f_storage_path f = rf_storage_path r
            /\ rf_chain r = Decoder.CHAIN
            /\ rf_status r = downloaded
            /\ Decoder.like_PriceFull (rf_storage_path r) = true.
Proof.
  unfold Decoder.select_files. intros H. apply in_map_iff in H.
  destruct H as (r & <- & Hr). apply in_firstn, order_desc_in in Hr.
  apply filter_In in Hr. destruct Hr as [Hr Hc].
  apply andb_true_iff in Hc. destruct Hc as [Hc Hl].
  apply andb_true_iff in Hc. destruct Hc as [Hc Hs].
  exists r. cbn [Decoder.f_id Decoder.f_storage_path].
  repeat split; auto.
  - now apply str_eqb_eq.
  - destruct (rf_status r); try discriminate. reflexivity.
Qed.

Lemma like_PriceFull_nonEmpty (p : option jsstring) :
  Decoder.like_PriceFull p = true -> nonEmpty p <> None.
Proof.
  destruct p as [[|c s]|]; cbn; discriminate.
Qed.

Section DecoderWrites.
Import Decoder.
Variable StringToNumber : jsstring -> jsnum.
Variable NumberToString : jsnum -> jsstring.
Variable storage_download : jsstring -> jsstring + list N.
Variable ungzip_parse : list N -> option Doc.
Variable upsert_error : list PriceRow -> option jsstring.

Local Abbreviation collect_rows := (collect_rows StringToNumber NumberToString).
Local Abbreviation batch_loop := (batch_loop upsert_error).
Local Abbreviation parse_root :=
  (parse_root StringToNumber NumberToString upsert_error).
Local Abbreviation parse_file :=
  (parse_file StringToNumber NumberToString storage_download ungzip_parse
              upsert_error).
Local Abbreviation parse_files :=
  (parse_files StringToNumber NumberToString storage_download ungzip_parse
               upsert_error).
Local Abbreviation main :=
  (main StringToNumber NumberToString storage_download ungzip_parse
        upsert_error).

Lemma collect_rows_own fid sub sid bik (items : list Item) :
  Forall (own fid) (collect_rows fid sub sid bik items).
Proof.
  apply Forall_forall. intros row Hin.
  apply (collect_rows_in StringToNumber NumberToString) in Hin.
  destruct Hin as (it & _ & Hrow). unfold item_row in Hrow.
  destruct (negb (truthy (cleanName NumberToString it))
            || negb (isFinite (Number_of StringToNumber (ItemPrice it))));
    [discriminate|].
  destruct (nonEmpty (option_map (String_of NumberToString) (ItemCode it)));
    [|discriminate].
  injection Hrow as <-. split; reflexivity.
Qed.

Lemma writes_refl fid db : writes fid db db.
Proof.
  split; [apply marks_within_refl|]. split; [reflexivity|]. split; auto.
Qed.

Lemma writes_trans fid db1 db2 db3 :
  writes fid db1 db2 -> writes fid db2 db3 -> writes fid db1 db3.
Proof.
  intros (A1 & A2 & A3 & A4) (B1 & B2 & B3 & B4). split; [|split; [|split]].
  - eapply marks_within_trans; eauto.
  - congruence.
  - auto.
  - intros r Hr. destruct (B4 r Hr) as [H|H]; auto.
Qed.

Lemma writes_mark fid s e db :
  s = failed \/ s = parsed -> writes fid db (mark fid s e db).
Proof.
  intros Hs. split; [|split; [reflexivity|split; auto]].
  cbn [mark raw_files]. now apply marks_within_set_status.
Qed.

Lemma batch_loop_writes (rows : list PriceRow) fid :
  Forall (own fid) rows ->
  forall starts db, writes fid db (batch_loop starts rows fid db).
Proof.
  intros Hrows. induction starts as [|i starts IH]; intros db;
    cbn [Decoder.batch_loop]; [apply writes_refl|].
  assert (Hchunk : Forall (own fid) (firstn BATCH (skipn i rows))).
  { apply Forall_forall. intros x Hx. apply in_firstn, in_skipn in Hx.
    revert x Hx. now apply Forall_forall. }
  destruct (upsert_error (firstn BATCH (skipn i rows))).
  - eapply writes_trans; [|apply IH]. apply writes_mark. now left.
  - eapply writes_trans; [|apply IH].
    split; [apply marks_within_refl|]. cbn [prices]. split; [|split].
    + apply upsert_prices_others.
      eapply Forall_impl; [|exact Hchunk]. intros a [Ha _]. exact Ha.
    + apply upsert_prices_unique.
    + intros r Hr. apply upsert_prices_in in Hr. destruct Hr as [Hr|Hr]; auto.
      right. revert r Hr. now apply Forall_forall.
Qed.

Lemma parse_root_writes db f root :
  writes (f_id f) db (parse_root db f root).
Proof.
  unfold Decoder.parse_root.
  destruct (nonEmpty (storeIdNorm_of NumberToString root f)) as [sid|].
  - match goal with
    | |- context [batch_loop _ _ _ ?d] => set (db1 := d)
    end.
    assert (H1 : writes (f_id f) db db1).
    { split; [|split; [reflexivity|split; auto]].
      cbn [raw_files db1]. now apply marks_within_set_store_id. }
    destruct (toArray (Items root)) as [|it items].
    + eapply writes_trans; [exact H1|]. apply writes_mark. now left.
    + eapply writes_trans; [exact H1|].
      eapply writes_trans; [apply batch_loop_writes, collect_rows_own|].
      apply writes_mark. now right.
  - apply writes_mark. now left.
Qed.

Lemma parse_file_writes db f :
  writes (f_id f) db (db_of (parse_file db f)).
Proof.
  unfold Decoder.parse_file.
  destruct (nonEmpty (f_storage_path f)); [|apply writes_refl].
  destruct (storage_download j) as [msg|buf];
    [apply writes_mark; now left|].
  destruct (negb (isGzip buf)); [apply writes_mark; now left|].
  destruct (ungzip_parse buf) as [doc|]; [|apply writes_refl].
  destruct (root_of doc) as [root|]; [|apply writes_mark; now left].
  apply parse_root_writes.
Qed.

Lemma parse_root_settled db f root :
  settled (f_id f) (raw_files (parse_root db f root)).
Proof.
  unfold Decoder.parse_root.
  destruct (nonEmpty (storeIdNorm_of NumberToString root f)) as [sid|];
    [destruct (toArray (Items root))|];
    cbn [mark raw_files]; apply settled_set_status; auto.
Qed.

Lemma parse_file_settled db f db' :
  nonEmpty (f_storage_path f) <> None ->
  parse_file db f = Continue db' -> settled (f_id f) (raw_files db').
Proof.
  unfold Decoder.parse_file. intros Hp.
  destruct (nonEmpty (f_storage_path f)); [clear Hp|congruence].
  destruct (storage_download j) as [msg|buf].
  { intros [= <-]. cbn [mark raw_files]. apply settled_set_status; auto. }
  destruct (negb (isGzip buf)).
  { intros [= <-]. cbn [mark raw_files]. apply settled_set_status; auto. }
  destruct (ungzip_parse buf) as [doc|]; [|discriminate].
  destruct (root_of doc) as [root|].
  - intros [= <-]. apply parse_root_settled.
  - intros [= <-]. cbn [mark raw_files]. apply settled_set_status; auto.
Qed.

Lemma parse_files_marks (files : list FileRow) :
  forall db,
    marks_within (fun i => In i (List.map f_id files))
                 (raw_files db) (raw_files (db_of (parse_files files db))).
Proof.
  induction files as [|f files IH]; intros db; cbn [Decoder.parse_files].
  - apply marks_within_refl.
  - pose proof (parse_file_writes db f) as (Hw & _).
    apply (marks_within_mono _ (fun i => In i (List.map f_id (f :: files))))
      in Hw; [|intros i <-; now left].
    destruct (parse_file db f) as [db1|db1]; [|exact Hw].
    eapply marks_within_trans; [exact Hw|].
    eapply marks_within_mono; [|apply IH]. intros i Hi. now right.
Qed.

Lemma parse_files_settled (files : list FileRow) :
  Forall (fun f => nonEmpty (f_storage_path f) <> None) files ->
  forall db db',
    parse_files files db = Continue db' ->
    forall f, In f files -> settled (f_id f) (raw_files db').
Proof.
  induction 1 as [|f0 files Hf0 _ IH]; intros db db' Hrun f Hin;
    [contradiction|].
  cbn [Decoder.parse_files] in Hrun.
  destruct (parse_file db f0) as [db1|db1] eqn:E; [|discriminate].
  destruct Hin as [<-|Hin].
  - pose proof (parse_files_marks files db1) as Hm. rewrite Hrun in Hm.
    cbn [db_of] in Hm.
    eapply marks_within_settled; [exact Hm|].
    eapply parse_file_settled; eauto.
  - eapply IH; eauto.
Qed.

(** X5.  A run of the decoder adds no record to the ledger and removes
    none, and changes the chain, the URL, the storage path, the hash and
    the fetch time of none; a status that it changes becomes failed or
    parsed; a record whose id is not the id of a selected file is left as
    it was, so that no two records come to share a key; and where the
    ids of the ledger are distinct, the records of other chains are
    left as they were. *)
Theorem decoder_marks_only_selected_files (db : DB) :
  let db' := db_of (main db) in
  marks_within (fun i => In i (List.map f_id (select_files db)))
               (raw_files db) (raw_files db')
  /\ (unique_keys (raw_files db) -> unique_keys (raw_files db'))
  /\ (NoDup (List.map rf_id (rows (raw_files db))) ->
      forall r, In r (rows (raw_files db)) -> rf_chain r <> CHAIN ->
                In r (rows (raw_files db'))).
Proof.
  cbv zeta. pose proof (parse_files_marks (select_files db) db) as Hm.
  fold (main db) in Hm. split; [exact Hm|]. split.
  - eapply marks_within_unique; eauto.
  - intros Hnd r Hr Hc. eapply marks_within_keeps; eauto.
    intros Hin. apply in_map_iff in Hin. destruct Hin as (f & Hid & Hf).
    apply select_files_in in Hf.
    destruct Hf as (r2 & Hr2 & Hid2 & _ & Hc2 & _).
    assert (r2 = r); [|congruence].
    assert (Hinj : forall l : list RawFile,
               NoDup (List.map rf_id l) -> In r2 l -> In r l ->
               rf_id r2 = rf_id r -> r2 = r).
    { induction l as [|x l IHl]; [contradiction|].
      cbn [List.map]. intros Hn [->|H2] [->|H1] He; auto.
      - inversion Hn as [|? ? Hx _]; subst. exfalso. apply Hx.
        rewrite He. now apply in_map.
      - inversion Hn as [|? ? Hx _]; subst. exfalso. apply Hx.
        rewrite <- He. now apply in_map.
      - inversion Hn; subst. auto. }
    apply (Hinj _ Hnd Hr2 Hr). congruence.
Qed.

(** X6.  When a run of the decoder completes, no file that it selected
    is left in the status downloaded: none of them is selected by the
    next run. *)
Theorem completed_run_selects_no_file_again (db db' : DB) :
  main db = Continue db' ->
  forall f, In f (select_files db) ->
            ~ In (f_id f) (List.map f_id (select_files db')).
Proof.
  intros Hrun f Hf Hin.
  assert (Hs : settled (f_id f) (raw_files db')).
  { eapply (parse_files_settled (select_files db)); eauto.
    apply Forall_forall. intros g Hg. apply select_files_in in Hg.
    destruct Hg as (r & _ & _ & -> & _ & _ & Hl).
    now apply like_PriceFull_nonEmpty. }
  apply in_map_iff in Hin. destruct Hin as (g & Hid & Hg).
  apply select_files_in in Hg. destruct Hg as (r & Hr & Hgid & _ & _ & Hst & _).
  apply (Hs r Hr); congruence.
Qed.

(** X7.  Decoding a file leaves the price rows of every other file as
    they were; every price row that it wrote carries the id of the file
    and the chain of the decoder; and where no two price rows shared the
    key (raw_file_id, item_code) before, none do after. *)
Theorem decoder_writes_only_own_prices (db : DB) (f : FileRow) :
  let db' := db_of (parse_file db f) in
  rows_of_others (f_id f) (prices db') = rows_of_others (f_id f) (prices db)
  /\ (forall r, In r (prices db') ->
                In r (prices db)
                \/ (raw_file_id r = f_id f /\ chain r = CHAIN))
  /\ (unique_price_keys (prices db) -> unique_price_keys (prices db')).
Proof.
  cbv zeta. destruct (parse_file_writes db f) as (_ & H2 & H3 & H4).
  split; [exact H2|]. split; [exact H4|exact H3].
Qed.

End DecoderWrites.

(* ================================================================== *)
(** * Statistics of the daily aggregation *)
(* ================================================================== *)

Section AggregateStats.
Import Aggregate.
Local Open Scope Q_scope.








Lemma upsert_stats_fixed (s : Stats) :
  forall t, find_stats (stats_key s) t = Some s -> upsert_stats s t = t.
Proof.
  unfold find_stats. induction t as [|x t IH]; cbn [find upsert_stats];
    [discriminate|].
  destruct (key_eqb (stats_key s) (stats_key x)).
  - now intros [= ->].
  - intros H. now rewrite IH.
Qed.

Lemma upsert_stats_keys (s : Stats) :
  forall t,
    List.map stats_key (upsert_stats s t)
    = if existsb (fun x => key_eqb (stats_key s) (stats_key x)) t
      then List.map stats_key t
      else List.map stats_key t ++ [stats_key s].
Proof.
  induction t as [|x t IH]; cbn [upsert_stats existsb List.map app];
    [reflexivity|].
  destruct (key_eqb (stats_key s) (stats_key x)) eqn:E; cbn [orb List.map].
  - apply key_eqb_eq in E. now rewrite E.
  - rewrite IH. now destruct (existsb _ t).
Qed.

Lemma upsert_stats_nodup (s : Stats) (t : list Stats) :
  NoDup (List.map stats_key t) ->
  NoDup (List.map stats_key (upsert_stats s t)).
Proof.
  intros H. rewrite upsert_stats_keys.
  destruct (existsb _ t) eqn:E; [exact H|].
  apply NoDup_app; [exact H|repeat constructor; intros []|].
  intros k Hk [<-|[]]. apply in_map_iff in Hk. destruct Hk as (x & Hx & Hin).
  assert (existsb (fun x => key_eqb (stats_key s) (stats_key x)) t = true);
    [|congruence].
  apply existsb_exists. exists x. split; [exact Hin|].
  apply key_eqb_eq. congruence.
Qed.

Lemma members_nil_not_selected (now : Z) (tbl : list Price) (k : key) :
  members k (filter (in_scope now) tbl) = [] ->
  ~ In k (List.map stats_key (select_stats now tbl)).
Proof.
  intros Hm Hin. rewrite select_stats_keys in Hin. apply nodup_In in Hin.
  apply in_map_iff in Hin. destruct Hin as (p & Hk & Hp).
  assert (In p (members k (filter (in_scope now) tbl))); [|rewrite Hm in *; auto].
  apply filter_In. split; [exact Hp|]. apply key_eqb_eq. congruence.
Qed.


(** X9.  The aggregation leaves the statistics of every key that no
    price row in scope has as they were; it keeps the keys of the table
    of statistics distinct; and run once more at the same instant over
    the same prices, it changes nothing. *)
Theorem aggregation_is_repeatable (now : Z) (tbl : list Price)
        (stats : list Stats) :
  (forall k, members k (filter (in_scope now) tbl) = [] ->
             find_stats k (aggregate_daily now tbl stats)
             = find_stats k stats)
  /\ (NoDup (List.map stats_key stats) ->
      NoDup (List.map stats_key (aggregate_daily now tbl stats)))
  /\ aggregate_daily now tbl (aggregate_daily now tbl stats)
     = aggregate_daily now tbl stats.
Proof.
  split; [|split].
  - intros k Hk. unfold aggregate_daily.
    apply find_upsert_all_other. now apply members_nil_not_selected.
  - unfold aggregate_daily. generalize (select_stats now tbl). intros news.
    revert stats. induction news as [|s news IH]; intros stats H;
      cbn [fold_left]; auto.
    apply IH, upsert_stats_nodup, H.
  - set (t := aggregate_daily now tbl stats).
    assert (Hfix : forall s, In s (select_stats now tbl)
                             -> upsert_stats s t = t).
    { intros s Hs. apply upsert_stats_fixed. unfold t, aggregate_daily.
      apply find_upsert_all; [|exact Hs].
      rewrite select_stats_keys. apply NoDup_nodup. }
    unfold aggregate_daily at 1. revert Hfix.
    generalize (select_stats now tbl). intros news.
    induction news as [|s news IH]; intros Hfix; cbn [fold_left];
      [reflexivity|].
    rewrite Hfix by now left. apply IH. intros x Hx. apply Hfix. now right.
Qed.

End AggregateStats.

(* ================================================================== *)
(** * What the collectors record *)
(* ================================================================== *)

Lemma keeps_objects_refl b : keeps_objects b b.
Proof. intros p bytes H. exact H. Qed.

Lemma keeps_objects_trans b1 b2 b3 :
  keeps_objects b1 b2 -> keeps_objects b2 b3 -> keeps_objects b1 b3.
Proof. intros H1 H2 p bytes H. auto. Qed.

Lemma hashed_in_keeps sha b b' (r : RawFile) :
  keeps_objects b b' -> hashed_in sha b r -> hashed_in sha b' r.
Proof.
  intros Hk H Hs. destruct (H Hs) as (p & bytes & H1 & H2 & H3).
  exists p, bytes. auto.
Qed.

Lemma stored_bytes_put_same p bytes b :
  stored_bytes p (Collector.put p bytes b) = Some bytes.
Proof.
  unfold stored_bytes, Collector.put. cbn [find fst].
  now rewrite str_eqb_refl.
Qed.

Lemma stored_bytes_put_other p q bytes b :
  q <> p -> stored_bytes q (Collector.put p bytes b) = stored_bytes q b.
Proof.
  intros Hne. unfold stored_bytes, Collector.put. cbn [find fst].
  assert (E : str_eqb p q = false) by (apply str_eqb_neq; congruence).
  rewrite E. f_equal.
  induction b as [|[x y] b IH]; [reflexivity|]. cbn [filter find fst].
  destruct (str_eqb x p) eqn:Ex; cbn [negb].
  - apply str_eqb_eq in Ex. subst x. rewrite E. exact IH.
  - cbn [find fst]. destruct (str_eqb x q); [reflexivity|exact IH].
Qed.

Lemma stored_bytes_stored p b :
  Collector.stored p b = true <-> stored_bytes p b <> None.
Proof.
  unfold Collector.stored, stored_bytes.
  induction b as [|[x y] b IH]; cbn [existsb find fst option_map].
  - split; [discriminate|congruence].
  - destruct (str_eqb x p); cbn [orb option_map]; [|exact IH].
    split; [discriminate|reflexivity].
Qed.

Lemma stored_put_same p bytes b : Collector.stored p (Collector.put p bytes b) = true.
Proof. apply stored_bytes_stored. rewrite stored_bytes_put_same. discriminate. Qed.

Lemma stored_put_keeps p q bytes b :
  Collector.stored q b = true -> Collector.stored q (Collector.put p bytes b) = true.
Proof.
  intros H. destruct (list_eq_dec N.eq_dec q p) as [->|Hne].
  - apply stored_put_same.
  - apply stored_bytes_stored. rewrite stored_bytes_put_other by exact Hne.
    now apply stored_bytes_stored.
Qed.

Lemma filter_downloaded_app (l1 l2 : list RawFile) :
  length (filter is_downloaded (l1 ++ l2))
  = length (filter is_downloaded l1) + length (filter is_downloaded l2).
Proof. now rewrite filter_app, length_app. Qed.

Section Extends.
Variable sha : list N -> jsstring.
Variable c : jsstring.

Lemma extends_refl w : extends sha c 0 w w.
Proof.
  split; [|apply keeps_objects_refl]. exists [].
  rewrite app_nil_r. repeat split; constructor.
Qed.

Lemma extends_trans k1 k2 w1 w2 w3 :
  extends sha c k1 w1 w2 -> extends sha c k2 w2 w3 ->
  extends sha c (k1 + k2) w1 w3.
Proof.
  intros [(e1 & A1 & A2 & A3 & A4) A5] [(e2 & B1 & B2 & B3 & B4) B5].
  split; [|eapply keeps_objects_trans; eauto].
  exists (e1 ++ e2). rewrite B1, A1, <- app_assoc. split; [reflexivity|].
  split; [apply Forall_app; auto|]. split.
  - rewrite filter_downloaded_app. congruence.
  - apply Forall_app. split; [|exact B4].
    eapply Forall_impl; [|exact A4]. intros r. now apply hashed_in_keeps.
Qed.

Lemma extends_same k w w' w'' :
  Collector.ledger w'' = Collector.ledger w' ->
  Collector.bucket w'' = Collector.bucket w' ->
  extends sha c k w w' -> extends sha c k w w''.
Proof.
  intros Hl Hb [(e & A1 & A2 & A3 & A4) A5]. split.
  - exists e. rewrite Hl, Hb. auto.
  - now rewrite Hb.
Qed.

Lemma extends_hashed k w w' :
  extends sha c k w w' -> hashed sha w -> hashed sha w'.
Proof.
  intros [(e & A1 & _ & _ & A4) A5] H. unfold hashed. rewrite A1.
  apply Forall_app. split; [|exact A4].
  eapply Forall_impl; [|exact H]. intros r. now apply hashed_in_keeps.
Qed.

Lemma extends_downloads k w w' :
  extends sha c k w w' ->
  downloads (Collector.ledger w') = downloads (Collector.ledger w) + k.
Proof.
  intros [(e & A1 & _ & A3 & _) _]. unfold downloads.
  rewrite A1, filter_downloaded_app. congruence.
Qed.

(** The decoder's query does not see what a collector of another chain
    recorded. *)
Lemma extends_not_selected k w w' :
  c <> Decoder.CHAIN -> extends sha c k w w' ->
  decoder_selects (Collector.ledger w') = decoder_selects (Collector.ledger w).
Proof.
  intros Hc [(e & A1 & A2 & _) _].
  unfold decoder_selects, Decoder.select_files. cbn [Decoder.raw_files].
  rewrite A1, filter_app.
  replace (filter _ e) with (@nil RawFile); [now rewrite app_nil_r|].
  symmetry. clear A1. induction A2 as [|r e Hr _ IH]; [reflexivity|].
  cbn [filter]. assert (E : str_eqb (rf_chain r) Decoder.CHAIN = false)
    by (apply str_eqb_neq; congruence).
  rewrite E. exact IH.
Qed.

End Extends.

Section CollectorRecords.
Import Collector.
Variable fetch : jsstring -> FetchResult.
Variable curl : jsstring -> option (list N).
Variable upload_fault : jsstring -> option jsstring.
Variable sha256_hex : list N -> jsstring.
Variable today : jsstring.
Variable now_ms : N.
Variable now : N.
Variable url_basename : jsstring -> option jsstring.
Variable page_links : nat -> option (list jsstring).

Local Abbreviation attempt :=
  (attempt fetch upload_fault sha256_hex today now_ms now).
Local Abbreviation attempt_all :=
  (attempt_all fetch upload_fault sha256_hex today now_ms now).
Local Abbreviation runYohananofCollector :=
  (runYohananofCollector fetch upload_fault sha256_hex today now_ms now).
Local Abbreviation runShufersalCollector :=
  (runShufersalCollector fetch upload_fault sha256_hex today now_ms now
                         page_links).
Local Abbreviation run_pages :=
  (run_pages fetch upload_fault sha256_hex today now_ms now page_links).
Local Abbreviation download_one :=
  (download_one curl upload_fault sha256_hex now url_basename).
Local Abbreviation download_all :=
  (download_all curl upload_fault sha256_hex now url_basename).
Local Abbreviation runYohananofCurlCollector :=
  (runYohananofCurlCollector curl upload_fault sha256_hex now url_basename).
Local Abbreviation extends := (extends sha256_hex).

(** A plain insert of a row that is not a download. *)
Lemma insert_row_extends (c : jsstring) (row : RawFileInsert) (w : World) :
  Ledger.chain row = c -> Ledger.status row <> downloaded ->
  extends c 0 w (fst (insert_row now row w)).
Proof.
  intros Hc Hs. unfold insert_row, insert.
  destruct (existsb _ (rows (ledger w))); cbn [fst].
  - eapply extends_same; [| |apply extends_refl]; reflexivity.
  - split; [|apply keeps_objects_refl].
    exists [new_row (next_id (ledger w)) now row].
    cbn [with_ledger ledger rows bucket]. split; [reflexivity|].
    split; [repeat constructor; exact Hc|]. split.
    + cbn [filter]. unfold is_downloaded. cbn [new_row rf_status].
      destruct (Ledger.status row); try reflexivity. congruence.
    + repeat constructor. intros H. cbn [new_row rf_status] in H. congruence.
Qed.

(** A plain insert of a download whose object is stored. *)
Lemma insert_row_download (c p : jsstring) (bytes : list N)
      (row : RawFileInsert) (w : World) :
  Ledger.chain row = c -> Ledger.status row = downloaded ->
  Ledger.storage_path row = Some p ->
  Ledger.sha256 row = Some (sha256_hex bytes) ->
  stored_bytes p (bucket w) = Some bytes ->
  extends c (match snd (insert_row now row w) with None => 1 | Some _ => 0 end)
          w (fst (insert_row now row w)).
Proof.
  intros Hc Hs Hp Hh Hb. unfold insert_row, insert.
  destruct (existsb _ (rows (ledger w))); cbn [fst snd].
  - eapply extends_same; [| |apply extends_refl]; reflexivity.
  - split; [|apply keeps_objects_refl].
    exists [new_row (next_id (ledger w)) now row].
    cbn [with_ledger ledger rows bucket]. split; [reflexivity|].
    split; [repeat constructor; exact Hc|]. split.
    + cbn [filter]. unfold is_downloaded. cbn [new_row rf_status].
      rewrite Hs. reflexivity.
    + repeat constructor. intros _. exists p, bytes.
      cbn [new_row rf_storage_path rf_sha256]. auto.
Qed.

Lemma record_failure_extends (c : Chain) u sid p h msg (w : World) :
  extends (CHAIN c) 0 w (record_failure now c u sid p h msg w).
Proof.
  unfold record_failure. apply insert_row_extends; [reflexivity|discriminate].
Qed.

Lemma log_fetch_extends (c u : jsstring) (w : World) :
  extends c 0 w (log_fetch u w).
Proof. eapply extends_same; [| |apply extends_refl]; reflexivity. Qed.

(** An upload that may not overwrite changes no stored object. *)
Lemma upload_new (c p : jsstring) (bytes : list N) (w : World) :
  extends c 0 w (fst (upload upload_fault false p bytes w))
  /\ (snd (upload upload_fault false p bytes w) = None ->
      stored_bytes p (bucket (fst (upload upload_fault false p bytes w)))
      = Some bytes).
Proof.
  unfold upload. destruct (upload_fault p); cbn [fst snd].
  { split; [apply extends_refl|discriminate]. }
  cbn [negb andb]. destruct (stored p (bucket w)) eqn:E; cbn [fst snd].
  { split; [apply extends_refl|discriminate]. }
  split; [|intros _; cbn [bucket]; apply stored_bytes_put_same].
  split.
  - exists []. cbn [ledger]. rewrite app_nil_r. repeat split; constructor.
  - intros q b Hq. cbn [bucket].
    destruct (list_eq_dec N.eq_dec q p) as [->|Hne].
    + assert (stored_bytes p (bucket w) <> None) by congruence.
      apply stored_bytes_stored in H. congruence.
    + now rewrite stored_bytes_put_other.
Qed.

(** One attempt of a collector that downloads with [fetch]. *)
Lemma attempt_extends (c : Chain) (u : jsstring) (w : World) :
  extends (CHAIN c) (if snd (attempt c u w) then 1 else 0)
          w (fst (attempt c u w)).
Proof.
  unfold Collector.attempt.
  destruct (select_existing (CHAIN c) u (ledger w));
    [|cbn [fst snd]; apply extends_refl].
  pose proof (log_fetch_extends (CHAIN c) u w) as H1.
  set (w1 := log_fetch u w) in *.
  destruct (fetch u) as [msg|res]; cbn [fst snd].
  { apply (extends_trans _ _ 0 0 w w1 _ H1), record_failure_extends. }
  destruct (negb (res_ok res)); cbn [fst snd].
  { apply (extends_trans _ _ 0 0 w w1 _ H1), record_failure_extends. }
  destruct (nonEmpty _) as [sid|]; cbn [fst snd].
  2:{ apply (extends_trans _ _ 0 0 w w1 _ H1).
      apply insert_row_extends; [reflexivity|discriminate]. }
  match goal with
  | |- context [upload _ false ?p ?b w1] =>
      destruct (upload_new (CHAIN c) p b w1) as [H2 H3];
      destruct (upload upload_fault false p b w1) as [w2 [e|]] eqn:E
  end; cbn [fst snd] in *.
  { apply (extends_trans _ _ 0 0 w w1 _ H1).
    apply (extends_trans _ _ 0 0 w1 w2 _ H2), record_failure_extends. }
  specialize (H3 eq_refl).
  match goal with
  | |- context [insert_row now ?row w2] =>
      pose proof (insert_row_download (CHAIN c) _ _ row w2 eq_refl eq_refl
                    eq_refl eq_refl H3) as H4;
      destruct (insert_row now row w2) as [w3 [e|]]
  end; cbn [fst snd] in *.
  - apply (extends_trans _ _ 0 0 w w1 _ H1).
    apply (extends_trans _ _ 0 0 w1 w2 _ H2).
    apply (extends_trans _ _ 0 0 w2 w3 _ H4), record_failure_extends.
  - apply (extends_trans _ _ 0 1 w w1 _ H1).
    apply (extends_trans _ _ 0 1 w1 w2 _ H2). exact H4.
Qed.

Lemma attempt_all_extends (c : Chain) (cap : nat) (links : list jsstring) :
  forall w n,
    let r := attempt_all c cap links w n in
    n <= snd (fst r) /\ snd (fst r) <= Nat.max n cap
    /\ extends (CHAIN c) (snd (fst r) - n) w (fst (fst r)).
Proof.
  induction links as [|u links IH]; intros w n; cbv zeta;
    cbn [Collector.attempt_all].
  - cbn [fst snd]. rewrite Nat.sub_diag.
    split; [lia|]. split; [lia|apply extends_refl].
  - destruct (cap <=? n) eqn:E.
    + cbn [fst snd]. rewrite Nat.sub_diag.
      split; [lia|]. split; [lia|apply extends_refl].
    + apply Nat.leb_gt in E. pose proof (attempt_extends c u w) as Ha.
      destruct (attempt c u w) as [w' ok]. cbn [fst snd] in Ha.
      specialize (IH w' (if ok then S n else n)). cbv zeta in IH.
      destruct IH as (I1 & I2 & I3).
      set (r := attempt_all c cap links w' (if ok then S n else n)) in *.
      destruct ok.
      * split; [lia|]. split; [lia|].
        replace (snd (fst r) - n) with (1 + (snd (fst r) - S n)) by lia.
        eapply extends_trans; eauto.
      * split; [lia|]. split; [lia|].
        change (snd (fst r) - n) with (0 + (snd (fst r) - n)).
        eapply extends_trans; eauto.
Qed.

Lemma run_pages_extends (pages : nat) :
  forall page cap w n w' n',
    run_pages pages page cap w n = Finished w' n' ->
    n <= n' /\ n' <= Nat.max n cap
    /\ extends (CHAIN shufersal) (n' - n) w w'.
Proof.
  induction pages as [|pages IH]; intros page cap w n w' n';
    cbn [Collector.run_pages].
  - intros [= <- <-]. rewrite Nat.sub_diag.
    split; [lia|]. split; [lia|apply extends_refl].
  - destruct (page_links page) as [[|u links]|]; [| |discriminate].
    + intros [= <- <-]. rewrite Nat.sub_diag.
      split; [lia|]. split; [lia|apply extends_refl].
    + pose proof (attempt_all_extends shufersal cap (u :: links) w n) as Ha.
      cbv zeta in Ha.
      destruct (attempt_all shufersal cap (u :: links) w n)
        as [[w1 n1] stop]. cbn [fst snd] in Ha.
      destruct Ha as (A1 & A2 & A3). destruct stop.
      * intros [= <- <-]. auto.
      * intros Hrun. destruct (IH _ _ _ _ _ _ Hrun) as (B1 & B2 & B3).
        split; [lia|]. split; [lia|].
        replace (n' - n) with ((n1 - n) + (n' - n1)) by lia.
        eapply extends_trans; eauto.
Qed.

(** X10.  The two collectors that download with fetch count at most
    [maxDownloads] downloads (50 where it is not given), and the count
    that a run returns is the number of records with the status
    downloaded that it added to the ledger. *)
Theorem fetch_collectors_count_their_downloads :
  (forall maxDownloads links w,
      let r := runYohananofCollector maxDownloads links w in
      snd r <= cap_of maxDownloads
      /\ downloads (ledger (fst r)) = downloads (ledger w) + snd r)
  /\ (forall maxPages maxDownloads w w' n,
         runShufersalCollector maxPages maxDownloads w = Finished w' n ->
         n <= cap_of maxDownloads
         /\ downloads (ledger w') = downloads (ledger w) + n).
Proof.
  split.
  - intros maxDownloads links w. cbv zeta. unfold Collector.runYohananofCollector.
    destruct links as [|u links]; [cbn [fst snd]; split; [lia|lia]|].
    generalize (filter (test true re_price_full_gz) (u :: links)).
    intros links'.
    pose proof (attempt_all_extends yohananof (cap_of maxDownloads) links' w 0)
      as H. cbv zeta in H. destruct H as (_ & H2 & H3).
    fold (cap_of maxDownloads).
    destruct (attempt_all yohananof (cap_of maxDownloads) links' w 0)
      as [[w' n] stop]. cbn [fst snd] in *.
    split; [lia|]. rewrite Nat.sub_0_r in H3.
    eapply extends_downloads; eauto.
  - intros maxPages maxDownloads w w' n Hrun.
    unfold Collector.runShufersalCollector in Hrun.
    fold (cap_of maxDownloads) in Hrun.
    apply run_pages_extends in Hrun. destruct Hrun as (_ & H2 & H3).
    split; [lia|]. rewrite Nat.sub_0_r in H3.
    eapply extends_downloads; eauto.
Qed.

Lemma run_pages_extends_any (pages : nat) :
  forall page cap w n,
  exists k, extends (CHAIN shufersal) k w
                    (world_of (run_pages pages page cap w n)).
Proof.
  induction pages as [|pages IH]; intros page cap w n;
    cbn [Collector.run_pages].
  - exists 0. apply extends_refl.
  - destruct (page_links page) as [[|u links]|];
      [exists 0; apply extends_refl| |exists 0; apply extends_refl].
    pose proof (attempt_all_extends shufersal cap (u :: links) w n) as Ha.
    cbv zeta in Ha.
    destruct (attempt_all shufersal cap (u :: links) w n)
      as [[w1 n1] stop]. cbn [fst snd] in Ha.
    destruct Ha as (A1 & A2 & A3). destruct stop.
    + exists (n1 - n). exact A3.
    + destruct (IH (S page) cap w1 n1) as [k Hk].
      exists ((n1 - n) + k). eapply extends_trans; eauto.
Qed.

Lemma runYohananofCollector_extends maxDownloads links w :
  exists k, extends (CHAIN yohananof) k w
                    (fst (runYohananofCollector maxDownloads links w)).
Proof.
  unfold Collector.runYohananofCollector.
  destruct links as [|u links]; [exists 0; apply extends_refl|].
  generalize (filter (test true re_price_full_gz) (u :: links)).
  intros links'.
  pose proof (attempt_all_extends yohananof (cap_of maxDownloads) links' w 0)
    as H. cbv zeta in H. destruct H as (_ & _ & H3).
  fold (cap_of maxDownloads). eexists. exact H3.
Qed.

(** X11.  In a run of a collector that downloads with fetch, every
    record with the status downloaded names an object of the bucket, and
    the hash of the record is the hash of the bytes stored there, where
    that held before the run; the run changes no object that was
    stored. *)
Theorem fetch_collectors_record_what_they_store :
  (forall maxDownloads links w,
      let w' := fst (runYohananofCollector maxDownloads links w) in
      keeps_objects (bucket w) (bucket w')
      /\ (hashed sha256_hex w -> hashed sha256_hex w'))
  /\ (forall maxPages maxDownloads w,
         let w' := world_of (runShufersalCollector maxPages maxDownloads w) in
         keeps_objects (bucket w) (bucket w')
         /\ (hashed sha256_hex w -> hashed sha256_hex w')).
Proof.
  split.
  - intros maxDownloads links w. cbv zeta.
    destruct (runYohananofCollector_extends maxDownloads links w) as [k Hk].
    split; [exact (proj2 Hk)|]. eapply extends_hashed; eauto.
  - intros maxPages maxDownloads w. cbv zeta.
    unfold Collector.runShufersalCollector.
    destruct (run_pages_extends_any
                (match maxPages with Some n => n | None => 10 end) 1
                (match maxDownloads with Some n => n | None => 50 end) w 0)
      as [k Hk].
    split; [exact (proj2 Hk)|]. eapply extends_hashed; eauto.
Qed.

(** X12.  The decoder selects the files of the chain [yohananof].  The
    collector that downloads with fetch records its files under the
    chain [yochananof], and the Shufersal collector under [shufersal]:
    what the decoder's query returns is the same after a run of either
    as before it, so that no file that they downloaded is decoded. *)
Theorem decoder_ignores_fetch_collectors :
  (forall maxDownloads links w,
      decoder_selects
        (ledger (fst (runYohananofCollector maxDownloads links w)))
      = decoder_selects (ledger w))
  /\ (forall maxPages maxDownloads w,
         decoder_selects
           (ledger (world_of (runShufersalCollector maxPages maxDownloads w)))
         = decoder_selects (ledger w)).
Proof.
  split.
  - intros maxDownloads links w.
    destruct (runYohananofCollector_extends maxDownloads links w) as [k Hk].
    eapply extends_not_selected; [|exact Hk].
    intros H. vm_compute in H. discriminate.
  - intros maxPages maxDownloads w.
    unfold Collector.runShufersalCollector.
    destruct (run_pages_extends_any
                (match maxPages with Some n => n | None => 10 end) 1
                (match maxDownloads with Some n => n | None => 50 end) w 0)
      as [k Hk].
    eapply extends_not_selected; [|exact Hk].
    intros H. vm_compute in H. discriminate.
Qed.

End CollectorRecords.

(* ================================================================== *)
(** * The collector that downloads with curl *)
(* ================================================================== *)

Lemma upsert_rows_in (now : N) (row : RawFileInsert) (t : Table)
      (r : RawFile) :
  In r (rows (upsert now row t)) ->
  In r (rows t) \/ exists i, r = new_row i now row.
Proof.
  unfold upsert. destruct (existsb _ (rows t)); cbn [rows]; intros H.
  - apply in_map_iff in H. destruct H as (x & Hx & Hin).
    destruct (same_key _ _ x); [right; eauto|left; congruence].
  - apply in_app_or in H. destruct H as [H|[<-|[]]]; [now left|right; eauto].
Qed.




Section CurlCollector.
Import Collector.
Variable curl : jsstring -> option (list N).
Variable upload_fault : jsstring -> option jsstring.
Variable sha256_hex : list N -> jsstring.
Variable now : N.
Variable url_basename : jsstring -> option jsstring.

Local Abbreviation download_one :=
  (download_one curl upload_fault sha256_hex now url_basename).
Local Abbreviation download_all :=
  (download_all curl upload_fault sha256_hex now url_basename).
Local Abbreviation runYohananofCurlCollector :=
  (runYohananofCurlCollector curl upload_fault sha256_hex now url_basename).
Local Abbreviation parsePriceFullFilenameFromUrl :=
  (parsePriceFullFilenameFromUrl url_basename).

(** The URL can be downloaded: its name parses and curl delivers. *)
Local Abbreviation fetchable :=
  (fun u => parsePriceFullFilenameFromUrl u <> None /\ curl u <> None).

Lemma backed_step (w w' : World) :
  backed w ->
  (forall q, stored q (bucket w) = true -> stored q (bucket w') = true) ->
  (forall r, In r (rows (ledger w')) ->
             In r (rows (ledger w))
             \/ (rf_status r = downloaded ->
                 exists p, rf_storage_path r = Some p
                           /\ stored p (bucket w') = true)) ->
  backed w'.
Proof.
  intros Hb Hs Hr. apply Forall_forall. intros r Hin.
  destruct (Hr r Hin) as [Hold|Hnew]; [|exact Hnew].
  intros Hst. destruct (proj1 (Forall_forall _ _) Hb r Hold Hst) as (p & Hp & Hq).
  exists p. auto.
Qed.

Lemma backed_upsert_failed (row : RawFileInsert) (w : World) :
  Ledger.status row = failed -> backed w -> backed (upsertRawFile now row w).
Proof.
  intros Hs Hb. apply (backed_step w); [exact Hb|auto|].
  intros r Hin. cbn [upsertRawFile with_ledger ledger] in Hin.
  apply upsert_rows_in in Hin. destruct Hin as [Hin|[i ->]]; [now left|].
  right. cbn [new_row rf_status]. rewrite Hs. discriminate.
Qed.

Lemma upload_over (p : jsstring) (b : list N) (w : World) :
  let r := upload upload_fault true p b w in
  match snd r with
  | Some _ => fst r = w
  | None => ledger (fst r) = ledger w /\ fetch_log (fst r) = fetch_log w
            /\ bucket (fst r) = put p b (bucket w)
  end.
Proof.
  cbv zeta. unfold upload. destruct (upload_fault p); cbn [fst snd negb andb];
    [reflexivity|]. repeat split.
Qed.

Lemma download_one_backed (url : jsstring) (w : World) :
  backed w -> backed (step_world (download_one url w)).
Proof.
  intros Hb. unfold Collector.download_one.
  destruct (parsePriceFullFilenameFromUrl url) as [[[filename sid] date]|];
    [|exact Hb].
  assert (H1 : backed (log_fetch url w)) by exact Hb.
  set (w1 := log_fetch url w) in *.
  destruct (curl url) as [buf|]; [|exact H1].
  destruct (negb (isGzip buf)); cbn [step_world].
  { apply backed_upsert_failed; [reflexivity|exact H1]. }
  match goal with
  | |- context [upload _ true ?p buf w1] =>
      pose proof (upload_over p buf w1) as Hu; cbv zeta in Hu;
      destruct (upload upload_fault true p buf w1) as [w2 [e|]];
      set (path := p) in *
  end; cbn [fst snd step_world] in *.
  - subst w2. apply backed_upsert_failed; [reflexivity|exact H1].
  - destruct Hu as (Hl & _ & Hbk).
    assert (Hkeep : forall q, stored q (bucket w1) = true
                              -> stored q (bucket w2) = true).
    { intros q Hq. rewrite Hbk. now apply stored_put_keeps. }
    apply (backed_step w1); [exact H1| |].
    + intros q Hq. cbn [upsertRawFile with_ledger bucket]. auto.
    + intros r Hin. cbn [upsertRawFile with_ledger ledger bucket] in *.
      apply upsert_rows_in in Hin. rewrite Hl in Hin.
      destruct Hin as [Hin|[i ->]]; [now left|].
      right. intros _. exists path. split; [reflexivity|].
      rewrite Hbk. apply stored_put_same.
Qed.

Lemma download_one_log (url : jsstring) (w w' : World) (ok : bool) :
  download_one url w = Next w' ok ->
  fetchable url /\ fetch_log w' = fetch_log w ++ [url].
Proof.
  unfold Collector.download_one.
  destruct (parsePriceFullFilenameFromUrl url) as [[[filename sid] date]|];
    [|discriminate].
  destruct (curl url) as [buf|]; [|discriminate].
  assert (Hf : Some (filename, sid, date) <> None /\ Some buf <> None)
    by (split; discriminate).
  destruct (negb (isGzip buf)).
  { intros [= <- _]. split; [exact Hf|reflexivity]. }
  match goal with
  | |- context [upload _ true ?p buf ?w1] =>
      pose proof (upload_over p buf w1) as Hu; cbv zeta in Hu;
      destruct (upload upload_fault true p buf w1) as [w2 [e|]]
  end; cbn [fst snd] in Hu; intros [= <- _]; (split; [exact Hf|]);
    cbn [upsertRawFile with_ledger fetch_log].
  - now subst w2.
  - destruct Hu as (_ & -> & _). reflexivity.
Qed.

Lemma download_one_throws (url : jsstring) (w : World) :
  fetchable url -> exists w' ok, download_one url w = Next w' ok.
Proof.
  intros [Hp Hc]. unfold Collector.download_one.
  destruct (parsePriceFullFilenameFromUrl url) as [[[filename sid] date]|];
    [|congruence].
  destruct (curl url) as [buf|]; [|congruence].
  destruct (negb (isGzip buf)); [eauto|].
  match goal with
  | |- context [upload _ true ?p buf ?w1] =>
      destruct (upload upload_fault true p buf w1) as [w2 [e|]]
  end; eauto.
Qed.

Lemma download_all_backed (urls : list jsstring) :
  forall w n, backed w -> backed (world_of (download_all urls w n)).
Proof.
  induction urls as [|u urls IH]; intros w n Hb; cbn [Collector.download_all];
    [exact Hb|].
  pose proof (download_one_backed u w Hb) as H1.
  destruct (download_one u w) as [w' ok|w']; [|exact H1].
  apply IH. exact H1.
Qed.

Lemma download_all_finished (urls : list jsstring) :
  forall w n w' n',
    download_all urls w n = Finished w' n' ->
    n <= n' /\ n' <= n + length urls
    /\ fetch_log w' = fetch_log w ++ urls
    /\ Forall fetchable urls.
Proof.
  induction urls as [|u urls IH]; intros w n w' n';
    cbn [Collector.download_all].
  - intros [= <- <-]. rewrite app_nil_r. cbn [length].
    split; [lia|]. split; [lia|]. split; [reflexivity|constructor].
  - destruct (download_one u w) as [w1 ok|w1] eqn:E; [|discriminate].
    intros Hrun. apply download_one_log in E. destruct E as [Hf Hlog].
    destruct (IH _ _ _ _ Hrun) as (A1 & A2 & A3 & A4).
    cbn [length]. split; [destruct ok; lia|]. split; [destruct ok; lia|].
    split; [|constructor; assumption].
    rewrite A3, Hlog, <- app_assoc. reflexivity.
Qed.

Lemma download_all_finishes (urls : list jsstring) :
  Forall fetchable urls ->
  forall w n, exists w' n', download_all urls w n = Finished w' n'.
Proof.
  induction 1 as [|u urls Hu _ IH]; intros w n; cbn [Collector.download_all];
    [eauto|].
  destruct (download_one_throws u w Hu) as (w1 & ok & ->). apply IH.
Qed.

(** X13.  The collector that downloads with curl takes the first
    [maxDownloads] discovered URLs (50 where it is not given).  Its run
    finishes exactly when the name of each of them parses and curl
    delivers each of them; any other URL aborts it.  A run that
    finishes has downloaded each of these URLs once, in order, whatever
    the ledger held, and counts at most as many downloads.  Finished or
    aborted, every record that it leaves with the status downloaded
    names an object of the bucket, where that held before. *)
Theorem curl_collector_downloads_every_url (maxDownloads : option nat)
        (discovered : list jsstring) (w : World) :
  let urls := firstn (cap_of maxDownloads) discovered in
  let r := runYohananofCurlCollector maxDownloads discovered w in
  ((exists w' n, r = Finished w' n) <-> Forall fetchable urls)
  /\ (forall w' n, r = Finished w' n ->
        n <= length urls /\ length urls <= cap_of maxDownloads
        /\ fetch_log w' = fetch_log w ++ urls)
  /\ (backed w -> backed (world_of r)).
Proof.
  cbv zeta. unfold Collector.runYohananofCurlCollector.
  fold (cap_of maxDownloads).
  set (urls := firstn (cap_of maxDownloads) discovered).
  split; [split|split].
  - intros (w' & n & Hrun). now apply download_all_finished in Hrun.
  - intros H. now apply download_all_finishes.
  - intros w' n Hrun. apply download_all_finished in Hrun.
    destruct Hrun as (_ & H2 & H3 & _). split; [lia|].
    split; [apply firstn_le_length|exact H3].
  - apply download_all_backed.
Qed.


End CurlCollector.

(* ================================================================== *)
(** * The batches of the decoder *)
(* ================================================================== *)

Lemma firstn_plus {A : Type} (a b : nat) (l : list A) :
  firstn (a + b) l = firstn a l ++ firstn b (skipn a l).
Proof.
  revert l. induction a as [|a IH]; intros l; [reflexivity|].
  destruct l as [|x l]; cbn [Nat.add firstn skipn app].
  - now destruct b.
  - now rewrite IH.
Qed.

(** Slices of width [B] at the first [m] multiples of [B] make up the
    first [m * B] elements. *)
Lemma slices_concat {A : Type} (B : nat) (l : list A) (m : nat) :
  concat (List.map (fun i => firstn B (skipn i l))
                   (List.map (fun j => j * B) (seq 0 m)))
  = firstn (m * B) l.
Proof.
  induction m as [|m IH]; [reflexivity|].
  rewrite seq_S, !map_app, concat_app, IH. cbn [List.map concat Nat.add].
  rewrite app_nil_r, <- firstn_plus. f_equal. lia.
Qed.

Lemma ceil_covers (B n : nat) : 0 < B -> n <= (n + (B - 1)) / B * B.
Proof.
  intros HB. pose proof (Nat.div_mod_eq (n + (B - 1)) B) as E.
  pose proof (Nat.mod_upper_bound (n + (B - 1)) B) as U. nia.
Qed.

Lemma ceil_tight (B n j : nat) : 0 < B -> j < (n + (B - 1)) / B -> j * B < n.
Proof.
  intros HB Hj. pose proof (Nat.div_mod_eq (n + (B - 1)) B) as E.
  assert (S j * B <= (n + (B - 1)) / B * B) by (apply Nat.mul_le_mono_r; lia).
  nia.
Qed.

Lemma BATCH_pos : 0 < Decoder.BATCH.
Proof. unfold Decoder.BATCH. lia. Qed.

Lemma chunks_concat (rows : list Decoder.PriceRow) : concat (chunks rows) = rows.
Proof.
  unfold chunks, Decoder.batch_starts. rewrite slices_concat.
  apply firstn_all2. apply ceil_covers, BATCH_pos.
Qed.

Lemma chunks_sizes (rows : list Decoder.PriceRow) :
  Forall (fun ch => 1 <= length ch <= Decoder.BATCH) (chunks rows).
Proof.
  unfold chunks, Decoder.batch_starts. rewrite map_map.
  apply Forall_forall. intros ch Hin. apply in_map_iff in Hin.
  destruct Hin as (j & <- & Hj). apply in_seq in Hj.
  assert (Hlt : j * Decoder.BATCH < length rows)
    by (apply ceil_tight; [apply BATCH_pos|lia]).
  rewrite length_firstn, length_skipn. pose proof BATCH_pos. lia.
Qed.

Lemma upsert_prices_app (a b t : list Decoder.PriceRow) :
  Decoder.upsert_prices (a ++ b) t
  = Decoder.upsert_prices b (Decoder.upsert_prices a t).
Proof. unfold Decoder.upsert_prices. apply fold_left_app. Qed.

Section DecoderBatches.
Import Decoder.
Variable upsert_error : list PriceRow -> option jsstring.
Local Abbreviation batch_loop := (batch_loop upsert_error).

Lemma batch_loop_prices (rows : list PriceRow) (fid : nat) :
  forall starts db,
    prices (batch_loop starts rows fid db)
    = fold_left (upsert_chunk upsert_error)
                (List.map (fun i => firstn BATCH (skipn i rows)) starts)
                (prices db).
Proof.
  induction starts as [|i starts IH]; intros db;
    cbn [Decoder.batch_loop List.map fold_left]; [reflexivity|].
  unfold upsert_chunk at 2.
  destruct (upsert_error (firstn BATCH (skipn i rows))); now rewrite IH.
Qed.

Lemma upsert_chunks_all (cs : list (list PriceRow)) :
  Forall (fun ch => upsert_error ch = None) cs ->
  forall t, fold_left (upsert_chunk upsert_error) cs t
            = upsert_prices (concat cs) t.
Proof.
  induction 1 as [|ch cs Hch _ IH]; intros t; cbn [fold_left concat];
    [reflexivity|].
  rewrite upsert_prices_app, IH. unfold upsert_chunk. now rewrite Hch.
Qed.

(** X15.  The batch loop of the decoder cuts the rows of a file into
    chunks of at most 500 rows, none empty, that make up the rows in
    their order; it upserts every chunk whose upsert does not fail, also
    after one that failed; and when none fails, the table of prices is
    what the upsert of all the rows of the file gives. *)
Theorem batches_cover_the_rows (rows : list PriceRow) (fid : nat) (db : DB) :
  concat (chunks rows) = rows
  /\ Forall (fun ch => 1 <= length ch <= 500) (chunks rows)
  /\ prices (batch_loop (batch_starts (length rows)) rows fid db)
     = fold_left (upsert_chunk upsert_error) (chunks rows) (prices db)
  /\ (Forall (fun ch => upsert_error ch = None) (chunks rows) ->
      prices (batch_loop (batch_starts (length rows)) rows fid db)
      = upsert_prices rows (prices db)).
Proof.
  split; [apply chunks_concat|]. split; [apply chunks_sizes|].
  split; [apply batch_loop_prices|].
  intros H. rewrite batch_loop_prices. fold (chunks rows).
  rewrite (upsert_chunks_all _ H). now rewrite chunks_concat.
Qed.

End DecoderBatches.

(* ================================================================== *)
(** * The canonical form of a name *)
(* ================================================================== *)

Lemma trim_id (s : jsstring) : starts_clean s -> ends_clean s -> trim s = s.
Proof.
  intros Hs He. unfold trim, trimEnd. rewrite (@trimStart_id s Hs).
  unfold ends_clean in He. rewrite (@trimStart_id (rev s) He). apply rev_involutive.
Qed.

(** X16.  The canonical form of a name holds no bracket, no whitespace
    but single spaces between its words, and none at its ends; it is
    not longer than the name, and each of its characters is a character
    of the name or a space.  A name that has no digit and no bracket,
    and whose whitespace is already in that form, is its own canonical
    form. *)
Theorem normalizeCanonical_output (x : jsstring) :
  no_bracket (normalizeCanonical x)
  /\ collapsed (normalizeCanonical x)
  /\ starts_clean (normalizeCanonical x)
  /\ ends_clean (normalizeCanonical x)
  /\ length (normalizeCanonical x) <= length x
  /\ Forall (fun c => c = 32%N \/ In c x) (normalizeCanonical x)
  /\ (no_digit x -> no_bracket x -> collapsed x -> starts_clean x ->
      ends_clean x -> normalizeCanonical x = x).
Proof.
  destruct (normalizeCanonical_shape x) as (H1 & H2 & _).
  split; [exact H1|]. split; [exact H2|].
  split; [apply trim_clean|]. split; [apply trim_ends_clean|].
  split; [|split].
  - unfold normalizeCanonical.
    eapply Nat.le_trans; [apply trim_length|].
    eapply Nat.le_trans; [apply replace_all_length; cbn; lia|].
    eapply Nat.le_trans; [apply replace_all_length; cbn; lia|].
    eapply Nat.le_trans; [apply replace_all_length; cbn; lia|].
    eapply Nat.le_trans; [apply replace_all_length; cbn; lia|].
    apply replace_all_length; cbn; lia.
  - unfold normalizeCanonical. apply trim_forall.
    apply replace_all_forall; [repeat constructor; now left|].
    do 4 (apply replace_all_forall; [constructor|]).
    apply Forall_forall. intros c Hc. now right.
  - intros Hd Hb Hc Hs He. unfold normalizeCanonical.
    rewrite (@replace_unmatched true re_quantity [] x)
      by (apply digit_free_unmatched; [apply quantity_nomatch|exact Hd]).
    rewrite (@replace_unmatched false re_multiplier [] x)
      by (apply digit_free_unmatched; [apply multiplier_nomatch|exact Hd]).
    rewrite (@replace_unmatched false re_percent [] x)
      by (apply digit_free_unmatched; [apply percent_nomatch|exact Hd]).
    rewrite (@bracket_free_id x Hb), (@replace_spaces_id x Hc).
    now apply trim_id.
Qed.

(* ================================================================== *)
(** * A download of a collector that downloads with fetch *)
(* ================================================================== *)

Section CountedAttempt.
Import Collector.
Variable fetch : jsstring -> FetchResult.
Variable upload_fault : jsstring -> option jsstring.
Variable sha256_hex : list N -> jsstring.
Variable today : jsstring.
Variable now_ms : N.
Variable now : N.

Local Abbreviation attempt :=
  (attempt fetch upload_fault sha256_hex today now_ms now).

(** X17.  A collector that downloads with fetch counts a download only
    where the ledger had no record of the URL, the response was ok, a
    store was resolved from the file name, the response URL or the URL,
    the path [<chain>/<date>/<store>/<file name>] was not yet stored,
    and the upload and the insert succeeded.  It then has downloaded
    the URL once, stored the body under that path, and added one
    record: of its chain, the URL and the store, with that path, the
    hash of the body, the status downloaded and no error. *)
Theorem counted_attempt_is_recorded (c : Chain) (u : jsstring) (w : World) :
  snd (attempt c u w) = true ->
  exists res sid,
    ~ has_record (CHAIN c) u (ledger w)
    /\ fetch u = Fetched res /\ res_ok res = true
    /\ nonEmpty (orElse (extractStoreIdFromFilename c (filename_of now_ms c res))
                   (orElse (extractStoreIdFromFilename c (res_url res))
                           (extractStoreIdFromFilename c u))) = Some sid
    /\ let p := CHAIN c ++ slash ++ today ++ slash ++ sid ++ slash
                ++ filename_of now_ms c res in
       upload_fault p = None
       /\ stored p (bucket w) = false
       /\ bucket (fst (attempt c u w)) = put p (res_body res) (bucket w)
       /\ fetch_log (fst (attempt c u w)) = fetch_log w ++ [u]
       /\ rows (ledger (fst (attempt c u w)))
          = rows (ledger w)
            ++ [{| rf_id := next_id (ledger w); rf_chain := CHAIN c;
                   rf_store_id := Some sid; rf_file_url := u;
                   rf_storage_path := Some p;
                   rf_sha256 := Some (sha256_hex (res_body res));
                   rf_fetched_at := now; rf_status := downloaded;
                   rf_error := None |}].
Proof.
  intros H. pose proof H as H0. unfold Collector.attempt in H.
  destruct (select_existing (CHAIN c) u (ledger w)) eqn:Hsel;
    [|discriminate].
  destruct (fetch u) as [msg|res] eqn:Hfetch; [discriminate|].
  destruct (res_ok res) eqn:Hok; cbn [negb] in H; [|discriminate].
  destruct (nonEmpty _) as [sid|] eqn:Hsid in H; [|discriminate].
  unfold upload in H.
  destruct (upload_fault _) eqn:Hf in H; [discriminate|].
  cbn [negb andb bucket log_fetch] in H.
  destruct (stored _ (bucket w)) eqn:Hst in H; [discriminate|].
  clear H.
  assert (He : existsb (same_key (CHAIN c) u) (rows (ledger w)) = false).
  { apply select_existing_nil in Hsel. unfold has_record in Hsel.
    destruct (existsb (same_key (CHAIN c) u) (rows (ledger w)));
      [contradiction Hsel|]; reflexivity. }
  exists res, sid.
  split; [now apply select_existing_nil|].
  split; [reflexivity|]. split; [exact Hok|]. split; [exact Hsid|].
  cbv zeta. split; [exact Hf|]. split; [exact Hst|].
  clear H0. unfold Collector.attempt. rewrite Hsel, Hfetch, Hok.
  cbn [negb]. rewrite Hsid. unfold upload. rewrite Hf.
  cbn [negb andb bucket log_fetch]. rewrite Hst.
  unfold insert_row, insert.
  cbn [ledger log_fetch Ledger.chain Ledger.file_url row_of]. rewrite He.
  cbn [fst snd with_ledger ledger log_fetch bucket fetch_log rows].
  repeat split.
Qed.

End CountedAttempt.

(* ================================================================== *)
(** * The theorems on the sample data *)
(* ================================================================== *)

Lemma sample_db_unique : unique_keys (Decoder.raw_files SampleRun.db).
Proof.
  intros c u. unfold key_count.
  cbn [SampleRun.db Decoder.raw_files rows filter].
  destruct (same_key c u Sample.ledger_row) eqn:E1;
    destruct (same_key c u SampleRun.shufersal_row) eqn:E2;
    cbn [length]; try lia.
  apply same_key_eq in E1, E2. destruct E1 as [E1 _], E2 as [E2 _].
  rewrite <- E1 in E2. vm_compute in E2. discriminate.
Defined.

Lemma decoder_marks_only_selected_files_witness :
  unique_keys (Decoder.raw_files (Decoder.db_of SampleRun.decoded))
  /\ In SampleRun.shufersal_row
        (rows (Decoder.raw_files (Decoder.db_of SampleRun.decoded))).
Proof.
  destruct (decoder_marks_only_selected_files Sample.number_of_digits
              Sample.digits_of_number Sample.download_gz
              (Sample.parse_to SampleRun.catalog) Sample.upsert_ok
              SampleRun.db) as (_ & H2 & H3).
  split.
  - apply H2. exact sample_db_unique.
  - apply H3.
    + cbn. repeat constructor; cbn; intuition discriminate.
    + right. left. reflexivity.
    + intros H. vm_compute in H. discriminate.
Defined.

Lemma completed_run_selects_no_file_again_witness :
  ~ In 7 (List.map Decoder.f_id
            (Decoder.select_files (Decoder.db_of SampleRun.decoded))).
Proof.
  apply (completed_run_selects_no_file_again Sample.number_of_digits
           Sample.digits_of_number Sample.download_gz
           (Sample.parse_to SampleRun.catalog) Sample.upsert_ok
           SampleRun.db (Decoder.db_of SampleRun.decoded)
           ltac:(vm_compute; reflexivity) Sample.file).
  vm_compute. left. reflexivity.
Defined.

Lemma decoder_writes_only_own_prices_witness :
  unique_price_keys
    (Decoder.prices
       (Decoder.db_of
          (Decoder.parse_file Sample.number_of_digits Sample.digits_of_number
             Sample.download_gz (Sample.parse_to SampleRun.catalog)
             Sample.upsert_ok Sample.db Sample.file))).
Proof.
  apply (decoder_writes_only_own_prices Sample.number_of_digits
           Sample.digits_of_number Sample.download_gz
           (Sample.parse_to SampleRun.catalog) Sample.upsert_ok
           Sample.db Sample.file).
  intros fid code. cbn. lia.
Defined.


Lemma aggregation_is_repeatable_witness :
  Aggregate.find_stats SampleRun.other_key
    (Aggregate.aggregate_daily SamplePrices.now SamplePrices.table [])
  = None
  /\ NoDup (List.map Aggregate.stats_key
              (Aggregate.aggregate_daily SamplePrices.now SamplePrices.table
                 [])).
Proof.
  destruct (aggregation_is_repeatable SamplePrices.now SamplePrices.table [])
    as (H1 & H2 & _).
  split.
  - rewrite H1; [reflexivity|]. vm_compute. reflexivity.
  - apply H2. constructor.
Defined.

Lemma fetch_collectors_count_their_downloads_witness :
  exists w' n,
    SampleRun.shufersal_run = Collector.Finished w' n
    /\ n <= 5
    /\ downloads (Collector.ledger w') = n.
Proof.
  assert (H : exists w' n, SampleRun.shufersal_run = Collector.Finished w' n).
  { eexists _, _. vm_compute. reflexivity. }
  destruct H as (w' & n & H). exists w', n. split; [exact H|].
  exact (proj2 (fetch_collectors_count_their_downloads SampleNet.fetch_gz
                  SampleNet.no_fault SampleNet.sha SampleNet.today
                  SampleNet.now_ms 2000%N SampleNet.one_page)
               (Some 3) (Some 5) SampleNet.empty w' n H).
Defined.

Lemma fetch_collectors_record_what_they_store_witness :
  hashed SampleNet.sha (Collector.world_of SampleRun.shufersal_run).
Proof.
  apply (proj2 (fetch_collectors_record_what_they_store SampleNet.fetch_gz
                  SampleNet.no_fault SampleNet.sha SampleNet.today
                  SampleNet.now_ms 2000%N SampleNet.one_page)
               (Some 3) (Some 5) SampleNet.empty).
  constructor.
Defined.

Lemma curl_collector_downloads_every_url_witness :
  (exists w' n, SampleRun.curl_run = Collector.Finished w' n)
  /\ backed (Collector.world_of SampleRun.curl_run).
Proof.
  destruct (curl_collector_downloads_every_url SampleNet.curl_gz
              SampleNet.no_fault SampleNet.sha 2000%N SampleNet.basename
              (Some 5) [Sample.file_url] SampleNet.empty) as (H1 & _ & H3).
  split.
  - apply H1. constructor; [|constructor].
    split; [vm_compute; discriminate|discriminate].
  - apply H3. constructor.
Defined.


Lemma batches_cover_the_rows_witness :
  Decoder.prices
    (Decoder.batch_loop Sample.upsert_ok
       (Decoder.batch_starts (length SampleRun.rows_of_catalog))
       SampleRun.rows_of_catalog 7 Sample.db)
  = Decoder.upsert_prices SampleRun.rows_of_catalog [].
Proof.
  apply (batches_cover_the_rows Sample.upsert_ok SampleRun.rows_of_catalog 7
           Sample.db).
  apply Forall_forall. intros ch _. reflexivity.
Defined.

Lemma normalizeCanonical_output_witness :
  normalizeCanonical (js "Milk") = js "Milk".
Proof.
  apply (normalizeCanonical_output (js "Milk")).
  - repeat constructor.
  - repeat constructor.
  - cbn. repeat split; discriminate.
  - reflexivity.
  - reflexivity.
Defined.

Lemma counted_attempt_is_recorded_witness :
  exists res sid,
    SampleNet.fetch_gz SampleNet.shufersal_url = Collector.Fetched res
    /\ Collector.res_ok res = true
    /\ sid = js "001".
Proof.
  destruct (counted_attempt_is_recorded SampleNet.fetch_gz SampleNet.no_fault
              SampleNet.sha SampleNet.today SampleNet.now_ms 2000%N
              Collector.shufersal SampleNet.shufersal_url SampleNet.empty
              ltac:(vm_compute; reflexivity))
    as (res & sid & _ & H2 & H3 & H4 & _).
  exists res, sid. split; [exact H2|]. split; [exact H3|].
  injection H2 as <-. vm_compute in H4. now injection H4 as <-.
Defined.

(* ================================================================== *)
(** * How the decoder leaves a file *)
(* ================================================================== *)

Section DecoderOutcomes.
Import Decoder.
Variable StringToNumber : jsstring -> jsnum.
Variable NumberToString : jsnum -> jsstring.
Variable storage_download : jsstring -> jsstring + list N.
Variable ungzip_parse : list N -> option Doc.
Variable upsert_error : list PriceRow -> option jsstring.

Local Abbreviation parse_root :=
  (parse_root StringToNumber NumberToString upsert_error).
Local Abbreviation parse_file :=
  (parse_file StringToNumber NumberToString storage_download ungzip_parse
              upsert_error).
Local Abbreviation reaches_items :=
  (reaches_items NumberToString storage_download ungzip_parse).
Local Abbreviation stored_as := (stored_as storage_download).

Lemma marked_failed (db : DB) (fid : nat) (msg : jsstring) :
  find_id fid (raw_files db) <> None ->
  outcome_of fid (raw_files (mark fid failed (Some msg) db))
  = Some (failed, Some msg)
  /\ prices (mark fid failed (Some msg) db) = prices db.
Proof.
  intros H. split; [|reflexivity]. cbn [mark raw_files].
  now apply outcome_set_status.
Qed.

(** X18.  How one iteration of the decoder leaves a file that has a
    ledger record.  Where unzipping or parsing throws, nothing at all
    is recorded: the file stays as it was and the exception ends the
    run.  Otherwise the file ends either as parsed with no error, and
    then it passed every check and its item list was not empty; or as
    failed, and then no price row was written and the error is the
    message of the storage download or one of the four messages of the
    checks. *)
Theorem decoder_outcomes (db : DB) (f : FileRow) :
  nonEmpty (f_storage_path f) <> None ->
  find_id (f_id f) (raw_files db) <> None ->
  (forall db', parse_file db f = Thrown db' ->
     db' = db
     /\ exists buf, stored_as f buf /\ isGzip buf = true
                    /\ ungzip_parse buf = None)
  /\ (forall db', parse_file db f = Continue db' ->
        (outcome_of (f_id f) (raw_files db') = Some (parsed, None)
         /\ exists root, reaches_items f root /\ toArray (Items root) <> [])
        \/ (exists msg,
              outcome_of (f_id f) (raw_files db') = Some (failed, Some msg)
              /\ prices db' = prices db
              /\ ((exists path, nonEmpty (f_storage_path f) = Some path
                                /\ storage_download path = inl msg)
                  \/ In msg [js "Not a gzip file (magic bytes missing)";
                             js "XML missing root";
                             js "Missing StoreId in XML";
                             js "No Items in XML"]))).
Proof.
  intros Hp Hrow. unfold Decoder.parse_file.
  destruct (nonEmpty (f_storage_path f)) as [path|] eqn:Epath;
    [clear Hp|congruence].
  destruct (storage_download path) as [msg|buf] eqn:Edl.
  { split; [discriminate|]. intros db' [= <-]. right. exists msg.
    destruct (marked_failed db (f_id f) msg Hrow) as [H1 H2].
    split; [exact H1|]. split; [exact H2|]. left. exists path. auto. }
  destruct (isGzip buf) eqn:Egz; cbn [negb].
  2:{ split; [discriminate|]. intros db' [= <-]. right. eexists.
      destruct (marked_failed db (f_id f)
                  (js "Not a gzip file (magic bytes missing)") Hrow)
        as [H1 H2].
      split; [exact H1|]. split; [exact H2|]. right. now left. }
  assert (Hst : stored_as f buf) by (exists path; auto).
  destruct (ungzip_parse buf) as [doc|] eqn:Eparse.
  2:{ split; [|discriminate]. intros db' [= <-]. split; [reflexivity|].
      exists buf. auto. }
  destruct (root_of doc) as [root|] eqn:Eroot;
    (split; [discriminate|]); intros db'.
  2:{ intros [= <-]. right. eexists.
      destruct (marked_failed db (f_id f) (js "XML missing root") Hrow)
        as [H1 H2].
      split; [exact H1|]. split; [exact H2|]. right. right. now left. }
  intros [= <-]. unfold Decoder.parse_root.
  destruct (nonEmpty (storeIdNorm_of NumberToString root f)) as [sid|]
    eqn:Esid.
  2:{ right. eexists.
      destruct (marked_failed db (f_id f) (js "Missing StoreId in XML") Hrow)
        as [H1 H2].
      split; [exact H1|]. split; [exact H2|]. right. right. right. now left. }
  destruct (toArray (Items root)) as [|it items] eqn:Eitems.
  - right. eexists.
    match goal with
    | |- context [mark _ failed _ ?d] =>
        destruct (marked_failed d (f_id f) (js "No Items in XML")) as [H1 H2]
    end.
    { cbn [raw_files]. now apply find_set_store_id. }
    split; [exact H1|]. split; [exact H2|]. do 4 right. now left.
  - left. split.
    + pose proof (@parse_root_items_parsed StringToNumber NumberToString
                    upsert_error db f root sid Esid) as H.
      unfold Decoder.parse_root in H. rewrite Esid, Eitems in H.
      apply H; [discriminate|exact Hrow].
    + exists root. split; [|rewrite Eitems; discriminate].
      exists buf, doc, sid. auto.
Qed.

End DecoderOutcomes.

Lemma decoder_outcomes_witness :
  outcome_of 7
    (Decoder.raw_files
       (Decoder.db_of
          (Decoder.parse_file Sample.number_of_digits Sample.digits_of_number
             Sample.download_html (Sample.parse_to SampleRun.catalog)
             Sample.upsert_ok Sample.db Sample.file)))
  = Some (failed, Some (js "Not a gzip file (magic bytes missing)")).
Proof.
  destruct (decoder_outcomes Sample.number_of_digits Sample.digits_of_number
              Sample.download_html (Sample.parse_to SampleRun.catalog)
              Sample.upsert_ok Sample.db Sample.file
              ltac:(vm_compute; discriminate) ltac:(vm_compute; discriminate))
    as [_ H].
  destruct (H _ ltac:(vm_compute; reflexivity)) as [[H1 _]|(msg & H1 & _)].
  - vm_compute in H1. discriminate.
  - vm_compute. reflexivity.
Defined.

(* ================================================================== *)
(** * The name of a downloaded file *)
(* ================================================================== *)



Section FileName.
Import Collector.
Variable now_ms : N.
Local Abbreviation filename_of := (filename_of now_ms).

(** The [content-disposition] header of the response, or the empty
    string. *)
Local Abbreviation header :=
  (fun res => match res_content_disposition res with
              | Some s => s
              | None => []
              end).


End FileName.

